(** * libtwirc: a shallow embedding of the Twitch IRC client engine

    The development follows [src/libtwirc.c] function by function: the
    reassembler ([libtwirc_next_chunk], [libtwirc_shift_token],
    [libtwirc_process_data]), the wire decoder ([libtwirc_parse_tags],
    [libtwirc_parse_prefix], [libtwirc_parse_command],
    [libtwirc_parse_params], [libtwirc_unescape_tag]), the dispatcher
    ([libtwirc_dispatch_evt]) and the readiness handler
    ([libtwirc_handle_event]).

    C strings are [string]s, C integers are [Z] with their conversions
    written out, the connection struct is a record that every operation
    threads through a state-and-fault monad, and everything the engine does to
    the outside (bytes handed to the socket, user handlers called) is
    appended to a trace. *)

From Stdlib Require Import ZArith List String Ascii Bool Lia.
Import ListNotations.

Local Open Scope string_scope.
Local Open Scope Z_scope.

(* ================================================================= *)
(** ** C integers *)

(** Conversions between the integer types the source uses.  [size_t] is
    64 bits wide, [int] is 32 bits wide, and the [status] member of
    [struct twirc_state] is declared [int status : 8]. *)

Definition wrap_unsigned (bits z : Z) : Z := z mod 2 ^ bits.

Definition wrap_signed (bits z : Z) : Z :=
  (z + 2 ^ (bits - 1)) mod 2 ^ bits - 2 ^ (bits - 1).

Definition to_size_t : Z -> Z := wrap_unsigned 64.
Definition to_int : Z -> Z := wrap_signed 32.
Definition to_status : Z -> Z := wrap_signed 8.

Definition INT_MAX : Z := 2 ^ 31 - 1.

(* ================================================================= *)
(** ** C strings *)

Definition NUL : ascii := "000"%char.
Definition SOH : ascii := "001"%char.
Definition LF : ascii := "010"%char.
Definition CR : ascii := "013"%char.

(** The separator literal ["\r\n"] of [libtwirc_process_data]. *)
Definition CRLF : string := String CR (String LF "").

Definition strlen (s : string) : Z := Z.of_nat (String.length s).

(** The first [n] characters of [s] (all of [s] when it is shorter). *)
Fixpoint take (n : nat) (s : string) : string :=
  match n, s with
  | S n', String c r => String c (take n' r)
  | _, _ => ""
  end.

(** [s + n]: the string that starts [n] characters into [s]. *)
Fixpoint drop (n : nat) (s : string) : string :=
  match n, s with
  | S n', String _ r => drop n' r
  | _, _ => s
  end.

(** [s[i]]; reading the terminator (or the zero-filled rest of a receive
    buffer) gives [NUL]. *)
Definition char_at (s : string) (i : nat) : ascii :=
  match String.get i s with
  | Some c => c
  | None => NUL
  end.

(** The bytes of a buffer up to its first [NUL]: what the string functions
    of C see. *)
Fixpoint until_nul (s : string) : string :=
  match s with
  | "" => ""
  | String c r => if Ascii.eqb c NUL then "" else String c (until_nul r)
  end.

(** [strstr haystack needle] as an offset into [haystack]; [None] is the
    null pointer. *)
Fixpoint strstr (haystack needle : string) {struct haystack} : option nat :=
  if String.prefix needle haystack then Some 0%nat
  else
    match haystack with
    | "" => None
    | String _ r => option_map S (strstr r needle)
    end.

(** [strnlen s n]. *)
Definition strnlen (s : string) (n : Z) : Z := Z.min (strlen s) n.

(** [strndup s n] with [n] a [size_t]: at most [n] characters of [s]. *)
Definition strndup (s : string) (n : Z) : string :=
  if strlen s <=? n then s else take (Z.to_nat n) s.

(** [snprintf(buf, size, ...)] keeps [size - 1] characters of the formatted
    text; with [size = 0] nothing is written and [buf] stays as it was. *)
Definition snprintf (buf : string) (size : Z) (formatted : string) : string :=
  if size <=? 0 then buf else take (Z.to_nat (size - 1)) formatted.

(** [strtok] called until it returns [NULL], with a one-character delimiter
    set: the non-empty runs between delimiters, in order. *)
Fixpoint fields (d : ascii) (s : string) : list string :=
  match s with
  | "" => [""]
  | String c r =>
      if Ascii.eqb c d then "" :: fields d r
      else
        match fields d r with
        | f :: fs => String c f :: fs
        | [] => [String c ""]
        end
  end.

Definition nonempty (s : string) : bool := negb (s =? "")%string.

Definition strtok_all (s : string) (d : ascii) : list string :=
  filter nonempty (fields d s).

(* ================================================================= *)
(** ** libtwirc.h *)

Definition TWIRC_STATUS_DISCONNECTED : Z := 0.
Definition TWIRC_STATUS_CONNECTING : Z := 1.
Definition TWIRC_STATUS_CONNECTED : Z := 2.
Definition TWIRC_STATUS_AUTHENTICATING : Z := 4.
Definition TWIRC_STATUS_AUTHENTICATED : Z := 8.

Definition TWIRC_MESSAGE_SIZE : Z := 2048.
Definition TWIRC_BUFFER_SIZE : Z := TWIRC_MESSAGE_SIZE.

Record twirc_login := mk_login {
  host : string;
  port : string;
  nick : string;
  pass : string
}.

Record twirc_tag := mk_tag {
  key : string;
  value : string
}.

(** [struct twirc_event] as [libtwirc.c] uses it.  A pointer member that
    may be null is an [option]; [params] and [tags] are the arrays without
    their closing null entry. *)
Record twirc_event := mk_event {
  prefix : option string;
  evt_nick : option string;
  channel : option string;
  command : string;
  params : option (list string);
  num_params : Z;
  trailing : Z;
  tags : option (list twirc_tag);
  num_tags : Z
}.

Definition set_channel (c : option string) (e : twirc_event) : twirc_event :=
  mk_event (prefix e) (evt_nick e) c (command e) (params e) (num_params e)
    (trailing e) (tags e) (num_tags e).

(** [struct twirc_state].  The callback table is not a member here: user
    handlers are foreign code, so a call of one is recorded in the trace
    (see [effect]) and, like the default [libtwirc_callback_null] that
    [twirc_init_callbacks] installs in every slot, leaves the state alone. *)
Record twirc_state := mk_state {
  status : Z;
  running : Z;
  ip_type : Z;
  socket_fd : Z;
  buffer : string;
  login : twirc_login;
  epfd : Z
}.

Definition set_status (v : Z) (s : twirc_state) : twirc_state :=
  mk_state (to_status v) (running s) (ip_type s) (socket_fd s) (buffer s)
    (login s) (epfd s).

Definition set_running (v : Z) (s : twirc_state) : twirc_state :=
  mk_state (status s) v (ip_type s) (socket_fd s) (buffer s) (login s)
    (epfd s).

Definition set_buffer (b : string) (s : twirc_state) : twirc_state :=
  mk_state (status s) (running s) (ip_type s) (socket_fd s) b (login s)
    (epfd s).

(** The slots of [struct twirc_callbacks] ([twirc_init_callbacks]). *)
Inductive callback :=
| cb_connect | cb_welcome | cb_ping | cb_join | cb_part | cb_channel
| cb_privmsg | cb_whisper | cb_notice | cb_clearchat | cb_unknown.

(* ================================================================= *)
(** ** The wire decoder: pure parts *)

(** [libtwirc_unescape_tag].  The argument of the recursion is [val + i];
    the loop condition [i < (int) val_len - 1] holds exactly when at least
    two characters are left, so a last character that no escape consumed
    is never reached. *)
Fixpoint libtwirc_unescape_tag (val : string) : string :=
  match val with
  | "" => ""
  | String c rest =>
      match rest with
      | "" => ""
      | String d rest' =>
          if Ascii.eqb c "\"%char then
            if Ascii.eqb d ":"%char then String ";"%char (libtwirc_unescape_tag rest')
            else if Ascii.eqb d "s"%char then String " "%char (libtwirc_unescape_tag rest')
            else if Ascii.eqb d "\"%char then String "\"%char (libtwirc_unescape_tag rest')
            else if Ascii.eqb d "r"%char then String CR (libtwirc_unescape_tag rest')
            else if Ascii.eqb d "n"%char then String LF (libtwirc_unescape_tag rest')
            else String c (libtwirc_unescape_tag rest)
          else String c (libtwirc_unescape_tag rest)
      end
  end.

Definition libtwirc_create_tag (k v : string) : twirc_tag :=
  mk_tag k (libtwirc_unescape_tag v).

(** [libtwirc_prefix_to_nick]. *)
Definition libtwirc_prefix_to_nick (p : string) : option string :=
  match strstr p "!" with
  | None => None
  | Some sep => Some (strndup p (Z.of_nat sep))
  end.

(** The body of the [strtok] loop of [libtwirc_parse_tags] for one token. *)
Definition parse_tag (tag : string) : twirc_tag :=
  match strstr tag "=" with
  | None => libtwirc_create_tag tag ""
  | Some eq =>
      if Ascii.eqb (char_at tag (S eq)) NUL
      then libtwirc_create_tag tag (drop (S eq) tag)
      else libtwirc_create_tag (take eq tag) (drop (S eq) tag)
  end.

(** [libtwirc_parse_tags]: the rest of the message, the tags and their
    number.  When the message starts with ['@'] and holds no space, [next]
    is null and the pointer arithmetic on it is undefined: [None]. *)
Definition libtwirc_parse_tags (msg : string)
  : option (string * option (list twirc_tag) * Z) :=
  if negb (Ascii.eqb (char_at msg 0) "@"%char) then Some (msg, None, 0)
  else
    match strstr msg " " with
    | None => None
    | Some next =>
        let tag_str := strndup (drop 1 msg) (Z.of_nat next - 1) in
        let found := map parse_tag (strtok_all tag_str ";"%char) in
        Some (drop (S next) msg, Some found, Z.of_nat (List.length found))
    end.

(** [libtwirc_parse_prefix]; [None] as in [libtwirc_parse_tags]. *)
Definition libtwirc_parse_prefix (msg : string)
  : option (string * option string) :=
  if negb (Ascii.eqb (char_at msg 0) ":"%char) then Some (msg, None)
  else
    match strstr msg " " with
    | None => None
    | Some next =>
        Some (drop (S next) msg, Some (strndup (drop 1 msg) (Z.of_nat next - 1)))
    end.

(** [libtwirc_parse_command]: the rest of the message (null when the
    command was its last part) and the command. *)
Definition libtwirc_parse_command (msg : string) : option string * string :=
  match strstr msg " " with
  | None => (None, strndup msg (to_size_t (strlen msg - 2)))
  | Some next => (Some (drop (S next) msg), strndup msg (Z.of_nat next))
  end.

(** The [for] loop of [libtwirc_parse_params].  [rest] is [p_str + i];
    the result is the parameters copied so far and the [trailing] flag. *)
Fixpoint params_loop (p_str : string) (p_len : Z) (rest : string) (i : Z)
    (trailing : bool) (from : Z) (toks : list string)
  : list string * bool :=
  match rest with
  | "" => (toks, trailing)
  | String c rest' =>
      if Ascii.eqb c ":"%char && negb trailing then
        params_loop p_str p_len rest' (i + 1) true (i + 1) toks
      else if Ascii.eqb c " "%char && negb trailing then
        params_loop p_str p_len rest' (i + 1) trailing (i + 1)
          (toks ++ [strndup (drop (Z.to_nat from) p_str) (i - from)])
      else if i =? p_len - 1 then
        params_loop p_str p_len rest' (i + 1) trailing from
          (toks ++ [strndup (drop (Z.to_nat from) p_str) (i + 1 - from)])
      else
        params_loop p_str p_len rest' (i + 1) trailing from toks
  end.

(** [libtwirc_parse_params]: the parameters, their number and the index of
    the trailing one. *)
Definition libtwirc_parse_params (msg : option string)
  : option (list string) * Z * Z :=
  match msg with
  | None => (None, 0, -1)
  | Some p_str =>
      let '(toks, trailing) :=
        params_loop p_str (strlen p_str) p_str 0 false 0 [] in
      let num_tokens := Z.of_nat (List.length toks) in
      (Some toks, num_tokens,
       if trailing then to_int (to_size_t (num_tokens - 1)) else -1)
  end.

(* ================================================================= *)
(** ** The reassembler: pure parts *)

(** [libtwirc_next_chunk]: the [size_t] it returns and what [dest] holds
    afterwards. *)
Definition libtwirc_next_chunk (dest : string) (dlen : Z) (src : string)
    (slen off : Z) : Z * string :=
  let chunk_len := to_size_t (slen - off) in
  if chunk_len <=? 0 then (to_size_t (-1), dest)
  else
    let max_len := if dlen <? chunk_len then dlen else chunk_len in
    let copied :=
      until_nul (take (Z.to_nat max_len) (drop (Z.to_nat off) src)) in
    let cpy_len := strlen copied in
    if cpy_len =? dlen then (to_size_t (-1), "")
    else
      let new_off := to_size_t (off + cpy_len + 1) in
      (if slen <=? new_off then slen else new_off, copied).

(** [libtwirc_shift_token]: the [size_t] it returns, [dest] and [src]
    afterwards. *)
Definition libtwirc_shift_token (dest src sep : string)
  : Z * string * string :=
  match strstr src sep with
  | None => (0, dest, src)
  | Some sep_pos =>
      let sep_len := strlen sep in
      let new_len := to_size_t (strlen (drop sep_pos src) - sep_len) in
      let tok_len := Z.of_nat sep_pos in
      (tok_len,
       take sep_pos src,
       take (Z.to_nat new_len) (drop (sep_pos + String.length sep) src))
  end.

(* ================================================================= *)
(** ** The world around the engine *)

(** What one call of [stcpnb_receive] does: it delivers bytes and returns
    their number, or it returns [-1] with [errno] set. *)
Inductive recv_outcome :=
| RecvData (bytes : string)
| RecvError (errno : Z).

(** What the engine does to the outside, in program order:
    - [Sent bytes r]: [stcpnb_send] was handed [bytes] and returned [r];
    - [Processing msg]: [libtwirc_process_msg] was entered with the line
      [msg] (its first statement echoes the line to [stderr]);
    - [ParamRead i]: the entry [evt->params[i]] was read (recorded once
      for each entry a branch of the dispatcher looks at);
    - [Invoked cb st evt]: the user handler in slot [cb] was called, the
      connection status being [st], with the event [evt] ([None] for the
      null pointer the connect handler gets). *)
Inductive effect :=
| Sent (bytes : string) (r : Z)
| Processing (msg : string)
| ParamRead (i : Z)
| Invoked (cb : callback) (st : Z) (evt : option twirc_event).

(** The connection struct, what the socket will deliver to the coming
    receive calls (an exhausted script means "would block"), and the trace
    so far. *)
Record world := mk_world {
  state : twirc_state;
  inbox : list recv_outcome;
  trace : list effect
}.

(** Ways a run leaves defined behaviour: a write past a fixed-size buffer,
    a null or wild pointer dereferenced, a read past an array; [OutOfFuel]
    marks a loop bound of the model being hit. *)
Inductive fault := Overflow | NullDeref | OutOfBounds | OutOfFuel.

Inductive result (A : Type) :=
| Ok (a : A) (w : world)
| Crash (f : fault).

Arguments Ok {A} a w.
Arguments Crash {A} f.

Definition M (A : Type) : Type := world -> result A.

Definition ret {A} (a : A) : M A := fun w => Ok a w.

Definition bind {A B} (m : M A) (k : A -> M B) : M B :=
  fun w =>
    match m w with
    | Ok a w' => k a w'
    | Crash f => Crash f
    end.

Declare Scope twirc_scope.
Delimit Scope twirc_scope with twirc.
Bind Scope twirc_scope with M.

Notation "x <- c1 ;; c2" := (bind c1 (fun x => c2))
  (at level 61, c1 at next level, right associativity) : twirc_scope.
Notation "' pat <- c1 ;; c2" :=
  (bind c1 (fun x => match x with pat => c2 end))
  (at level 61, pat pattern, c1 at next level, right associativity)
  : twirc_scope.
Notation "c1 ;; c2" := (bind c1 (fun _ => c2))
  (at level 61, right associativity) : twirc_scope.

Local Open Scope twirc_scope.

Definition crash {A} (f : fault) : M A := fun _ => Crash f.

Definition get_state : M twirc_state := fun w => Ok (state w) w.

Definition modify_state (f : twirc_state -> twirc_state) : M unit :=
  fun w => Ok tt (mk_world (f (state w)) (inbox w) (trace w)).

Definition log (e : effect) : M unit :=
  fun w => Ok tt (mk_world (state w) (inbox w) (trace w ++ [e])).

(** A partial pure step: [None] is undefined pointer arithmetic. *)
Definition defined {A} (o : option A) : M A :=
  match o with
  | Some a => ret a
  | None => crash NullDeref
  end.

(** A call through a slot of the callback table. *)
Definition invoke (cb : callback) (evt : option twirc_event) : M unit :=
  s <- get_state ;;
  log (Invoked cb (status s) evt).

(** [evt->params[i]]: null [params] cannot be indexed, the entry after the
    last parameter is the closing null pointer, anything further lies
    outside the array. *)
Definition param_at (evt : twirc_event) (i : nat) : M (option string) :=
  log (ParamRead (Z.of_nat i)) ;;
  match params evt with
  | None => crash NullDeref
  | Some ps =>
      if (i <? List.length ps)%nat then ret (nth_error ps i)
      else if (i =? List.length ps)%nat then ret None
      else crash OutOfBounds
  end.

(** [strcat(state->buffer, chunk)] into the [2 * TWIRC_MESSAGE_SIZE] bytes
    that [twirc_init] allocates. *)
Definition strcat_buffer (chunk : string) : M unit :=
  s <- get_state ;;
  if strlen (buffer s) + strlen chunk + 1 <=? 2 * TWIRC_MESSAGE_SIZE
  then modify_state (set_buffer (buffer s ++ chunk))
  else crash Overflow.

(** [sys/epoll.h]. *)
Definition EPOLLIN : Z := 1.
Definition EPOLLOUT : Z := 4.
Definition EPOLLERR : Z := 8.
Definition EPOLLHUP : Z := 16.
Definition EPOLLRDHUP : Z := 8192.

(** The messages a stretch of trace shows [libtwirc_process_msg] being
    entered with, in order. *)
Fixpoint processed (t : list effect) : list string :=
  match t with
  | [] => []
  | Processing m :: t' => m :: processed t'
  | _ :: t' => processed t'
  end.

(** The bytes a stretch of trace shows being handed to the socket. *)
Fixpoint sent (t : list effect) : list string :=
  match t with
  | [] => []
  | Sent b _ :: t' => b :: sent t'
  | _ :: t' => sent t'
  end.

(** The buffer that [twirc_send] fills: at most [TWIRC_BUFFER_SIZE - 3]
    characters of the message, then CR, LF and a terminator. *)
Definition send_buffer (msg : string) : string :=
  let msg_len := strnlen msg (TWIRC_BUFFER_SIZE - 3) in
  take (Z.to_nat msg_len) msg ++ CRLF ++ String NUL "".

(* ================================================================= *)
(** ** The engine *)

Section Engine.

(** What [libtwirc.c] takes from elsewhere: the send primitive of
    [stcpnb.c] (its result may depend on everything that happened before
    and on the bytes), the two [errno] values that [twirc_recv] compares
    with, and the size of the buffer that [twirc_cmd_pong] formats into. *)
Variable stcpnb_send : list effect -> string -> Z.
Variable EAGAIN : Z.
Variable EWOULDBLOCK : Z.
Variable TWIRC_PONG_SIZE : Z.

(** [twirc_send]: [send_buffer msg] is the buffer it builds, all
    [msg_len + 3] bytes of which go to the socket.  (The echo of the line to
    [stderr] is not part of the trace.) *)
Definition twirc_send (msg : string) : M Z :=
  fun w =>
    let buf := send_buffer msg in
    let r := stcpnb_send (trace w) buf in
    Ok r (mk_world (state w) (inbox w) (trace w ++ [Sent buf r])).

(** [stcpnb_receive(fd, buf, max)] on a zeroed buffer: its result, [errno]
    afterwards and the bytes put into [buf]. *)
Definition stcpnb_receive (max : Z) : M (Z * Z * string) :=
  fun w =>
    match inbox w with
    | [] => Ok (-1, EAGAIN, "") w
    | RecvError e :: rest =>
        Ok (-1, e, "") (mk_world (state w) rest (trace w))
    | RecvData d :: rest =>
        if strlen d <=? max
        then Ok (strlen d, 0, d) (mk_world (state w) rest (trace w))
        else Crash Overflow
    end.

(** [twirc_recv]: what it returns and the contents of [buf].  (The store
    [buf[res_len] = 0] before the test lands one byte in front of [buf]
    when [res_len] is [-1]; the model keeps no memory around [buf].) *)
Definition twirc_recv (len : Z) : M (Z * string) :=
  '(res_len, errno, buf) <- stcpnb_receive (to_size_t (len - 1)) ;;
  if res_len =? -1 then
    if (errno =? EAGAIN) || (errno =? EWOULDBLOCK) then ret (0, buf)
    else ret (-1, buf)
  else ret (to_int res_len, buf).

Definition twirc_cmd_pass (pass : string) : M Z :=
  twirc_send (snprintf "" TWIRC_BUFFER_SIZE ("PASS " ++ pass)).

Definition twirc_cmd_nick (nick : string) : M Z :=
  twirc_send (snprintf "" TWIRC_BUFFER_SIZE ("NICK " ++ nick)).

Definition twirc_cmd_req_tags : M Z :=
  twirc_send "CAP REQ :twitch.tv/tags".

Definition twirc_cmd_req_membership : M Z :=
  twirc_send "CAP REQ :twitch.tv/membership".

Definition twirc_cmd_req_commands : M Z :=
  twirc_send "CAP REQ :twitch.tv/commands".

(** [twirc_cmd_pong]; [param] may be the null pointer. *)
Definition twirc_cmd_pong (param : option string) : M Z :=
  let colon :=
    match param with
    | Some p => if Ascii.eqb (char_at p 0) ":"%char then "" else ":"
    | None => ":"
    end in
  let text :=
    match param with
    | Some p => p
    | None => ""
    end in
  twirc_send (snprintf "" TWIRC_PONG_SIZE ("PONG " ++ colon ++ text)).

Definition libtwirc_on_welcome (evt : twirc_event) : M Z :=
  s <- get_state ;;
  modify_state (set_status (Z.lor (status s) TWIRC_STATUS_AUTHENTICATED)) ;;
  ret 0.

Definition libtwirc_on_ping (evt : twirc_event) : M Z :=
  p0 <- param_at evt 0 ;;
  twirc_cmd_pong p0.

Definition libtwirc_on_globaluserstate (evt : twirc_event) : M Z :=
  s <- get_state ;;
  modify_state (set_status (Z.lor (status s) TWIRC_STATUS_AUTHENTICATED)) ;;
  ret 0.

Definition libtwirc_on_clearchat (evt : twirc_event) : M Z := ret (-1).

Definition libtwirc_on_whisper (evt : twirc_event) : M Z := ret (-1).

(** [twirc_auth]. *)
Definition twirc_auth : M Z :=
  s <- get_state ;;
  r <- twirc_cmd_pass (pass (login s)) ;;
  if r =? -1 then ret (-1)
  else
    r' <- twirc_cmd_nick (nick (login s)) ;;
    if r' =? -1 then ret (-1) else ret 0.

(** The test of the [PRIVMSG] branch for a control message:
    [p[0] == 0x01 && p[strlen(p) - 1] == 0x01]. *)
Definition is_ctcp (p : string) : bool :=
  Ascii.eqb (char_at p 0) SOH
  && Ascii.eqb (char_at p (String.length p - 1)) SOH.

(** [libtwirc_dispatch_evt]: what it returns and the event afterwards. *)
Definition libtwirc_dispatch_evt (evt : twirc_event) : M (Z * twirc_event) :=
  if (command evt =? "001")%string then
    libtwirc_on_welcome evt ;;
    invoke cb_welcome (Some evt) ;;
    ret (0, evt)
  else if (command evt =? "JOIN")%string then
    p0 <- param_at evt 0 ;;
    let evt := set_channel p0 evt in
    invoke cb_join (Some evt) ;;
    ret (0, evt)
  else if (command evt =? "PING")%string then
    libtwirc_on_ping evt ;;
    invoke cb_ping (Some evt) ;;
    ret (0, evt)
  else if (command evt =? "PRIVMSG")%string && (2 <=? num_params evt) then
    p0 <- param_at evt 0 ;;
    let evt := set_channel p0 evt in
    p1 <- param_at evt 1 ;;
    match p1 with
    | None => crash NullDeref
    | Some text =>
        (if is_ctcp text then ret tt else invoke cb_privmsg (Some evt)) ;;
        ret (0, evt)
    end
  else if (command evt =? "CLEARCHAT")%string then
    libtwirc_on_clearchat evt ;;
    invoke cb_clearchat (Some evt) ;;
    ret (0, evt)
  else if (command evt =? "WHISPER")%string then
    libtwirc_on_whisper evt ;;
    invoke cb_whisper (Some evt) ;;
    ret (0, evt)
  else ret (-1, evt).

(** The four parsing steps of [libtwirc_process_msg] and the nickname
    taken from the prefix: the event that is handed to the dispatcher. *)
Definition decode (msg : string) : option twirc_event :=
  match libtwirc_parse_tags msg with
  | None => None
  | Some (msg1, tags, num_tags) =>
      match libtwirc_parse_prefix msg1 with
      | None => None
      | Some (msg2, prefix) =>
          let '(msg3, command) := libtwirc_parse_command msg2 in
          let '(params, num_params, trailing) := libtwirc_parse_params msg3 in
          let nick :=
            match prefix with
            | None => None
            | Some p => libtwirc_prefix_to_nick p
            end in
          Some (mk_event prefix nick None command params num_params trailing
                  tags num_tags)
      end
  end.

(** [libtwirc_process_msg]. *)
Definition libtwirc_process_msg (msg : string) : M Z :=
  log (Processing msg) ;;
  evt <- defined (decode msg) ;;
  libtwirc_dispatch_evt evt ;;
  ret 0.

(** The first [while] loop of [libtwirc_process_data]: one chunk per
    iteration, appended to the backlog. *)
Fixpoint chunk_loop (fuel : nat) (buf : string) (len : Z) (chunk : string)
    (off : Z) : M unit :=
  match fuel with
  | O => crash OutOfFuel
  | S fuel' =>
      let '(r, chunk') :=
        libtwirc_next_chunk chunk (to_size_t (len + 1)) buf len
          (to_size_t off) in
      let off' := to_int r in
      if 0 <? off' then
        strcat_buffer chunk' ;;
        chunk_loop fuel' buf len chunk' off'
      else ret tt
  end.

(** The second [while] loop of [libtwirc_process_data]: one token shifted
    out of the backlog into [msg] per iteration, and processed when its
    length is positive.  [msg] holds [TWIRC_MESSAGE_SIZE] bytes. *)
Fixpoint token_loop (fuel : nat) (msg : string) : M unit :=
  match fuel with
  | O => crash OutOfFuel
  | S fuel' =>
      s <- get_state ;;
      let '(tok_len, msg', buffer') :=
        libtwirc_shift_token msg (buffer s) CRLF in
      if TWIRC_MESSAGE_SIZE <=? tok_len then crash Overflow
      else
        modify_state (set_buffer buffer') ;;
        if 0 <? tok_len then
          libtwirc_process_msg msg' ;;
          token_loop fuel' msg'
        else ret tt
  end.

(** [libtwirc_process_data]. *)
Definition libtwirc_process_data (buf : string) (len : Z) : M Z :=
  chunk_loop (S (Z.to_nat len)) buf len "" 0 ;;
  s <- get_state ;;
  token_loop (S (String.length (buffer s))) "" ;;
  ret 0.

Definition twirc_capreq : M Z :=
  twirc_cmd_req_tags ;;
  twirc_cmd_req_membership ;;
  twirc_cmd_req_commands ;;
  ret 0.

(** [libtwirc_on_connect]. *)
Definition libtwirc_on_connect : M Z :=
  s <- get_state ;;
  if negb (Z.land (status s) TWIRC_STATUS_AUTHENTICATING =? 0) then ret (-1)
  else if negb (Z.land (status s) TWIRC_STATUS_AUTHENTICATED =? 0) then ret (-1)
  else
    twirc_capreq ;;
    twirc_auth ;;
    s' <- get_state ;;
    modify_state
      (set_status (Z.lor (status s') TWIRC_STATUS_AUTHENTICATING)) ;;
    ret 0.

(** The receive loop of the [EPOLLIN] branch of [libtwirc_handle_event]. *)
Fixpoint recv_loop (fuel : nat) : M unit :=
  match fuel with
  | O => crash OutOfFuel
  | S fuel' =>
      '(bytes_received, buf) <- twirc_recv TWIRC_BUFFER_SIZE ;;
      if 0 <? bytes_received then
        libtwirc_process_data buf (to_size_t bytes_received) ;;
        recv_loop fuel'
      else ret tt
  end.

(** The [EPOLLIN] branch. *)
Definition handle_readable (events : Z) : M unit :=
  if Z.land events EPOLLIN =? 0 then ret tt
  else fun w => recv_loop (S (List.length (inbox w))) w.

(** The [EPOLLOUT] branch. *)
Definition handle_writable (events : Z) : M unit :=
  if Z.land events EPOLLOUT =? 0 then ret tt
  else
    s <- get_state ;;
    if Z.land (status s) TWIRC_STATUS_CONNECTING =? 0 then ret tt
    else
      modify_state (set_status TWIRC_STATUS_CONNECTED) ;;
      libtwirc_on_connect ;;
      invoke cb_connect None.

Definition hang_up : M Z :=
  modify_state (set_status TWIRC_STATUS_DISCONNECTED) ;;
  modify_state (set_running 0) ;;
  ret (-1).

(** [libtwirc_handle_event] on the event mask of one [epoll] notification. *)
Definition libtwirc_handle_event (events : Z) : M Z :=
  handle_readable events ;;
  handle_writable events ;;
  if negb (Z.land events EPOLLRDHUP =? 0) then hang_up
  else if negb (Z.land events EPOLLHUP =? 0) then hang_up
  else if negb (Z.land events EPOLLERR =? 0) then hang_up
  else ret 0.

(** Successive calls of [libtwirc_process_data], one per byte span, each
    span passed with its own length. *)
Fixpoint feed (spans : list string) : M unit :=
  match spans with
  | [] => ret tt
  | d :: rest => libtwirc_process_data d (strlen d) ;; feed rest
  end.

(* ================================================================= *)
(** ** Reference definitions *)

(** A buffer with its [NUL] bytes taken out. *)
Fixpoint strip_nul (s : string) : string :=
  match s with
  | "" => ""
  | String c r =>
      if Ascii.eqb c NUL then strip_nul r else String c (strip_nul r)
  end.

(** The complete lines of a byte stream, as the specification words the
    extraction: scan for the first CR LF, the bytes before it form one
    line, go on behind it, stop when no CR LF is left.  [cur] is the part
    of the current line that was scanned already. *)
Fixpoint lines_from (cur s : string) {struct s} : list string :=
  match s with
  | "" => []
  | String c r =>
      match r with
      | "" => []
      | String d r' =>
          if Ascii.eqb c CR && Ascii.eqb d LF
          then cur :: lines_from "" r'
          else lines_from (cur ++ String c "") r
      end
  end.

Definition complete_lines (s : string) : list string := lines_from "" s.

(** The complete lines that are not empty. *)
Definition pending (s : string) : list string :=
  filter nonempty (complete_lines s).

(** The byte stream that a sequence of spans is a fragmentation of. *)
Fixpoint stream (spans : list string) : string :=
  match spans with
  | [] => ""
  | d :: rest => d ++ stream rest
  end.

(** The backlog is a string inside the [2 * TWIRC_MESSAGE_SIZE] bytes that
    [twirc_init] allocates for it. *)
Definition backlog_fits (w : world) : Prop :=
  strlen (buffer (state w)) < 2 * TWIRC_MESSAGE_SIZE.

(** No backslash occurs in [s]. *)
Fixpoint plain (s : string) : bool :=
  match s with
  | "" => true
  | String c r => negb (Ascii.eqb c "\"%char) && plain r
  end.

(** One of the three hang-up bits is set in an event mask. *)
Definition hangs_up (events : Z) : bool :=
  negb (Z.land events EPOLLRDHUP =? 0)
  || negb (Z.land events EPOLLHUP =? 0)
  || negb (Z.land events EPOLLERR =? 0).

(** The buffers that the handshake hands to the socket. *)
Definition cap_tags_line : string := send_buffer "CAP REQ :twitch.tv/tags".
Definition cap_membership_line : string :=
  send_buffer "CAP REQ :twitch.tv/membership".
Definition cap_commands_line : string :=
  send_buffer "CAP REQ :twitch.tv/commands".
Definition pass_line (lg : twirc_login) : string :=
  send_buffer (snprintf "" TWIRC_BUFFER_SIZE ("PASS " ++ pass lg)).
Definition nick_line (lg : twirc_login) : string :=
  send_buffer (snprintf "" TWIRC_BUFFER_SIZE ("NICK " ++ nick lg)).

(* ================================================================= *)
(** ** What a computation leaves alone *)

(** [respects R m]: whenever [m] returns, the world before and the world
    after are related by [R]. *)
Definition respects {A} (R : world -> world -> Prop) (m : M A) : Prop :=
  forall w a w', m w = Ok a w' -> R w w'.

(** [calm w w']: between [w] and [w'] the backlog, the receive script and
    the login are untouched, the [TWIRC_STATUS_CONNECTING] bit of the status
    is untouched, and the trace has grown by effects none of which is the
    entry of [libtwirc_process_msg]. *)
Definition calm (w w' : world) : Prop :=
  buffer (state w') = buffer (state w)
  /\ inbox w' = inbox w
  /\ login (state w') = login (state w)
  /\ Z.land (status (state w')) TWIRC_STATUS_CONNECTING =
     Z.land (status (state w)) TWIRC_STATUS_CONNECTING
  /\ exists d, trace w' = (trace w ++ d)%list /\ processed d = [].

(** [steady w w']: between [w] and [w'] the login and the
    [TWIRC_STATUS_CONNECTING] bit are untouched and the trace has only
    grown.  Everything that handling readable input does is steady. *)
Definition steady (w w' : world) : Prop :=
  login (state w') = login (state w)
  /\ Z.land (status (state w')) TWIRC_STATUS_CONNECTING =
     Z.land (status (state w)) TWIRC_STATUS_CONNECTING
  /\ exists d, trace w' = (trace w ++ d)%list.

(** [bounded m]: [m] never stops because a loop of the model ran out of
    fuel. *)
Definition bounded {A} (m : M A) : Prop := forall w, m w <> Crash OutOfFuel.

(* ================================================================= *)
(** ** Sample values *)

Definition sample_login : twirc_login :=
  mk_login "irc.chat.twitch.tv" "6667" "bot" "oauth:secret".

(** A state with an empty backlog, as [twirc_init] allocates it, in a given
    status. *)
Definition sample_state (st : Z) : twirc_state :=
  mk_state st 1 2 3 "" sample_login 4.

Definition sample_world (st : Z) (incoming : list recv_outcome) : world :=
  mk_world (sample_state st) incoming [].

(** A socket that takes every byte, and one on which every send fails. *)
Definition send_all (t : list effect) (bytes : string) : Z := strlen bytes.
Definition send_none (t : list effect) (bytes : string) : Z := -1.

Definition event_of (cmd : string) (ps : list string) : twirc_event :=
  mk_event None None None cmd (Some ps) (Z.of_nat (List.length ps)) (-1)
    None 0.

(* ================================================================= *)
(** ** Connection lifecycle and the run loop *)

(** What [twirc_connect] and [twirc_disconnect] take from [stcpnb.c] and
    [sys/epoll.h]: each call is given by its arguments (the [epoll_event]
    passed to [epoll_ctl] by its event mask). *)
Variable stcpnb_create : Z -> Z.
Variable epoll_create : Z -> Z.
Variable epoll_ctl : Z -> Z -> Z -> Z -> Z.
Variable stcpnb_connect : Z -> Z -> string -> string -> Z.
Variable stcpnb_close : Z -> Z.

Definition EPOLLET : Z := 2147483648.
Definition EPOLL_CTL_ADD : Z := 1.

Definition set_socket_fd (v : Z) (s : twirc_state) : twirc_state :=
  mk_state (status s) (running s) (ip_type s) v (buffer s) (login s)
    (epfd s).

Definition set_epfd (v : Z) (s : twirc_state) : twirc_state :=
  mk_state (status s) (running s) (ip_type s) (socket_fd s) (buffer s)
    (login s) v.

Definition set_login (l : twirc_login) (s : twirc_state) : twirc_state :=
  mk_state (status s) (running s) (ip_type s) (socket_fd s) (buffer s) l
    (epfd s).

(** [twirc_is_connected]. *)
Definition twirc_is_connected (s : twirc_state) : Z :=
  if negb (Z.land (status s) TWIRC_STATUS_CONNECTED =? 0) then 1 else 0.

(** [twirc_is_logged_in]. *)
Definition twirc_is_logged_in (s : twirc_state) : Z :=
  if negb (Z.land (status s) TWIRC_STATUS_AUTHENTICATED =? 0) then 1 else 0.

(** [twirc_connect]. *)
Definition twirc_connect (host port pass nick : string) : M Z :=
  s <- get_state ;;
  let fd := stcpnb_create (ip_type s) in
  modify_state (set_socket_fd fd) ;;
  if fd <? 0 then ret (-3)
  else
    let ep := epoll_create 1 in
    modify_state (set_epfd ep) ;;
    if ep <? 0 then ret (-4)
    else
      let epctl_result :=
        epoll_ctl ep EPOLL_CTL_ADD fd
          (Z.lor (Z.lor (Z.lor EPOLLRDHUP EPOLLOUT) EPOLLIN) EPOLLET) in
      if negb (epctl_result =? 0) then ret (-5)
      else
        modify_state (set_login (mk_login host port nick pass)) ;;
        let con := stcpnb_connect fd (ip_type s) host port in
        (if con =? 0
         then modify_state (set_status TWIRC_STATUS_CONNECTING)
         else ret tt) ;;
        ret con.

Definition twirc_cmd_join (chan : string) : M Z :=
  twirc_send (snprintf "" TWIRC_BUFFER_SIZE ("JOIN " ++ chan)).

Definition twirc_cmd_part (chan : string) : M Z :=
  twirc_send (snprintf "" TWIRC_BUFFER_SIZE ("PART " ++ chan)).

Definition twirc_cmd_privmsg (chan message : string) : M Z :=
  twirc_send
    (snprintf "" TWIRC_BUFFER_SIZE ("PRIVMSG " ++ chan ++ " :" ++ message)).

Definition twirc_cmd_req_chatrooms : M Z :=
  twirc_send "CAP REQ :twitch.tv/tags twitch.tv/commands".

Definition twirc_cmd_quit : M Z := twirc_send "QUIT".

(** [twirc_disconnect]. *)
Definition twirc_disconnect : M Z :=
  twirc_cmd_quit ;;
  s <- get_state ;;
  let r := stcpnb_close (socket_fd s) in
  modify_state (set_status TWIRC_STATUS_DISCONNECTED) ;;
  ret r.

(** [twirc_kill] up to the point where it releases the struct: the state
    that comes out is the one [twirc_free] is handed. *)
Definition twirc_kill : M Z :=
  s <- get_state ;;
  (if negb (Z.land (status s) TWIRC_STATUS_CONNECTED =? 0)
   then twirc_disconnect ;; ret tt
   else ret tt) ;;
  ret 0.

(** [twirc_tick], given what its call of [epoll_wait] came back with: the
    number of events and the mask of the one event it asked for. *)
Definition twirc_tick (timeout : Z) (waited : Z * Z) : M Z :=
  let '(num_events, events) := waited in
  if num_events =? -1 then
    modify_state (set_running 0) ;;
    ret (-1)
  else if num_events =? 0 then ret 0
  else libtwirc_handle_event events.

(** The [while] loop of [twirc_loop] against the outcomes of the coming
    calls of [epoll_wait].  [Some 0] is the loop left and [0] returned;
    [None] is the loop still asking for events when the outcomes given
    are used up. *)
Fixpoint loop_ticks (timeout : Z) (waits : list (Z * Z)) {struct waits}
  : M (option Z) :=
  s <- get_state ;;
  if running s =? 0 then ret (Some 0)
  else
    match waits with
    | [] => ret None
    | waited :: rest =>
        twirc_tick timeout waited ;;
        loop_ticks timeout rest
    end.

(** [twirc_loop]. *)
Definition twirc_loop (timeout : Z) (waits : list (Z * Z)) : M (option Z) :=
  modify_state (set_running 1) ;;
  loop_ticks timeout waits.

(** The calls of [twirc_tick] that [twirc_loop] makes for as long as the run
    flag stays set: one for each outcome of [epoll_wait], in order. *)
Fixpoint ticks (timeout : Z) (waits : list (Z * Z)) : M unit :=
  match waits with
  | [] => ret tt
  | waited :: rest => twirc_tick timeout waited ;; ticks timeout rest
  end.

(** [libtwirc_next_token]: the pointer it returns, as the string that
    starts there ([None] is the null pointer), and [dest] afterwards. *)
Definition libtwirc_next_token (dest src sep : string)
  : option string * string :=
  match strstr src sep with
  | None => (None, dest)
  | Some sep_pos =>
      (Some (drop (sep_pos + String.length sep) src), take sep_pos src)
  end.

(* ================================================================= *)
(** ** Further reference definitions *)

(** The character [c] does not occur in [s]. *)
Fixpoint lacks (c : ascii) (s : string) : bool :=
  match s with
  | "" => true
  | String a r => negb (Ascii.eqb a c) && lacks c r
  end.

(** The escaping of tag values that [libtwirc_unescape_tag] reads back,
    from the table in the comment above it: semicolon, space, backslash,
    CR and LF are written as a backslash and a letter. *)
Definition tag_escape_char (c : ascii) : string :=
  if Ascii.eqb c ";"%char then "\:"
  else if Ascii.eqb c " "%char then "\s"
  else if Ascii.eqb c "\"%char then "\\"
  else if Ascii.eqb c CR then "\r"
  else if Ascii.eqb c LF then "\n"
  else String c "".

(** The characters that the escaping rewrites. *)
Definition escaped (c : ascii) : bool :=
  Ascii.eqb c ";"%char || Ascii.eqb c " "%char || Ascii.eqb c "\"%char
  || Ascii.eqb c CR || Ascii.eqb c LF.

Fixpoint tag_escape (v : string) : string :=
  match v with
  | "" => ""
  | String c r => tag_escape_char c ++ tag_escape r
  end.

(** A list of fields without its last entry when that one is empty. *)
Fixpoint chop (l : list string) : list string :=
  match l with
  | [] => []
  | x :: r =>
      match r with
      | [] => if (x =? "")%string then [] else [x]
      | _ :: _ => x :: chop r
      end
  end.

(** The trailing parameter as [libtwirc_parse_params] yields it: none when
    nothing follows the colon. *)
Definition trailing_param (t : string) : list string :=
  if (t =? "")%string then [] else [t].

(** An optional part of a line holds no space. *)
Definition spaceless (o : option string) : bool :=
  match o with
  | Some s => lacks " "%char s
  | None => true
  end.

(** A line of the grammar in [libtwirc.h],
    [['@' tags SPACE] [':' prefix SPACE] command SPACE params]. *)
Definition irc_line (tgs pfx : option string) (cmd ps : string) : string :=
  match tgs with
  | Some t => "@" ++ t ++ " "
  | None => ""
  end ++
  match pfx with
  | Some p => ":" ++ p ++ " "
  | None => ""
  end ++ cmd ++ " " ++ ps.

(** The tags, their number and the nickname as [libtwirc_process_msg]
    gets them for a tags section and a prefix. *)
Definition tags_of (tgs : option string) : option (list twirc_tag) :=
  option_map (fun t => map parse_tag (strtok_all t ";")) tgs.

Definition num_tags_of (tgs : option string) : Z :=
  match tgs with
  | Some t => Z.of_nat (List.length (strtok_all t ";"))
  | None => 0
  end.

Definition nick_of (pfx : option string) : option string :=
  match pfx with
  | Some p => libtwirc_prefix_to_nick p
  | None => None
  end.

(** The parameters and the trailing index that [libtwirc_parse_params]
    yields for a middle part [m] without a colon, followed by a colon and
    the text [t]. *)
Definition params_of (m t : string) : list string :=
  (removelast (fields " "%char m) ++ trailing_param t)%list.

(** [device w w']: the run flag, the address family and the two file
    descriptors are the same in [w] and [w']. *)
Definition device (w w' : world) : Prop :=
  running (state w') = running (state w)
  /\ ip_type (state w') = ip_type (state w)
  /\ socket_fd (state w') = socket_fd (state w)
  /\ epfd (state w') = epfd (state w).

(** An outcome of [epoll_wait] after which [twirc_tick] clears the run
    flag: the call failed, or it delivered a notification that carries a
    hang-up flag. *)
Definition stops (waited : Z * Z) : bool :=
  (fst waited =? -1) || (negb (fst waited =? 0) && hangs_up (snd waited)).

(** The handler slots a stretch of trace shows being called, in order. *)
Fixpoint calls (t : list effect) : list callback :=
  match t with
  | [] => []
  | Invoked cb _ _ :: t' => cb :: calls t'
  | _ :: t' => calls t'
  end.

(** The slots of the callback table that a statement of [libtwirc.c] calls
    through. *)
Definition wired (cb : callback) : bool :=
  match cb with
  | cb_connect | cb_welcome | cb_ping | cb_join | cb_privmsg | cb_whisper
  | cb_clearchat => true
  | cb_part | cb_channel | cb_notice | cb_unknown => false
  end.

(** [tame w w']: [device w w'], and the trace has grown by effects among
    which every handler call goes through a wired slot. *)
Definition tame (w w' : world) : Prop :=
  device w w'
  /\ exists d, trace w' = (trace w ++ d)%list
            /\ forallb wired (calls d) = true.

(** The leading data spans of a receive script, up to the first outcome
    that is not a delivery of at least one byte. *)
Fixpoint leading_data (script : list recv_outcome) : list string :=
  match script with
  | RecvData d :: rest =>
      if 0 <? strlen d then d :: leading_data rest else []
  | _ => []
  end.

(** The receive script behind its leading data spans and the outcome that
    ended them. *)
Fixpoint after_data (script : list recv_outcome) : list recv_outcome :=
  match script with
  | RecvData d :: rest =>
      if 0 <? strlen d then after_data rest else rest
  | _ :: rest => rest
  | [] => []
  end.

(* ================================================================= *)
(** ** Facts about integers and strings *)

Lemma to_size_t_small (z : Z) : 0 <= z < 2 ^ 64 -> to_size_t z = z.
Proof. intros H. unfold to_size_t, wrap_unsigned. now apply Z.mod_small. Qed.

Lemma to_int_small (z : Z) : - 2 ^ 31 <= z < 2 ^ 31 -> to_int z = z.
Proof.
  intros H. unfold to_int, wrap_signed.
  replace (32 - 1) with 31 by reflexivity.
  rewrite Z.mod_small; lia.
Qed.

Lemma to_status_small (z : Z) : - 2 ^ 7 <= z < 2 ^ 7 -> to_status z = z.
Proof.
  intros H. unfold to_status, wrap_signed.
  replace (8 - 1) with 7 by reflexivity.
  rewrite Z.mod_small; lia.
Qed.

Lemma append_nil_r (s : string) : s ++ "" = s.
Proof. induction s as [|c s IH]; simpl; [reflexivity | now rewrite IH]. Qed.

Lemma append_assoc (a b c : string) : (a ++ b) ++ c = a ++ (b ++ c).
Proof. induction a as [|x a IH]; simpl; [reflexivity | now rewrite IH]. Qed.

Lemma length_append (a b : string) :
  String.length (a ++ b) = (String.length a + String.length b)%nat.
Proof. induction a as [|x a IH]; simpl; [reflexivity | now rewrite IH]. Qed.

Lemma strlen_nonneg (s : string) : 0 <= strlen s.
Proof. unfold strlen. lia. Qed.

Lemma strlen_append (a b : string) : strlen (a ++ b) = strlen a + strlen b.
Proof. unfold strlen. rewrite length_append. lia. Qed.


Lemma take_all (n : nat) (s : string) :
  (String.length s <= n)%nat -> take n s = s.
Proof.
  revert s. induction n as [|n IH]; intros [|c s]; simpl; intros H;
    try reflexivity; try lia.
  rewrite IH; [reflexivity | lia].
Qed.

Lemma drop_all (n : nat) (s : string) :
  (String.length s <= n)%nat -> drop n s = "".
Proof.
  revert s. induction n as [|n IH]; intros [|c s]; simpl; intros H;
    try reflexivity; try lia.
  apply IH. lia.
Qed.

Lemma length_take (n : nat) (s : string) :
  String.length (take n s) = Nat.min n (String.length s).
Proof.
  revert s. induction n as [|n IH]; intros [|c s]; simpl; try reflexivity.
  now rewrite IH.
Qed.

Lemma length_drop (n : nat) (s : string) :
  String.length (drop n s) = (String.length s - n)%nat.
Proof.
  revert s. induction n as [|n IH]; intros [|c s]; simpl; try reflexivity.
  apply IH.
Qed.

Lemma drop_drop (n m : nat) (s : string) :
  drop n (drop m s) = drop (m + n) s.
Proof.
  revert s. induction m as [|m IH]; intros s; simpl.
  - reflexivity.
  - destruct s as [|c s]; simpl.
    + now destruct n.
    + apply IH.
Qed.

Lemma drop_take (n m : nat) (s : string) :
  drop n (take m s) = take (m - n) (drop n s).
Proof.
  revert m s. induction n as [|n IH]; intros m s; simpl.
  - now rewrite Nat.sub_0_r.
  - destruct m as [|m]; simpl.
    + reflexivity.
    + destruct s as [|c s]; simpl; [now destruct (m - n)%nat | apply IH].
Qed.

Lemma take_append (n : nat) (a b : string) :
  (n <= String.length a)%nat -> take n (a ++ b) = take n a.
Proof.
  revert a. induction n as [|n IH]; intros [|c a]; simpl; intros H;
    try reflexivity; try lia.
  rewrite IH; [reflexivity | lia].
Qed.

Lemma drop_append (n : nat) (a b : string) :
  (n <= String.length a)%nat -> drop n (a ++ b) = drop n a ++ b.
Proof.
  revert a. induction n as [|n IH]; intros [|c a]; simpl; intros H;
    try reflexivity; try lia.
  apply IH. lia.
Qed.

Lemma strndup_take (s : string) (n : nat) :
  strndup s (Z.of_nat n) = take n s.
Proof.
  unfold strndup, strlen.
  destruct (Z.leb_spec (Z.of_nat (String.length s)) (Z.of_nat n)).
  - symmetry. apply take_all. lia.
  - now rewrite Nat2Z.id.
Qed.

(** The first occurrence that [strstr] finds lies inside the haystack. *)
Lemma prefix_length (a s : string) :
  String.prefix a s = true -> (String.length a <= String.length s)%nat.
Proof.
  revert s. induction a as [|x a IH]; intros s H; simpl; [lia|].
  destruct s as [|y s]; simpl in H; [discriminate|].
  destruct (ascii_dec x y); [|discriminate].
  apply IH in H. simpl. lia.
Qed.

Lemma strstr_unfold (s sep : string) :
  strstr s sep =
  if String.prefix sep s then Some 0%nat
  else
    match s with
    | "" => None
    | String _ r => option_map S (strstr r sep)
    end.
Proof. destruct s; reflexivity. Qed.

Lemma strstr_bound (s sep : string) (p : nat) :
  strstr s sep = Some p -> (p + String.length sep <= String.length s)%nat.
Proof.
  revert p. induction s as [|c s IH]; intros p; rewrite strstr_unfold.
  - destruct (String.prefix sep "") eqn:E; [|discriminate].
    intros [= <-]. apply prefix_length in E. simpl in *. lia.
  - destruct (String.prefix sep (String c s)) eqn:E.
    + intros [= <-]. apply prefix_length in E. simpl in *. lia.
    + destruct (strstr s sep) as [q|] eqn:Q; simpl; [|discriminate].
      intros [= <-]. specialize (IH q eq_refl). simpl. lia.
Qed.

Lemma prefix_append (a s x : string) :
  (String.length a <= String.length s)%nat ->
  String.prefix a (s ++ x) = String.prefix a s.
Proof.
  revert s. induction a as [|y a IH]; intros s H; simpl.
  - destruct (s ++ x); destruct s; reflexivity.
  - destruct s as [|c s]; simpl in *; [lia|].
    destruct (ascii_dec y c); [apply IH; lia | reflexivity].
Qed.

(** Bytes appended behind a haystack do not move the first occurrence. *)
Lemma strstr_append (s sep x : string) (p : nat) :
  strstr s sep = Some p -> strstr (s ++ x) sep = Some p.
Proof.
  revert p. induction s as [|c s IH]; intros p H.
  - pose proof (strstr_bound _ _ _ H) as B.
    assert (sep = "") as -> by (destruct sep; [reflexivity | simpl in B; lia]).
    rewrite strstr_unfold in H. simpl in H. injection H as <-.
    rewrite strstr_unfold. now destruct ("" ++ x).
  - pose proof (strstr_bound _ _ _ H) as B.
    rewrite strstr_unfold in H. rewrite strstr_unfold.
    destruct (String.prefix sep (String c s)) eqn:E.
    + rewrite prefix_append, E; [assumption|].
      now apply prefix_length.
    + destruct (strstr s sep) as [q|] eqn:Q; simpl in H; [|discriminate].
      injection H as <-.
      rewrite prefix_append, E by (simpl in *; lia).
      simpl. now rewrite (IH q eq_refl).
Qed.

(* ================================================================= *)
(** ** The wire decoder *)

(** A value without backslashes comes out of [libtwirc_unescape_tag]
    without its last character. *)
Lemma unescape_plain (s : string) (c : ascii) :
  plain s = true -> libtwirc_unescape_tag (s ++ String c "") = s.
Proof.
  induction s as [|a s IH]; intros P; [reflexivity|].
  simpl in P. apply andb_prop in P as [A P].
  apply negb_true_iff in A.
  destruct s as [|b s].
  - simpl. now rewrite A.
  - specialize (IH P).
    change (libtwirc_unescape_tag (String a (String b s ++ String c "")) =
            String a (String b s)).
    change (String b s ++ String c "") with (String b (s ++ String c "")) in *.
    cbn [libtwirc_unescape_tag]. rewrite A.
    cbn [libtwirc_unescape_tag] in IH. now rewrite IH.
Qed.

(** C1, on the value the specification gives as its example
    ([a\sb\:c\\d]): the three escapes are decoded, and the loop stops one
    character early, so the final [d] is missing from the decoded value,
    which is [a b;c\] and not [a b;c\d]. *)
Theorem unescape_tag_loses_last_character :
  libtwirc_unescape_tag "a\sb\:c\\d" = "a b;c\"
  /\ libtwirc_unescape_tag "a\sb\:c\\d" <> "a b;c\d".
Proof. split; [reflexivity | discriminate]. Qed.

(** When a space follows, the command is what stands before it. *)
Lemma parse_command_space (msg : string) (p : nat) :
  strstr msg " " = Some p ->
  libtwirc_parse_command msg = (Some (drop (S p) msg), take p msg).
Proof.
  intros H. unfold libtwirc_parse_command. rewrite H.
  now rewrite strndup_take.
Qed.

(** When no space follows, the command is the line without its last two
    characters. *)
Lemma parse_command_no_space (msg : string) :
  strstr msg " " = None ->
  2 <= strlen msg < TWIRC_MESSAGE_SIZE ->
  libtwirc_parse_command msg =
  (None, take (String.length msg - 2) msg).
Proof.
  intros H [L U]. unfold libtwirc_parse_command. rewrite H.
  unfold TWIRC_MESSAGE_SIZE in U.
  rewrite to_size_t_small by lia.
  unfold strndup.
  destruct (Z.leb_spec (strlen msg) (strlen msg - 2)); [lia|].
  unfold strlen. repeat f_equal. lia.
Qed.

(** C7, on a line whose command is its last token: the command is cut two
    characters short, [RECONNE] instead of the entire remainder
    [RECONNECT], also when the line is decoded as a whole. *)
Theorem parse_command_cuts_last_token :
  libtwirc_parse_command "RECONNECT" = (None, "RECONNE")
  /\ snd (libtwirc_parse_command "RECONNECT") <> "RECONNECT"
  /\ option_map command (decode ":tmi.twitch.tv RECONNECT") = Some "RECONNE".
Proof. split; [reflexivity | split; [discriminate | reflexivity]]. Qed.

(** The example of the specification decodes as it says. *)
Lemma decode_trailing_example :
  decode "PRIVMSG #chan :hello world" =
  Some (mk_event None None None "PRIVMSG" (Some ["#chan"; "hello world"]) 2 1
          None 0).
Proof. reflexivity. Qed.

(** C8, on three space-separated tokens none of which begins with a colon:
    the colon inside the third token starts the trailing parameter, the
    characters of that token before the colon are lost, and a trailing
    index is recorded although the section has no trailing parameter. *)
Theorem parse_params_colon_inside_token :
  libtwirc_parse_params (Some "#chan +b nick!user@2001:db8::1") =
  (Some ["#chan"; "+b"; "db8::1"], 3, 2)
  /\ libtwirc_parse_params (Some "#chan +b nick!user@2001:db8::1") <>
     (Some ["#chan"; "+b"; "nick!user@2001:db8::1"], 3, -1).
Proof. split; [reflexivity | discriminate]. Qed.

(* ================================================================= *)
(** ** The dispatcher *)

(** The numeric 001 adds [TWIRC_STATUS_AUTHENTICATED] to the status, and the
    welcome handler is called afterwards. *)
Lemma dispatch_welcome (w : world) (evt : twirc_event) :
  command evt = "001" ->
  let st := to_status (Z.lor (status (state w)) TWIRC_STATUS_AUTHENTICATED) in
  libtwirc_dispatch_evt evt w =
  Ok (0, evt)
     (mk_world (set_status (Z.lor (status (state w)) TWIRC_STATUS_AUTHENTICATED)
                  (state w))
        (inbox w) (trace w ++ [Invoked cb_welcome st (Some evt)])).
Proof.
  intros H. unfold libtwirc_dispatch_evt. rewrite H. reflexivity.
Qed.

(** Storing a flag into an eight-bit status that is in range loses
    nothing. *)
Lemma to_status_lor (s flag : Z) :
  - 2 ^ 7 <= s < 2 ^ 7 -> 0 <= flag < 2 ^ 7 ->
  to_status (Z.lor s flag) = Z.lor s flag.
Proof.
  intros S F.
  assert (forallb
            (fun a =>
               forallb
                 (fun b =>
                    to_status (Z.lor (Z.of_nat a - 128) (Z.of_nat b))
                    =? Z.lor (Z.of_nat a - 128) (Z.of_nat b))
                 (seq 0 128))
            (seq 0 256) = true) as H by (vm_compute; reflexivity).
  rewrite forallb_forall in H.
  specialize (H (Z.to_nat (s + 128))).
  rewrite in_seq, forallb_forall in H.
  assert (0 <= Z.to_nat (s + 128) < 0 + 256)%nat as Hs by lia.
  specialize (H Hs (Z.to_nat flag)).
  rewrite in_seq in H.
  assert (0 <= Z.to_nat flag < 0 + 128)%nat as Hf by lia.
  apply H, Z.eqb_eq in Hf.
  rewrite !Z2Nat.id in Hf by lia.
  now replace (s + 128 - 128) with s in Hf by lia.
Qed.

(** On the numeric 001 the status gains [TWIRC_STATUS_AUTHENTICATED] and
    keeps every flag it had. *)
Lemma welcome_adds_authenticated (w : world) (evt : twirc_event) :
  command evt = "001" ->
  - 2 ^ 7 <= status (state w) < 2 ^ 7 ->
  exists w',
    libtwirc_dispatch_evt evt w = Ok (0, evt) w'
    /\ status (state w') =
       Z.lor (status (state w)) TWIRC_STATUS_AUTHENTICATED.
Proof.
  intros C R. eexists. split; [now apply dispatch_welcome|].
  cbn [state status set_status]. apply to_status_lor; [exact R|].
  unfold TWIRC_STATUS_AUTHENTICATED. lia.
Qed.

(** C2, for every event whose command is [GLOBALUSERSTATE]: the dispatcher
    has no branch for it, returns [-1] and leaves status, trace and event as
    they were; [libtwirc_on_globaluserstate] is never called. *)
Theorem dispatch_ignores_globaluserstate
    (w : world) (pfx nk ch : option string) (ps : option (list string))
    (np tr : Z) (tg : option (list twirc_tag)) (nt : Z) :
  let evt := mk_event pfx nk ch "GLOBALUSERSTATE" ps np tr tg nt in
  libtwirc_dispatch_evt evt w = Ok (-1, evt) w.
Proof. reflexivity. Qed.

(** C10: a [PRIVMSG] event with fewer than two parameters falls through
    every branch of the dispatcher: the result is [-1], the event is
    returned as it came (no channel set), and the world is unchanged, so
    the trace gained neither a handler call nor a parameter read. *)
Theorem dispatch_privmsg_guard (w : world) (evt : twirc_event) :
  command evt = "PRIVMSG" ->
  num_params evt < 2 ->
  libtwirc_dispatch_evt evt w = Ok (-1, evt) w.
Proof.
  intros C N. unfold libtwirc_dispatch_evt. rewrite C.
  destruct (Z.leb_spec 2 (num_params evt)); [lia|].
  reflexivity.
Qed.

(* ================================================================= *)
(** ** The receive wrapper *)

(** C9: [twirc_recv] returns [0] when the receive failed with [EAGAIN] or
    [EWOULDBLOCK], [-1] when it failed with any other [errno], and the
    number of bytes when it delivered some (a number that fits the buffer
    and the [int] result). *)
Theorem twirc_recv_result :
  (forall len w e rest,
      inbox w = RecvError e :: rest ->
      e = EAGAIN \/ e = EWOULDBLOCK ->
      twirc_recv len w = Ok (0, "") (mk_world (state w) rest (trace w)))
  /\ (forall len w e rest,
      inbox w = RecvError e :: rest ->
      e <> EAGAIN -> e <> EWOULDBLOCK ->
      twirc_recv len w = Ok (-1, "") (mk_world (state w) rest (trace w)))
  /\ (forall len w d rest,
      inbox w = RecvData d :: rest ->
      strlen d <= len - 1 -> len - 1 <= INT_MAX ->
      twirc_recv len w =
      Ok (strlen d, d) (mk_world (state w) rest (trace w))).
Proof.
  unfold twirc_recv, stcpnb_receive, bind, ret.
  repeat split; intros len w.
  - intros e rest I E. rewrite I. simpl.
    destruct E as [-> | ->]; rewrite Z.eqb_refl; [reflexivity|].
    now rewrite orb_true_r.
  - intros e rest I E1 E2. rewrite I. simpl.
    apply Z.eqb_neq in E1, E2. now rewrite E1, E2.
  - intros d rest I L U. rewrite I.
    pose proof (strlen_nonneg d) as P. unfold INT_MAX in U.
    rewrite to_size_t_small by lia.
    destruct (Z.leb_spec (strlen d) (len - 1)); [|lia].
    destruct (Z.eqb_spec (strlen d) (-1)); [lia|].
    rewrite to_int_small by lia. reflexivity.
Qed.

(* ================================================================= *)
(** ** Frame facts *)


Section Respects.

Variable R : world -> world -> Prop.
Hypothesis R_refl : forall w, R w w.
Hypothesis R_trans : forall a b c, R a b -> R b c -> R a c.

Lemma respects_ret {A} (a : A) : respects R (ret a).
Proof. intros w b w' [= _ <-]. apply R_refl. Qed.

Lemma respects_crash {A} (f : fault) : respects R (@crash A f).
Proof. intros w b w' H. discriminate. Qed.

Lemma respects_get_state : respects R get_state.
Proof. intros w b w' [= _ <-]. apply R_refl. Qed.

Lemma respects_bind {A B} (m : M A) (k : A -> M B) :
  respects R m -> (forall a, respects R (k a)) -> respects R (bind m k).
Proof.
  intros Hm Hk w b w' H. unfold bind in H.
  destruct (m w) as [a w1|] eqn:E; [|discriminate].
  eapply R_trans; [eapply Hm | eapply Hk]; eassumption.
Qed.

Lemma respects_defined {A} (o : option A) : respects R (defined o).
Proof. destruct o; [apply respects_ret | apply respects_crash]. Qed.

End Respects.

Lemma processed_app (a b : list effect) :
  processed (a ++ b)%list = (processed a ++ processed b)%list.
Proof.
  induction a as [|e a IH]; [reflexivity|].
  destruct e; simpl; now rewrite IH.
Qed.

Lemma sent_app (a b : list effect) :
  sent (a ++ b)%list = (sent a ++ sent b)%list.
Proof.
  induction a as [|e a IH]; [reflexivity|].
  destruct e; simpl; now rewrite IH.
Qed.

Lemma calm_refl (w : world) : calm w w.
Proof.
  repeat split. exists []. now rewrite app_nil_r.
Qed.

Lemma calm_trans (a b c : world) : calm a b -> calm b c -> calm a c.
Proof.
  intros (B1 & I1 & L1 & S1 & d1 & T1 & P1) (B2 & I2 & L2 & S2 & d2 & T2 & P2).
  repeat split; try congruence.
  exists (d1 ++ d2)%list. split.
  - rewrite T2, T1. now rewrite <- List.app_assoc.
  - rewrite processed_app, P1, P2. reflexivity.
Qed.

Lemma land_1_mod (a : Z) : Z.land a 1 = a mod 2.
Proof. apply (Z.land_ones a 1). lia. Qed.

Lemma lor_keeps_bit0 (a b : Z) : b mod 2 = 0 -> Z.lor a b mod 2 = a mod 2.
Proof.
  intros H. rewrite <- !Z.bit0_mod in *.
  rewrite Z.lor_spec.
  destruct (Z.testbit b 0); [discriminate|].
  now rewrite orb_false_r.
Qed.

Lemma to_status_mod2 (z : Z) : to_status z mod 2 = z mod 2.
Proof.
  unfold to_status, wrap_signed.
  replace (8 - 1) with 7 by reflexivity.
  change (2 ^ 7) with 128. change (2 ^ 8) with 256.
  pose proof (Z.mod_eq (z + 128) 256 ltac:(lia)) as E.
  rewrite E.
  replace (z + 128 - 256 * ((z + 128) / 256) - 128)
    with (z + (- 128 * ((z + 128) / 256)) * 2) by lia.
  apply Z.mod_add. lia.
Qed.

(** Setting a status bit other than the lowest keeps the
    [TWIRC_STATUS_CONNECTING] bit. *)
Lemma set_flag_keeps_connecting (s flag : Z) :
  flag mod 2 = 0 ->
  Z.land (to_status (Z.lor s flag)) TWIRC_STATUS_CONNECTING =
  Z.land s TWIRC_STATUS_CONNECTING.
Proof.
  intros H. unfold TWIRC_STATUS_CONNECTING.
  rewrite !land_1_mod, to_status_mod2. now apply lor_keeps_bit0.
Qed.

Lemma calm_log (e : effect) : processed [e] = [] -> respects calm (log e).
Proof.
  intros P w a w' [= _ <-]. repeat split. now exists [e].
Qed.

Lemma calm_invoke (cb : callback) (evt : option twirc_event) :
  respects calm (invoke cb evt).
Proof.
  unfold invoke. apply respects_bind.
  - apply calm_trans.
  - apply respects_get_state, calm_refl.
  - intros s. now apply calm_log.
Qed.

Lemma calm_param_at (evt : twirc_event) (i : nat) :
  respects calm (param_at evt i).
Proof.
  unfold param_at. apply respects_bind.
  - apply calm_trans.
  - now apply calm_log.
  - intros _. destruct (params evt) as [ps|].
    + destruct (i <? List.length ps)%nat; [apply respects_ret, calm_refl|].
      destruct (i =? List.length ps)%nat;
        [apply respects_ret, calm_refl | apply respects_crash].
    + apply respects_crash.
Qed.

Lemma calm_send (msg : string) : respects calm (twirc_send msg).
Proof.
  intros w a w' [= _ <-]. repeat split.
  eexists. split; [reflexivity | reflexivity].
Qed.

Lemma calm_on_welcome (evt : twirc_event) :
  respects calm (libtwirc_on_welcome evt).
Proof.
  intros w a w' [= _ <-]. repeat split; simpl.
  - now apply set_flag_keeps_connecting.
  - exists []. now rewrite app_nil_r.
Qed.

Lemma calm_on_ping (evt : twirc_event) : respects calm (libtwirc_on_ping evt).
Proof.
  unfold libtwirc_on_ping. apply respects_bind.
  - apply calm_trans.
  - apply calm_param_at.
  - intros p. apply calm_send.
Qed.

Ltac calm_bind :=
  apply respects_bind; [apply calm_trans | | intros ?].

Ltac calm_done := apply respects_ret, calm_refl.

(** The dispatcher is calm. *)
Lemma calm_dispatch (evt : twirc_event) :
  respects calm (libtwirc_dispatch_evt evt).
Proof.
  unfold libtwirc_dispatch_evt.
  destruct (command evt =? "001")%string.
  { calm_bind; [apply calm_on_welcome|].
    calm_bind; [apply calm_invoke | calm_done]. }
  destruct (command evt =? "JOIN")%string.
  { calm_bind; [apply calm_param_at|].
    calm_bind; [apply calm_invoke | calm_done]. }
  destruct (command evt =? "PING")%string.
  { calm_bind; [apply calm_on_ping|].
    calm_bind; [apply calm_invoke | calm_done]. }
  destruct ((command evt =? "PRIVMSG")%string && (2 <=? num_params evt)).
  { calm_bind; [apply calm_param_at|].
    calm_bind; [apply calm_param_at|].
    destruct a0 as [text|]; [|apply respects_crash].
    calm_bind; [|calm_done].
    destruct (is_ctcp text); [calm_done | apply calm_invoke]. }
  destruct (command evt =? "CLEARCHAT")%string.
  { calm_bind; [calm_done|].
    calm_bind; [apply calm_invoke | calm_done]. }
  destruct (command evt =? "WHISPER")%string.
  { calm_bind; [calm_done|].
    calm_bind; [apply calm_invoke | calm_done]. }
  calm_done.
Qed.

(** [libtwirc_process_msg] records its line first and is calm afterwards. *)
Lemma process_msg_frame (msg : string) (w : world) (r : Z) (w' : world) :
  libtwirc_process_msg msg w = Ok r w' ->
  buffer (state w') = buffer (state w)
  /\ inbox w' = inbox w
  /\ login (state w') = login (state w)
  /\ Z.land (status (state w')) TWIRC_STATUS_CONNECTING =
     Z.land (status (state w)) TWIRC_STATUS_CONNECTING
  /\ exists d, trace w' = (trace w ++ Processing msg :: d)%list
            /\ processed d = [].
Proof.
  unfold libtwirc_process_msg. intros H.
  unfold bind at 1 in H. simpl in H.
  assert (respects calm
            (bind (defined (decode msg))
               (fun evt => bind (libtwirc_dispatch_evt evt)
                             (fun _ => ret 0)))) as C.
  { calm_bind; [apply respects_defined, calm_refl|].
    calm_bind; [apply calm_dispatch | calm_done]. }
  apply C in H. destruct H as (B & I & L & S & d & T & P).
  simpl in *. repeat split; try assumption.
  exists d. split; [|assumption].
  rewrite T. now rewrite <- List.app_assoc.
Qed.

Lemma steady_refl (w : world) : steady w w.
Proof. repeat split. exists []. now rewrite app_nil_r. Qed.

Lemma steady_trans (a b c : world) : steady a b -> steady b c -> steady a c.
Proof.
  intros (L1 & S1 & d1 & T1) (L2 & S2 & d2 & T2).
  repeat split; try congruence.
  exists (d1 ++ d2)%list. rewrite T2, T1. now rewrite <- List.app_assoc.
Qed.

Lemma calm_steady (w w' : world) : calm w w' -> steady w w'.
Proof.
  intros (_ & _ & L & S & d & T & _). repeat split; try assumption.
  now exists d.
Qed.

Ltac steady_bind :=
  apply respects_bind; [apply steady_trans | | intros ?].

Ltac steady_done := apply respects_ret, steady_refl.

Lemma steady_set_buffer (b : string) :
  respects steady (modify_state (set_buffer b)).
Proof.
  intros w a w' [= _ <-]. repeat split. exists []. now rewrite app_nil_r.
Qed.

Lemma steady_strcat_buffer (chunk : string) :
  respects steady (strcat_buffer chunk).
Proof.
  unfold strcat_buffer. steady_bind.
  - apply respects_get_state, steady_refl.
  - destruct (_ <=? _); [apply steady_set_buffer | apply respects_crash].
Qed.

Lemma steady_process_msg (msg : string) :
  respects steady (libtwirc_process_msg msg).
Proof.
  intros w a w' H. apply process_msg_frame in H.
  destruct H as (_ & _ & L & S & d & T & _).
  repeat split; try assumption. eexists. eassumption.
Qed.

Lemma steady_chunk_loop (fuel : nat) (buf : string) (len : Z) :
  forall chunk off, respects steady (chunk_loop fuel buf len chunk off).
Proof.
  induction fuel as [|fuel IH]; intros chunk off; simpl.
  - apply respects_crash.
  - destruct (libtwirc_next_chunk _ _ _ _ _) as [r chunk'].
    destruct (0 <? to_int r); [|steady_done].
    steady_bind; [apply steady_strcat_buffer | apply IH].
Qed.

Lemma steady_token_loop (fuel : nat) :
  forall msg, respects steady (token_loop fuel msg).
Proof.
  induction fuel as [|fuel IH]; intros msg; simpl.
  - apply respects_crash.
  - steady_bind; [apply respects_get_state, steady_refl|].
    destruct (libtwirc_shift_token _ _ _) as [[tok_len msg'] buffer'].
    destruct (TWIRC_MESSAGE_SIZE <=? tok_len); [apply respects_crash|].
    steady_bind; [apply steady_set_buffer|].
    destruct (0 <? tok_len); [|steady_done].
    steady_bind; [apply steady_process_msg | apply IH].
Qed.

Lemma steady_process_data (buf : string) (len : Z) :
  respects steady (libtwirc_process_data buf len).
Proof.
  unfold libtwirc_process_data.
  steady_bind; [apply steady_chunk_loop|].
  steady_bind; [apply respects_get_state, steady_refl|].
  steady_bind; [apply steady_token_loop | steady_done].
Qed.

Lemma steady_recv (len : Z) : respects steady (twirc_recv len).
Proof.
  unfold twirc_recv. steady_bind.
  - intros w a w' H. unfold stcpnb_receive in H.
    destruct (inbox w) as [|[d|e] rest].
    + injection H as _ <-. apply steady_refl.
    + destruct (strlen d <=? _); [|discriminate].
      injection H as _ <-. repeat split. exists []. now rewrite app_nil_r.
    + injection H as _ <-. repeat split. exists []. now rewrite app_nil_r.
  - destruct a as [[res_len errno] buf].
    destruct (res_len =? -1); [|steady_done].
    destruct ((errno =? EAGAIN) || (errno =? EWOULDBLOCK)); steady_done.
Qed.

Lemma steady_recv_loop (fuel : nat) : respects steady (recv_loop fuel).
Proof.
  induction fuel as [|fuel IH]; simpl.
  - apply respects_crash.
  - steady_bind; [apply steady_recv|].
    destruct a as [bytes_received buf].
    destruct (0 <? bytes_received); [|steady_done].
    steady_bind; [apply steady_process_data | apply IH].
Qed.

Lemma steady_handle_readable (events : Z) :
  respects steady (handle_readable events).
Proof.
  unfold handle_readable.
  destruct (Z.land events EPOLLIN =? 0); [steady_done|].
  intros w a w' H. eapply steady_recv_loop. eassumption.
Qed.

(* ================================================================= *)
(** ** The handshake *)

Lemma bind_ok {A B} (m : M A) (k : A -> M B) (w : world) (a : A) (w1 : world) :
  m w = Ok a w1 -> bind m k w = k a w1.
Proof. intros H. unfold bind. now rewrite H. Qed.

Lemma capreq_run (w : world) :
  exists r1 r2 r3,
    twirc_capreq w =
    Ok 0 (mk_world (state w) (inbox w)
            (trace w ++ [Sent cap_tags_line r1; Sent cap_membership_line r2;
                         Sent cap_commands_line r3])).
Proof.
  do 3 eexists.
  unfold twirc_capreq, twirc_cmd_req_tags, twirc_cmd_req_membership,
    twirc_cmd_req_commands, twirc_send, bind, ret.
  cbn [state inbox trace].
  rewrite <- !List.app_assoc. reflexivity.
Qed.

Lemma auth_run (w : world) :
  exists rp rn r,
    twirc_auth w =
    Ok r (mk_world (state w) (inbox w)
            (trace w ++ [Sent (pass_line (login (state w))) rp]
                     ++ (if rp =? -1 then []
                         else [Sent (nick_line (login (state w))) rn]))).
Proof.
  unfold twirc_auth, twirc_cmd_pass, twirc_cmd_nick, twirc_send, bind, ret,
    get_state.
  cbn [state inbox trace].
  fold (pass_line (login (state w))). fold (nick_line (login (state w))).
  set (rp := stcpnb_send (trace w) (pass_line (login (state w)))).
  exists rp.
  destruct (rp =? -1) eqn:E.
  - exists 0, (-1). reflexivity.
  - cbn [state inbox trace].
    set (rn := stcpnb_send _ (nick_line (login (state w)))).
    exists rn.
    destruct (rn =? -1); eexists; rewrite <- List.app_assoc; reflexivity.
Qed.

Lemma on_connect_run (w : world) :
  Z.land (status (state w)) TWIRC_STATUS_AUTHENTICATING = 0 ->
  Z.land (status (state w)) TWIRC_STATUS_AUTHENTICATED = 0 ->
  exists r1 r2 r3 rp rn,
    libtwirc_on_connect w =
    Ok 0
      (mk_world
         (set_status
            (Z.lor (status (state w)) TWIRC_STATUS_AUTHENTICATING) (state w))
         (inbox w)
         (trace w
          ++ [Sent cap_tags_line r1; Sent cap_membership_line r2;
              Sent cap_commands_line r3;
              Sent (pass_line (login (state w))) rp]
          ++ (if rp =? -1 then []
              else [Sent (nick_line (login (state w))) rn]))).
Proof.
  intros A B.
  destruct (capreq_run w) as (r1 & r2 & r3 & C).
  match type of C with _ = Ok _ ?w1 =>
    destruct (auth_run w1) as (rp & rn & r & Au) end.
  cbn [state inbox trace] in Au.
  exists r1, r2, r3, rp, rn.
  unfold libtwirc_on_connect.
  unfold bind at 1. unfold get_state at 1.
  rewrite A, B. cbn [Z.eqb negb].
  rewrite (bind_ok _ _ _ _ _ C), (bind_ok _ _ _ _ _ Au).
  unfold bind, get_state, modify_state, ret. cbn [state inbox trace].
  rewrite <- List.app_assoc. reflexivity.
Qed.

(** The [EPOLLOUT] branch while connecting: the status is overwritten with
    [TWIRC_STATUS_CONNECTED], the handshake is sent,
    [TWIRC_STATUS_AUTHENTICATING] is added and the connect handler is
    called. *)
Lemma handle_writable_run (events : Z) (w : world) :
  Z.land events EPOLLOUT <> 0 ->
  Z.land (status (state w)) TWIRC_STATUS_CONNECTING <> 0 ->
  exists r1 r2 r3 rp rn,
    handle_writable events w =
    Ok tt
      (mk_world
         (set_status
            (Z.lor TWIRC_STATUS_CONNECTED TWIRC_STATUS_AUTHENTICATING)
            (state w))
         (inbox w)
         (trace w
          ++ [Sent cap_tags_line r1; Sent cap_membership_line r2;
              Sent cap_commands_line r3;
              Sent (pass_line (login (state w))) rp]
          ++ (if rp =? -1 then []
              else [Sent (nick_line (login (state w))) rn])
          ++ [Invoked cb_connect
                (Z.lor TWIRC_STATUS_CONNECTED TWIRC_STATUS_AUTHENTICATING)
                None])).
Proof.
  intros O C. apply Z.eqb_neq in O, C.
  pose (w1 := mk_world (set_status TWIRC_STATUS_CONNECTED (state w))
                (inbox w) (trace w)).
  destruct (on_connect_run w1) as (r1 & r2 & r3 & rp & rn & Oc);
    [reflexivity | reflexivity |].
  exists r1, r2, r3, rp, rn.
  unfold handle_writable. rewrite O.
  unfold bind at 1. unfold get_state at 1. rewrite C.
  unfold bind at 1. unfold modify_state at 1. fold w1.
  rewrite (bind_ok _ _ _ _ _ Oc).
  unfold invoke, bind, get_state, log, w1. cbn [state inbox trace].
  rewrite <- !List.app_assoc. reflexivity.
Qed.

Lemma handle_writable_idle (events : Z) (w : world) :
  Z.land events EPOLLOUT = 0 -> handle_writable events w = Ok tt w.
Proof. intros O. unfold handle_writable. now rewrite O. Qed.

(** A writable notification on a state without the connecting flag does
    nothing. *)
Lemma handle_writable_not_connecting (events : Z) (w : world) :
  Z.land (status (state w)) TWIRC_STATUS_CONNECTING = 0 ->
  handle_writable events w = Ok tt w.
Proof.
  intros C. unfold handle_writable.
  destruct (Z.land events EPOLLOUT =? 0); [reflexivity|].
  unfold bind, get_state. now rewrite C.
Qed.

Lemma handle_readable_idle (events : Z) (w : world) :
  Z.land events EPOLLIN = 0 -> handle_readable events w = Ok tt w.
Proof. intros O. unfold handle_readable. now rewrite O. Qed.

(** The three hang-up tests that end [libtwirc_handle_event]. *)
Lemma hang_up_tail (events : Z) (w : world) :
  (if negb (Z.land events EPOLLRDHUP =? 0) then hang_up
   else if negb (Z.land events EPOLLHUP =? 0) then hang_up
   else if negb (Z.land events EPOLLERR =? 0) then hang_up
   else ret 0) w =
  if hangs_up events
  then Ok (-1)
         (mk_world
            (set_running 0 (set_status TWIRC_STATUS_DISCONNECTED (state w)))
            (inbox w) (trace w))
  else Ok 0 w.
Proof.
  unfold hangs_up.
  destruct (Z.land events EPOLLRDHUP =? 0);
    destruct (Z.land events EPOLLHUP =? 0);
    destruct (Z.land events EPOLLERR =? 0); reflexivity.
Qed.

(** C3, as amended: on a writable notification while the status has the
    connecting flag, [libtwirc_handle_event] first works through whatever
    the same notification made readable, then hands the three capability
    requests and the password line to the socket, in this order, then the
    nickname line unless the password send returned [-1], and then calls the
    connect handler, which sees the status connected-and-authenticating;
    nothing is processed after the first of these sends.  The status is
    still connected-and-authenticating on return unless the notification
    also carries a hang-up or error flag.  Without readable input the call
    always returns. *)
Theorem handshake_on_first_writable (events : Z) (w : world) :
  Z.land (status (state w)) TWIRC_STATUS_CONNECTING <> 0 ->
  Z.land events EPOLLOUT <> 0 ->
  (Z.land events EPOLLIN = 0 ->
   exists r w', libtwirc_handle_event events w = Ok r w')
  /\ (forall r w',
      libtwirc_handle_event events w = Ok r w' ->
      exists t_in r1 r2 r3 rp rn,
        trace w' =
        (trace w ++ t_in
         ++ [Sent cap_tags_line r1; Sent cap_membership_line r2;
             Sent cap_commands_line r3;
             Sent (pass_line (login (state w))) rp]
         ++ (if rp =? -1 then []
             else [Sent (nick_line (login (state w))) rn])
         ++ [Invoked cb_connect
               (Z.lor TWIRC_STATUS_CONNECTED TWIRC_STATUS_AUTHENTICATING)
               None])%list
        /\ (Z.land events EPOLLIN = 0 -> t_in = [])
        /\ status (state w') =
           if hangs_up events then TWIRC_STATUS_DISCONNECTED
           else Z.lor TWIRC_STATUS_CONNECTED TWIRC_STATUS_AUTHENTICATING).
Proof.
  intros C O. split.
  - intros I.
    destruct (handle_writable_run events w O C)
      as (r1 & r2 & r3 & rp & rn & W).
    unfold libtwirc_handle_event.
    rewrite (bind_ok _ _ _ _ _ (handle_readable_idle events w I)).
    rewrite (bind_ok _ _ _ _ _ W), hang_up_tail.
    destruct (hangs_up events); eauto.
  - intros r w' H. unfold libtwirc_handle_event in H.
    unfold bind at 1 in H.
    destruct (handle_readable events w) as [u w1|] eqn:R; [|discriminate].
    pose proof (steady_handle_readable events w u w1 R) as (L & S & d & T).
    assert (Z.land (status (state w1)) TWIRC_STATUS_CONNECTING <> 0) as C1
      by now rewrite S.
    destruct (handle_writable_run events w1 O C1)
      as (r1 & r2 & r3 & rp & rn & W).
    rewrite (bind_ok _ _ _ _ _ W), hang_up_tail in H.
    exists d, r1, r2, r3, rp, rn.
    rewrite L, T in H.
    assert (Z.land events EPOLLIN = 0 -> d = []) as D.
    { intros I. rewrite handle_readable_idle in R by assumption.
      injection R as _ E. rewrite <- E in T.
      apply (app_inv_head (trace w)). now rewrite app_nil_r. }
    destruct (hangs_up events); injection H as _ <-;
      cbn [state inbox trace status set_status set_running];
      (split; [now rewrite <- !List.app_assoc | split; [exact D | reflexivity]]).
Qed.

(* ================================================================= *)
(** ** The reassembler *)

Lemma prefix_cons (a : ascii) (s1 : string) (b : ascii) (s2 : string) :
  String.prefix (String a s1) (String b s2) =
  if ascii_dec a b then String.prefix s1 s2 else false.
Proof. reflexivity. Qed.

Lemma prefix_nil (s : string) : String.prefix "" s = true.
Proof. now destruct s. Qed.

Lemma prefix_CRLF (c d : ascii) (r : string) :
  String.prefix CRLF (String c (String d r)) =
  Ascii.eqb c CR && Ascii.eqb d LF.
Proof.
  unfold CRLF. rewrite !prefix_cons, prefix_nil.
  destruct (Ascii.eqb_spec c CR) as [->|N1];
    destruct (Ascii.eqb_spec d LF) as [->|N2];
    repeat match goal with
           | |- context [ascii_dec ?x ?y] => destruct (ascii_dec x y)
           end;
    cbn [andb]; first [reflexivity | congruence].
Qed.

Lemma lines_from_unfold (cur : string) (c d : ascii) (r : string) :
  lines_from cur (String c (String d r)) =
  if Ascii.eqb c CR && Ascii.eqb d LF
  then cur :: lines_from "" r
  else lines_from (cur ++ String c "") (String d r).
Proof. reflexivity. Qed.

(** [strstr] and the reference splitting agree on where the first line
    ends. *)
Lemma lines_from_strstr (s : string) :
  forall cur,
    match strstr s CRLF with
    | None => lines_from cur s = []
    | Some p =>
        lines_from cur s =
        (cur ++ take p s) :: lines_from "" (drop (p + 2) s)
    end.
Proof.
  induction s as [|c r IH]; intros cur; [reflexivity|].
  rewrite strstr_unfold.
  destruct r as [|d r'].
  - unfold CRLF. rewrite prefix_cons.
    destruct (ascii_dec CR c); reflexivity.
  - rewrite prefix_CRLF, lines_from_unfold.
    destruct (Ascii.eqb c CR && Ascii.eqb d LF).
    + simpl. now rewrite append_nil_r.
    + specialize (IH (cur ++ String c "")).
      destruct (strstr (String d r') CRLF) as [q|]; simpl option_map; cbv iota.
      * rewrite IH. rewrite append_assoc. reflexivity.
      * exact IH.
Qed.

Lemma nonempty_take (p : nat) (s : string) :
  (p <= String.length s)%nat ->
  nonempty (take p s) = negb (p =? 0)%nat.
Proof.
  intros H. destruct p as [|p]; [reflexivity|].
  destruct s as [|c s]; [simpl in H; lia | reflexivity].
Qed.

Lemma pending_none (s : string) : strstr s CRLF = None -> pending s = [].
Proof.
  intros H. unfold pending, complete_lines.
  pose proof (lines_from_strstr s "") as L. rewrite H in L. now rewrite L.
Qed.

Lemma pending_some (s : string) (p : nat) :
  strstr s CRLF = Some p ->
  pending s =
  ((if (p =? 0)%nat then [] else [take p s]) ++ pending (drop (p + 2) s))%list.
Proof.
  intros H. unfold pending, complete_lines.
  pose proof (lines_from_strstr s "") as L. rewrite H in L. rewrite L.
  apply strstr_bound in H.
  simpl. rewrite nonempty_take by lia.
  now destruct (p =? 0)%nat.
Qed.

Lemma shift_token_none (dest src : string) :
  strstr src CRLF = None ->
  libtwirc_shift_token dest src CRLF = (0, dest, src).
Proof. intros H. unfold libtwirc_shift_token. now rewrite H. Qed.

Lemma shift_token_some (dest src : string) (p : nat) :
  strstr src CRLF = Some p ->
  strlen src < 2 * TWIRC_MESSAGE_SIZE ->
  libtwirc_shift_token dest src CRLF =
  (Z.of_nat p, take p src, drop (p + 2) src).
Proof.
  intros H B. unfold libtwirc_shift_token. rewrite H.
  apply strstr_bound in H. simpl in H.
  unfold strlen, TWIRC_MESSAGE_SIZE in *.
  rewrite length_drop. simpl (String.length CRLF).
  rewrite to_size_t_small by lia.
  rewrite (take_all _ (drop (p + 2) src)); [reflexivity|].
  rewrite length_drop. lia.
Qed.

(** The second loop of [libtwirc_process_data]: the lines it processes are,
    in order, the first pending lines of the backlog, whatever is appended
    to the backlog later. *)
Lemma token_loop_spec (fuel : nat) :
  forall msg w w',
    backlog_fits w ->
    token_loop fuel msg w = Ok tt w' ->
    backlog_fits w'
    /\ inbox w' = inbox w
    /\ exists d,
        trace w' = (trace w ++ d)%list
        /\ forall x,
            pending (buffer (state w) ++ x) =
            (processed d ++ pending (buffer (state w') ++ x))%list.
Proof.
  induction fuel as [|fuel IH]; intros msg w w' F H; [discriminate|].
  cbn [token_loop] in H. unfold bind at 1 in H. unfold get_state at 1 in H.
  destruct (strstr (buffer (state w)) CRLF) as [p|] eqn:S.
  - rewrite (shift_token_some _ _ _ S F) in H.
    pose proof (strstr_bound _ _ _ S) as B. simpl in B.
    destruct (TWIRC_MESSAGE_SIZE <=? Z.of_nat p); [discriminate|].
    unfold bind at 1 in H. unfold modify_state at 1 in H.
    set (w1 := mk_world _ _ _) in H.
    assert (backlog_fits w1) as F1.
    { unfold backlog_fits, w1, strlen in *. cbn [state buffer set_buffer].
      rewrite length_drop. lia. }
    assert (forall x,
               pending (buffer (state w) ++ x) =
               ((if (p =? 0)%nat then [] else [take p (buffer (state w))])
                ++ pending (buffer (state w1) ++ x))%list) as P.
    { intros x. rewrite (pending_some _ p) by now apply strstr_append.
      rewrite take_append, drop_append by lia. reflexivity. }
    destruct (Z.ltb_spec 0 (Z.of_nat p)) as [Pos|Zero].
    + unfold bind at 1 in H.
      destruct (libtwirc_process_msg _ w1) as [r w2|] eqn:E; [|discriminate].
      apply process_msg_frame in E.
      destruct E as (B2 & I2 & _ & _ & d2 & T2 & P2).
      assert (backlog_fits w2) as F2
        by (unfold backlog_fits in *; now rewrite B2).
      destruct (IH _ _ _ F2 H) as (F' & I' & d & T & Q).
      split; [assumption|]. split; [now rewrite I', I2|].
      exists (Processing (take p (buffer (state w))) :: d2 ++ d)%list.
      split.
      * rewrite T, T2. cbn [trace w1].
        rewrite <- List.app_assoc. reflexivity.
      * intros x. rewrite P.
        destruct (Nat.eqb_spec p 0); [lia|].
        cbn [processed]. rewrite processed_app, P2.
        rewrite <- B2, Q. reflexivity.
    + injection H as <-.
      split; [assumption|]. split; [reflexivity|].
      exists []. split; [now rewrite app_nil_r|].
      intros x. rewrite P.
      destruct (Nat.eqb_spec p 0); [reflexivity | lia].
  - rewrite (shift_token_none _ _ S) in H.
    change (TWIRC_MESSAGE_SIZE <=? 0) with false in H.
    change (0 <? 0) with false in H. cbv iota in H.
    unfold bind, modify_state, ret in H. injection H as <-.
    split; [exact F|]. split; [reflexivity|].
    exists []. split; [now rewrite app_nil_r | reflexivity].
Qed.

Lemma length_until_nul (s : string) :
  (String.length (until_nul s) <= String.length s)%nat.
Proof.
  induction s as [|c s IH]; simpl; [lia|].
  destruct (Ascii.eqb c NUL); simpl; lia.
Qed.

(** Stripping the [NUL]s is taking the first chunk and stripping what
    follows its terminator. *)
Lemma strip_nul_chunk (t : string) :
  strip_nul t =
  until_nul t ++ strip_nul (drop (S (String.length (until_nul t))) t).
Proof.
  induction t as [|c t IH]; [reflexivity|].
  cbn [strip_nul until_nul].
  destruct (Ascii.eqb c NUL); [reflexivity|].
  rewrite IH at 1. reflexivity.
Qed.

Lemma strip_nul_append (a b : string) :
  strip_nul (a ++ b) = strip_nul a ++ strip_nul b.
Proof.
  induction a as [|c a IH]; [reflexivity|].
  simpl. destruct (Ascii.eqb c NUL); simpl; now rewrite IH.
Qed.

(** [libtwirc_next_chunk] as [libtwirc_process_data] calls it. *)
Lemma next_chunk_spec (chunk buf : string) (len off : Z) :
  0 <= off <= len -> len <= INT_MAX ->
  libtwirc_next_chunk chunk (to_size_t (len + 1)) buf len (to_size_t off) =
  if off =? len then (to_size_t (-1), chunk)
  else
    let t := take (Z.to_nat (len - off)) (drop (Z.to_nat off) buf) in
    (Z.min len (off + strlen (until_nul t) + 1), until_nul t).
Proof.
  intros O L. unfold INT_MAX in L. unfold libtwirc_next_chunk.
  rewrite (to_size_t_small off), (to_size_t_small (len - off)),
    (to_size_t_small (len + 1)) by lia.
  destruct (Z.eqb_spec off len) as [->|N].
  - rewrite Z.sub_diag. reflexivity.
  - destruct (Z.leb_spec (len - off) 0); [lia|].
    destruct (Z.ltb_spec (len + 1) (len - off)); [lia|].
    cbv zeta.
    set (t := take (Z.to_nat (len - off)) (drop (Z.to_nat off) buf)).
    pose proof (length_until_nul t) as U.
    assert (String.length t <= Z.to_nat (len - off))%nat as T
      by (unfold t; rewrite length_take; lia).
    unfold strlen.
    destruct (Z.eqb_spec (Z.of_nat (String.length (until_nul t))) (len + 1));
      [lia|].
    rewrite to_size_t_small by lia.
    destruct (Z.leb_spec len (off + Z.of_nat (String.length (until_nul t)) + 1)).
    + now rewrite Z.min_l by lia.
    + now rewrite Z.min_r by lia.
Qed.

(** The first loop of [libtwirc_process_data] appends the bytes from [off]
    on, without their [NUL]s, to the backlog and touches nothing else. *)
Lemma chunk_loop_spec (fuel : nat) (buf : string) (len : Z) :
  len <= INT_MAX ->
  forall chunk off w w',
    0 <= off <= len ->
    chunk_loop fuel buf len chunk off w = Ok tt w' ->
    buffer (state w') =
      buffer (state w)
      ++ strip_nul (take (Z.to_nat (len - off)) (drop (Z.to_nat off) buf))
    /\ inbox w' = inbox w
    /\ trace w' = trace w
    /\ (backlog_fits w -> backlog_fits w').
Proof.
  intros L. induction fuel as [|fuel IH]; intros chunk off w w' O H;
    [discriminate|].
  cbn [chunk_loop] in H. rewrite next_chunk_spec in H by assumption.
  destruct (Z.eqb_spec off len) as [->|N].
  - change (to_int (to_size_t (-1))) with (-1) in H.
    change (0 <? -1) with false in H. injection H as <-.
    rewrite Z.sub_diag. cbn [Z.to_nat take strip_nul].
    now rewrite append_nil_r.
  - cbv beta iota zeta in H.
    set (t := take (Z.to_nat (len - off)) (drop (Z.to_nat off) buf)) in *.
    pose proof (length_until_nul t) as U.
    assert (String.length t <= Z.to_nat (len - off))%nat as T
      by (unfold t; rewrite length_take; lia).
    set (off' := Z.min len (off + strlen (until_nul t) + 1)) in *.
    assert (off < off' <= len) as O' by (unfold off', strlen; lia).
    unfold INT_MAX in L.
    rewrite to_int_small in H by lia.
    destruct (Z.ltb_spec 0 off'); [|lia].
    unfold bind at 1 in H. unfold strcat_buffer, bind, get_state in H.
    destruct (_ <=? 2 * TWIRC_MESSAGE_SIZE) eqn:C in H; [|discriminate].
    unfold modify_state in H.
    set (w1 := mk_world _ _ _) in H.
    assert (0 <= off' <= len) as O'' by lia.
    destruct (IH _ _ _ _ O'' H) as (B & In & Tr & Fi).
    split; [|split; [exact In | split; [exact Tr|]]].
    + rewrite B. cbn [w1 state buffer set_buffer].
      rewrite append_assoc. f_equal.
      rewrite (strip_nul_chunk t). f_equal. f_equal.
      unfold t at 2. rewrite drop_take, drop_drop.
      unfold off', strlen.
      destruct (Z.leb_spec len
                  (off + Z.of_nat (String.length (until_nul t)) + 1)).
      * rewrite Z.min_l by lia. rewrite Z.sub_diag. cbn [Z.to_nat take].
        replace (Z.to_nat (len - off) - S (String.length (until_nul t)))%nat
          with 0%nat by lia.
        reflexivity.
      * rewrite Z.min_r by lia. f_equal; [lia|]. f_equal. lia.
    + intros _. apply Fi. unfold backlog_fits.
      cbn [w1 state buffer set_buffer].
      apply Z.leb_le in C. rewrite strlen_append. lia.
Qed.

(** One call of [libtwirc_process_data]: the lines it processes are, in
    order, the first pending lines of the backlog extended by the new bytes
    (without their [NUL]s), whatever arrives later. *)
Lemma process_data_spec (buf : string) (len : Z) (w : world) (r : Z)
    (w' : world) :
  backlog_fits w ->
  0 <= len <= INT_MAX ->
  libtwirc_process_data buf len w = Ok r w' ->
  backlog_fits w'
  /\ inbox w' = inbox w
  /\ exists d,
      trace w' = (trace w ++ d)%list
      /\ forall x,
          pending (buffer (state w)
                   ++ strip_nul (take (Z.to_nat len) buf) ++ x) =
          (processed d ++ pending (buffer (state w') ++ x))%list.
Proof.
  intros F L H. unfold libtwirc_process_data in H.
  unfold bind at 1 in H.
  destruct (chunk_loop _ _ _ _ _ w) as [[] w1|] eqn:C; [|discriminate].
  apply chunk_loop_spec in C; [|lia|lia].
  destruct C as (B1 & I1 & T1 & F1). specialize (F1 F).
  rewrite Z.sub_0_r in B1. cbn [Z.to_nat drop] in B1.
  unfold bind at 1 in H. unfold get_state at 1 in H.
  unfold bind at 1 in H.
  destruct (token_loop _ _ w1) as [[] w2|] eqn:T; [|discriminate].
  injection H as _ <-.
  apply token_loop_spec in T; [|assumption].
  destruct T as (F2 & I2 & d & T2 & P).
  split; [assumption|]. split; [congruence|].
  exists d. split; [congruence|].
  intros x. rewrite <- P, B1. now rewrite append_assoc.
Qed.

(** Any sequence of calls. *)
Lemma feed_spec (spans : list string) :
  forall w w',
    backlog_fits w ->
    Forall (fun d => strlen d <= INT_MAX) spans ->
    feed spans w = Ok tt w' ->
    backlog_fits w'
    /\ inbox w' = inbox w
    /\ exists d,
        trace w' = (trace w ++ d)%list
        /\ forall x,
            pending (buffer (state w) ++ strip_nul (stream spans) ++ x) =
            (processed d ++ pending (buffer (state w') ++ x))%list.
Proof.
  induction spans as [|s spans IH]; intros w w' F A H.
  - injection H as <-. split; [assumption|]. split; [reflexivity|].
    exists []. split; [now rewrite app_nil_r | reflexivity].
  - cbn [feed] in H. unfold bind at 1 in H.
    destruct (libtwirc_process_data _ _ w) as [r w1|] eqn:E; [|discriminate].
    inversion A as [|? ? L A']; subst.
    apply process_data_spec in E;
      [|assumption | pose proof (strlen_nonneg s); lia].
    destruct E as (F1 & I1 & d1 & T1 & P1).
    destruct (IH _ _ F1 A' H) as (F2 & I2 & d2 & T2 & P2).
    split; [assumption|]. split; [congruence|].
    exists (d1 ++ d2)%list. split.
    + rewrite T2, T1. now rewrite <- List.app_assoc.
    + intros x. cbn [stream].
      rewrite strip_nul_append, append_assoc.
      unfold strlen in P1. rewrite Nat2Z.id, take_all in P1 by lia.
      rewrite P1, P2, processed_app. now rewrite <- List.app_assoc.
Qed.

Lemma trace_peel (t x d : list effect) (e : effect) :
  x = (t ++ d)%list -> (x ++ [e])%list = (t ++ (d ++ [e]))%list.
Proof. intros ->. now rewrite <- List.app_assoc. Qed.

(** Evaluate a run on a world whose trace is a variable, name the world it
    ends in and what the trace gained. *)
Ltac run_feed :=
  match goal with
  | |- exists w' d, ?run = Ok tt w' /\ _ =>
      let v := eval vm_compute in run in
      let E := fresh "E" in
      assert (run = v) as E by (vm_compute; reflexivity);
      rewrite E; clear E
  end;
  do 2 eexists; split; [reflexivity|];
  cbn [state buffer trace];
  split;
  [ repeat (apply trace_peel); symmetry; apply app_nil_r
  | split; vm_compute; reflexivity ].

(** C4: from an empty backlog, the span [PI] yields nothing and stays in
    the backlog, and the span [NG :tmi.example] with its CR LF then yields
    exactly one message, [PING :tmi.example], leaving the backlog empty. *)
Theorem split_read_is_reassembled (w : world) :
  buffer (state w) = "" ->
  (exists w1,
      feed ["PI"] w = Ok tt w1
      /\ trace w1 = trace w /\ buffer (state w1) = "PI")
  /\ exists w2 d,
      feed ["PI"; "NG :tmi.example" ++ CRLF] w = Ok tt w2
      /\ trace w2 = (trace w ++ d)%list
      /\ processed d = ["PING :tmi.example"]
      /\ buffer (state w2) = "".
Proof.
  destruct w as [[st rn ip fd b lg ep] ib t]. cbn [state buffer].
  intros ->. split.
  - eexists. split; [vm_compute; reflexivity|]. split; reflexivity.
  - run_feed.
Qed.

(** However a byte stream is cut into spans, the lines that the calls of
    [libtwirc_process_data] process, followed by the non-empty lines still
    complete in the backlog, are the non-empty complete lines of the whole
    stream (behind what the backlog held before, [NUL]s taken out) in the
    order of their bytes: nothing is processed out of order or twice. *)
Lemma processed_then_pending (spans : list string) (w w' : world) :
  backlog_fits w ->
  Forall (fun d => strlen d <= INT_MAX) spans ->
  feed spans w = Ok tt w' ->
  exists d,
    trace w' = (trace w ++ d)%list
    /\ (processed d ++ pending (buffer (state w')))%list =
       pending (buffer (state w) ++ strip_nul (stream spans)).
Proof.
  intros F A H.
  destruct (feed_spec spans w w' F A H) as (_ & _ & d & T & P).
  exists d. split; [assumption|].
  specialize (P ""). now rewrite !append_nil_r in P.
Qed.

(** The single span [FOO CR LF BAR CR LF] fed into an empty backlog yields
    [FOO], then [BAR], and nothing else. *)
Lemma coalesced_read (w : world) :
  buffer (state w) = "" ->
  exists w' d,
    feed ["FOO" ++ CRLF ++ "BAR" ++ CRLF] w = Ok tt w'
    /\ trace w' = (trace w ++ d)%list
    /\ processed d = ["FOO"; "BAR"]
    /\ buffer (state w') = "".
Proof.
  destruct w as [[st rn ip fd b lg ep] ib t]. cbn [state buffer]. intros ->.
  run_feed.
Qed.

(** C5, on the stream [FOO CR LF CR LF BAR CR LF], whose complete messages
    are [FOO], the empty message and [BAR] in this order.  Fed into an
    empty backlog in one call it yields [FOO] only, and [BAR CR LF] stays in
    the backlog; fed as the two spans [FOO CR LF CR LF] and [BAR CR LF] it
    yields [FOO], then [BAR].  So the messages that are yielded depend on
    where the transport cut the stream, and the empty message is yielded
    under neither cut. *)
Theorem reassembly_depends_on_cut
    (st rn ip fd : Z) (lg : twirc_login) (ep : Z) (ib : list recv_outcome)
    (t : list effect) :
  let w := mk_world (mk_state st rn ip fd "" lg ep) ib t in
  let whole := ["FOO" ++ CRLF ++ CRLF ++ "BAR" ++ CRLF] in
  let cut := ["FOO" ++ CRLF ++ CRLF; "BAR" ++ CRLF] in
  stream whole = stream cut
  /\ complete_lines (stream whole) = ["FOO"; ""; "BAR"]
  /\ feed whole w =
     Ok tt
       (mk_world (mk_state st rn ip fd ("BAR" ++ CRLF) lg ep) ib
          (t ++ [Processing "FOO"]))
  /\ feed cut w =
     Ok tt
       (mk_world (mk_state st rn ip fd "" lg ep) ib
          ((t ++ [Processing "FOO"]) ++ [Processing "BAR"])).
Proof. repeat split. Qed.

(** Two fragmentations of one stream yield the same messages up to what is
    still pending in the backlog. *)
Corollary fragmentation_independent (spans1 spans2 : list string)
    (w w1 w2 : world) (d1 d2 : list effect) :
  backlog_fits w ->
  Forall (fun d => strlen d <= INT_MAX) spans1 ->
  Forall (fun d => strlen d <= INT_MAX) spans2 ->
  stream spans1 = stream spans2 ->
  feed spans1 w = Ok tt w1 -> trace w1 = (trace w ++ d1)%list ->
  feed spans2 w = Ok tt w2 -> trace w2 = (trace w ++ d2)%list ->
  (processed d1 ++ pending (buffer (state w1)))%list =
  (processed d2 ++ pending (buffer (state w2)))%list.
Proof.
  intros F A1 A2 S H1 T1 H2 T2.
  destruct (feed_spec _ _ _ F A1 H1) as (_ & _ & e1 & U1 & P1).
  destruct (feed_spec _ _ _ F A2 H2) as (_ & _ & e2 & U2 & P2).
  rewrite U1 in T1. apply app_inv_head in T1. subst e1.
  rewrite U2 in T2. apply app_inv_head in T2. subst e2.
  specialize (P1 ""). specialize (P2 "").
  rewrite !append_nil_r in P1, P2. now rewrite <- P1, <- P2, S.
Qed.

Lemma complete_lines_none (s : string) :
  strstr s CRLF = None -> complete_lines s = [].
Proof.
  intros H. unfold complete_lines.
  pose proof (lines_from_strstr s "") as L. now rewrite H in L.
Qed.

Lemma complete_lines_some (s : string) (p : nat) :
  strstr s CRLF = Some p ->
  complete_lines s = take p s :: complete_lines (drop (p + 2) s).
Proof.
  intros H. unfold complete_lines.
  pose proof (lines_from_strstr s "") as L. now rewrite H in L.
Qed.

(** When no complete line of the backlog is empty, the second loop of
    [libtwirc_process_data] stops only once no CR LF is left. *)
Lemma token_loop_exhausts (fuel : nat) :
  forall msg w w',
    backlog_fits w ->
    forallb nonempty (complete_lines (buffer (state w))) = true ->
    token_loop fuel msg w = Ok tt w' ->
    strstr (buffer (state w')) CRLF = None.
Proof.
  induction fuel as [|fuel IH]; intros msg w w' F A H; [discriminate|].
  cbn [token_loop] in H. unfold bind at 1 in H. unfold get_state at 1 in H.
  destruct (strstr (buffer (state w)) CRLF) as [p|] eqn:E.
  - rewrite (shift_token_some _ _ _ E F) in H.
    pose proof (strstr_bound _ _ _ E) as B. simpl in B.
    rewrite (complete_lines_some _ _ E) in A. cbn [forallb] in A.
    apply andb_prop in A as [A1 A2].
    rewrite nonempty_take in A1 by lia.
    destruct (Nat.eqb_spec p 0) as [Z0|N]; [discriminate|].
    destruct (TWIRC_MESSAGE_SIZE <=? Z.of_nat p); [discriminate|].
    unfold bind at 1 in H. unfold modify_state at 1 in H.
    set (w1 := mk_world _ _ _) in H.
    destruct (Z.ltb_spec 0 (Z.of_nat p)); [|lia].
    unfold bind at 1 in H.
    destruct (libtwirc_process_msg _ w1) as [r w2|] eqn:P; [|discriminate].
    apply process_msg_frame in P. destruct P as (B2 & _).
    eapply (IH _ w2 w'); [| |exact H].
    + unfold backlog_fits, strlen in *. rewrite B2.
      cbn [w1 state buffer set_buffer]. rewrite length_drop. lia.
    + rewrite B2. exact A2.
  - rewrite (shift_token_none _ _ E) in H.
    change (TWIRC_MESSAGE_SIZE <=? 0) with false in H.
    change (0 <? 0) with false in H. cbv iota in H.
    unfold bind, modify_state, ret in H. injection H as <-.
    exact E.
Qed.

Lemma filter_all {A} (f : A -> bool) (l : list A) :
  forallb f l = true -> filter f l = l.
Proof.
  induction l as [|a l IH]; [reflexivity|].
  simpl. intros H. apply andb_prop in H as [H1 H2].
  now rewrite H1, IH.
Qed.

(** X26: one pass of [libtwirc_process_data] over a backlog whose complete
    lines are all non-empty yields every one of them, in order, and leaves
    no CR LF behind in the backlog. *)
Lemma pass_yields_all_nonempty (buf : string) (len : Z) (w : world) (r : Z)
    (w' : world) :
  backlog_fits w ->
  0 <= len <= INT_MAX ->
  let backlog :=
    buffer (state w) ++ strip_nul (take (Z.to_nat len) buf) in
  forallb nonempty (complete_lines backlog) = true ->
  libtwirc_process_data buf len w = Ok r w' ->
  strstr (buffer (state w')) CRLF = None
  /\ exists d,
      trace w' = (trace w ++ d)%list
      /\ processed d = complete_lines backlog.
Proof.
  intros F L backlog A H.
  pose proof (process_data_spec _ _ _ _ _ F L H) as (_ & _ & d & T & P).
  unfold libtwirc_process_data in H. unfold bind at 1 in H.
  destruct (chunk_loop _ _ _ _ _ w) as [[] w1|] eqn:C; [|discriminate].
  apply chunk_loop_spec in C; [|lia|lia].
  destruct C as (B1 & _ & _ & F1). specialize (F1 F).
  rewrite Z.sub_0_r in B1. cbn [Z.to_nat drop] in B1.
  unfold bind at 1 in H. unfold get_state at 1 in H.
  unfold bind at 1 in H.
  destruct (token_loop _ _ w1) as [[] w2|] eqn:K; [|discriminate].
  injection H as _ <-.
  apply token_loop_exhausts in K; [|assumption | now rewrite B1].
  split; [exact K|].
  exists d. split; [exact T|].
  specialize (P ""). rewrite !append_nil_r in P.
  rewrite (pending_none _ K), app_nil_r in P.
  rewrite <- P. unfold pending. now apply filter_all.
Qed.

(** C6, on one read that carries [FOO], an empty line and [BAR], each ended
    by CR LF, into an empty backlog: the extraction loop takes the zero
    length of the empty line for the absence of a separator and stops, so
    the pass yields [FOO] only and the complete message [BAR] stays in the
    backlog. *)
Theorem empty_line_stops_extraction
    (st rn ip fd : Z) (lg : twirc_login) (ep : Z) (ib : list recv_outcome)
    (t : list effect) :
  feed ["FOO" ++ CRLF ++ CRLF ++ "BAR" ++ CRLF]
    (mk_world (mk_state st rn ip fd "" lg ep) ib t) =
  Ok tt
    (mk_world (mk_state st rn ip fd ("BAR" ++ CRLF) lg ep) ib
       (t ++ [Processing "FOO"])).
Proof. reflexivity. Qed.

(* ================================================================= *)
(** ** The loop bounds of the model are never hit *)

Lemma bounded_ret {A} (a : A) : bounded (ret a).
Proof. intros w. discriminate. Qed.

Lemma bounded_crash {A} (f : fault) : f <> OutOfFuel -> bounded (@crash A f).
Proof. intros N w [= E]. now apply N. Qed.

Lemma bounded_bind {A B} (m : M A) (k : A -> M B) :
  bounded m -> (forall a, bounded (k a)) -> bounded (bind m k).
Proof.
  intros Hm Hk w. unfold bind.
  destruct (m w) as [a w1|f] eqn:E; [apply Hk|].
  intros [= ->]. now apply (Hm w).
Qed.

Lemma bounded_defined {A} (o : option A) : bounded (defined o).
Proof. destruct o; [apply bounded_ret | now apply bounded_crash]. Qed.

Lemma bounded_get_state : bounded get_state.
Proof. intros w. discriminate. Qed.

Lemma bounded_modify_state (f : twirc_state -> twirc_state) :
  bounded (modify_state f).
Proof. intros w. discriminate. Qed.

Lemma bounded_log (e : effect) : bounded (log e).
Proof. intros w. discriminate. Qed.

Lemma bounded_send (msg : string) : bounded (twirc_send msg).
Proof. intros w. discriminate. Qed.

Lemma bounded_invoke (cb : callback) (evt : option twirc_event) :
  bounded (invoke cb evt).
Proof.
  apply bounded_bind; [apply bounded_get_state | intros s; apply bounded_log].
Qed.

Lemma bounded_param_at (evt : twirc_event) (i : nat) :
  bounded (param_at evt i).
Proof.
  unfold param_at. apply bounded_bind; [apply bounded_log | intros _].
  destruct (params evt) as [ps|]; [|now apply bounded_crash].
  destruct (i <? List.length ps)%nat; [apply bounded_ret|].
  destruct (i =? List.length ps)%nat;
    [apply bounded_ret | now apply bounded_crash].
Qed.

Ltac bounded_step :=
  first
    [ apply bounded_ret
    | apply bounded_get_state
    | apply bounded_modify_state
    | apply bounded_log
    | apply bounded_send
    | apply bounded_invoke
    | apply bounded_param_at
    | apply bounded_defined
    | apply bounded_crash; discriminate
    | apply bounded_bind; [ | intros ? ] ].

Lemma bounded_dispatch (evt : twirc_event) :
  bounded (libtwirc_dispatch_evt evt).
Proof.
  unfold libtwirc_dispatch_evt, libtwirc_on_welcome, libtwirc_on_ping,
    libtwirc_on_clearchat, libtwirc_on_whisper, twirc_cmd_pong.
  repeat match goal with
         | |- bounded (if ?c then _ else _) => destruct c
         | |- bounded (match ?o with Some _ => _ | None => _ end) =>
             destruct o
         | |- _ => bounded_step
         end.
Qed.

Lemma bounded_process_msg (msg : string) :
  bounded (libtwirc_process_msg msg).
Proof.
  unfold libtwirc_process_msg.
  repeat first [apply bounded_dispatch | bounded_step].
Qed.

Lemma bounded_strcat_buffer (chunk : string) : bounded (strcat_buffer chunk).
Proof.
  unfold strcat_buffer. apply bounded_bind; [apply bounded_get_state|].
  intros s. destruct (_ <=? _); bounded_step.
Qed.

Lemma bounded_chunk_loop (fuel : nat) (buf : string) (len : Z) :
  len <= INT_MAX ->
  forall chunk off,
    0 <= off <= len ->
    (Z.to_nat (len - off) < fuel)%nat ->
    bounded (chunk_loop fuel buf len chunk off).
Proof.
  intros L. induction fuel as [|fuel IH]; intros chunk off O F; [lia|].
  cbn [chunk_loop]. rewrite next_chunk_spec by assumption.
  destruct (Z.eqb_spec off len) as [->|N].
  - change (to_int (to_size_t (-1))) with (-1).
    change (0 <? -1) with false. apply bounded_ret.
  - cbv beta iota zeta.
    set (t := take (Z.to_nat (len - off)) (drop (Z.to_nat off) buf)).
    set (off' := Z.min len (off + strlen (until_nul t) + 1)).
    assert (off < off' <= len) as O' by (unfold off', strlen; lia).
    unfold INT_MAX in L. rewrite to_int_small by lia.
    destruct (Z.ltb_spec 0 off'); [|lia].
    apply bounded_bind; [apply bounded_strcat_buffer | intros _].
    apply IH; lia.
Qed.

Lemma bounded_token_loop (fuel : nat) :
  forall msg w,
    backlog_fits w ->
    (String.length (buffer (state w)) < fuel)%nat ->
    token_loop fuel msg w <> Crash OutOfFuel.
Proof.
  induction fuel as [|fuel IH]; intros msg w F L; [lia|].
  cbn [token_loop]. unfold bind at 1. unfold get_state at 1.
  destruct (strstr (buffer (state w)) CRLF) as [p|] eqn:S.
  - rewrite (shift_token_some _ _ _ S F).
    pose proof (strstr_bound _ _ _ S) as B. simpl in B.
    destruct (TWIRC_MESSAGE_SIZE <=? Z.of_nat p); [discriminate|].
    unfold bind at 1. unfold modify_state at 1.
    set (w1 := mk_world _ _ _).
    destruct (0 <? Z.of_nat p); [|discriminate].
    unfold bind at 1.
    destruct (libtwirc_process_msg _ w1) as [r w2|f] eqn:E.
    + apply process_msg_frame in E. destruct E as (B2 & _).
      apply IH.
      * unfold backlog_fits, strlen in *. rewrite B2.
        cbn [w1 state buffer set_buffer]. rewrite length_drop. lia.
      * rewrite B2. cbn [w1 state buffer set_buffer].
        rewrite length_drop. lia.
    + intros [= ->]. exact (bounded_process_msg _ w1 E).
  - rewrite (shift_token_none _ _ S). discriminate.
Qed.

Lemma bounded_process_data (buf : string) (len : Z) (w : world) :
  backlog_fits w ->
  0 <= len <= INT_MAX ->
  libtwirc_process_data buf len w <> Crash OutOfFuel.
Proof.
  intros F L. unfold libtwirc_process_data. unfold bind at 1.
  destruct (chunk_loop _ _ _ _ _ w) as [[] w1|f] eqn:C.
  - apply chunk_loop_spec in C; [|lia|lia].
    destruct C as (_ & _ & _ & F1). specialize (F1 F).
    unfold bind at 1. unfold get_state at 1. unfold bind at 1.
    destruct (token_loop _ _ w1) as [[] w2|f] eqn:T; [discriminate|].
    intros [= ->]. apply (bounded_token_loop _ _ _ F1 (Nat.lt_succ_diag_r _) T).
  - intros [= ->]. revert C. apply bounded_chunk_loop; lia.
Qed.

Lemma bounded_recv_loop (fuel : nat) :
  forall w,
    backlog_fits w ->
    (List.length (inbox w) < fuel)%nat ->
    recv_loop fuel w <> Crash OutOfFuel.
Proof.
  induction fuel as [|fuel IH]; intros w F L; [lia|].
  cbn [recv_loop]. unfold bind at 1, twirc_recv, bind at 1, stcpnb_receive.
  destruct (inbox w) as [|[d|e] rest] eqn:I.
  - change (-1 =? -1) with true. cbv iota beta.
    rewrite Z.eqb_refl. discriminate.
  - change (to_size_t (TWIRC_BUFFER_SIZE - 1)) with 2047.
    destruct (Z.leb_spec (strlen d) 2047); [|discriminate].
    pose proof (strlen_nonneg d) as P.
    destruct (Z.eqb_spec (strlen d) (-1)); [lia|].
    unfold ret at 1. rewrite to_int_small by lia.
    destruct (0 <? strlen d); [|discriminate].
    set (w1 := mk_world _ _ _).
    unfold bind at 1.
    destruct (libtwirc_process_data _ _ w1) as [r w2|f] eqn:E.
    + apply process_data_spec in E;
        [|exact F | rewrite to_size_t_small; unfold INT_MAX; lia].
      destruct E as (F2 & I2 & _).
      apply IH; [assumption|]. rewrite I2. cbn [w1 inbox].
      simpl in L. lia.
    + intros [= ->]. revert E.
      apply bounded_process_data;
        [exact F | rewrite to_size_t_small; unfold INT_MAX; lia].
  - change (-1 =? -1) with true. cbv iota beta.
    destruct ((e =? EAGAIN) || (e =? EWOULDBLOCK)); discriminate.
Qed.

(** X27: the loops of [libtwirc_handle_event] come to an end: the receive
    loop within one round per outcome of the receive script and one more,
    the chunk loop of [libtwirc_process_data] within one round per byte
    received and one more, its token loop within one round per character
    of the backlog and one more. *)
Lemma bounded_handle_event (events : Z) (w : world) :
  backlog_fits w ->
  libtwirc_handle_event events w <> Crash OutOfFuel.
Proof.
  intros F. unfold libtwirc_handle_event. unfold bind at 1.
  destruct (handle_readable events w) as [[] w1|f] eqn:R.
  - clear R.
    assert (bounded (bind (handle_writable events)
              (fun _ =>
                 if negb (Z.land events EPOLLRDHUP =? 0) then hang_up
                 else if negb (Z.land events EPOLLHUP =? 0) then hang_up
                 else if negb (Z.land events EPOLLERR =? 0) then hang_up
                 else ret 0))) as B; [|exact (B w1)].
    unfold handle_writable, hang_up, libtwirc_on_connect, twirc_capreq,
      twirc_auth, twirc_cmd_req_tags, twirc_cmd_req_membership,
      twirc_cmd_req_commands, twirc_cmd_pass, twirc_cmd_nick.
    repeat match goal with
           | |- bounded (if ?c then _ else _) => destruct c
           | |- _ => bounded_step
           end.
  - intros [= ->]. unfold handle_readable in R.
    destruct (Z.land events EPOLLIN =? 0); [discriminate|].
    revert R. apply bounded_recv_loop; [exact F | lia].
Qed.

(** Neither does a sequence of calls of [libtwirc_process_data]. *)
Lemma bounded_feed (spans : list string) :
  forall w,
    backlog_fits w ->
    Forall (fun d => strlen d <= INT_MAX) spans ->
    feed spans w <> Crash OutOfFuel.
Proof.
  induction spans as [|s spans IH]; intros w F A; [discriminate|].
  inversion A as [|? ? L A']; subst.
  pose proof (strlen_nonneg s) as P.
  cbn [feed]. unfold bind at 1.
  destruct (libtwirc_process_data _ _ w) as [r w1|f] eqn:E.
  - apply process_data_spec in E; [|assumption|lia].
    apply IH; [apply E | assumption].
  - intros [= ->]. revert E. apply bounded_process_data; [assumption|lia].
Qed.

(* ================================================================= *)
(** ** Searching and cutting strings *)






Lemma lacks_append (c : ascii) (a b : string) :
  lacks c (a ++ b) = lacks c a && lacks c b.
Proof.
  induction a as [|x a IH]; [reflexivity|].
  cbn [append lacks]. rewrite IH. apply andb_assoc.
Qed.

Lemma prefix_char (c x : ascii) (s : string) :
  String.prefix (String c "") (String x s) = Ascii.eqb x c.
Proof.
  rewrite prefix_cons, prefix_nil.
  destruct (Ascii.eqb_spec x c) as [E|N]; destruct (ascii_dec c x);
    congruence.
Qed.

(** A one-character search finds the first occurrence of the character. *)
Lemma strstr_char (c : ascii) (a b : string) :
  lacks c a = true ->
  strstr (a ++ String c b) (String c "") = Some (String.length a).
Proof.
  induction a as [|x a IH]; intros L; cbn [append]; rewrite strstr_unfold,
    prefix_char.
  - now rewrite Ascii.eqb_refl.
  - cbn [lacks] in L. apply andb_true_iff in L. destruct L as [L1 L2].
    apply negb_true_iff in L1. rewrite L1, (IH L2). reflexivity.
Qed.

Lemma strstr_char_none (c : ascii) (a : string) :
  lacks c a = true -> strstr a (String c "") = None.
Proof.
  induction a as [|x a IH]; intros L; rewrite strstr_unfold; [reflexivity|].
  rewrite prefix_char.
  cbn [lacks] in L. apply andb_true_iff in L. destruct L as [L1 L2].
  apply negb_true_iff in L1. rewrite L1, (IH L2). reflexivity.
Qed.

Lemma take_length_append (a b : string) : take (String.length a) (a ++ b) = a.
Proof.
  induction a as [|x a IH]; [now destruct b|].
  cbn [String.length append take]. now rewrite IH.
Qed.

Lemma drop_length_append (a b : string) : drop (String.length a) (a ++ b) = b.
Proof. induction a as [|x a IH]; [now destruct b|]. exact IH. Qed.

(* ================================================================= *)
(** ** Tokens *)


(** X4: [libtwirc_next_token] and [libtwirc_shift_token] find the same
    token: [libtwirc_shift_token] leaves in [src] the string that the
    pointer returned by [libtwirc_next_token] points to, returns [0] exactly
    where that pointer is null or the token is empty, and both leave the
    same [dest]. *)
Theorem shift_token_agrees_with_next_token (dest src sep : string) :
  strlen src < 2 ^ 64 ->
  let '(n, tok, rest) := libtwirc_shift_token dest src sep in
  let '(next, tok') := libtwirc_next_token dest src sep in
  tok = tok'
  /\ n = (match next with Some _ => strlen tok' | None => 0 end)
  /\ rest = (match next with Some r => r | None => src end).
Proof.
  intros B. unfold libtwirc_shift_token, libtwirc_next_token.
  destruct (strstr src sep) as [p|] eqn:H; [|now repeat split].
  pose proof (strstr_bound _ _ _ H) as L.
  unfold strlen in *. rewrite length_drop, length_take.
  rewrite to_size_t_small by lia.
  rewrite (take_all _ (drop (p + String.length sep) src))
    by (rewrite length_drop; lia).
  rewrite Nat.min_l by lia. now repeat split.
Qed.

(* ================================================================= *)
(** ** Parameters *)

Lemma fields_nonempty (d : ascii) (s : string) : fields d s <> [].
Proof.
  destruct s as [|c s]; cbn [fields]; [discriminate|].
  destruct (Ascii.eqb c d); [discriminate|].
  destruct (fields d s); discriminate.
Qed.

Lemma fields_lacks (d : ascii) (s : string) :
  lacks d s = true -> fields d s = [s].
Proof.
  induction s as [|c s IH]; intros L; [reflexivity|].
  cbn [lacks] in L. apply andb_true_iff in L. destruct L as [L1 L2].
  apply negb_true_iff in L1. cbn [fields]. now rewrite L1, IH.
Qed.

Lemma fields_separator (d : ascii) (cur m : string) :
  lacks d cur = true ->
  fields d (cur ++ String d m) = cur :: fields d m.
Proof.
  induction cur as [|c cur IH]; intros L; cbn [append fields].
  - now rewrite Ascii.eqb_refl.
  - cbn [lacks] in L. apply andb_true_iff in L. destruct L as [L1 L2].
    apply negb_true_iff in L1. now rewrite L1, IH.
Qed.

Lemma length_fields (d : ascii) (s : string) :
  (List.length (fields d s) <= S (String.length s))%nat.
Proof.
  induction s as [|c s IH]; cbn [fields String.length List.length]; [lia|].
  destruct (Ascii.eqb c d); cbn [List.length]; [lia|].
  destruct (fields d s); cbn [List.length] in *; lia.
Qed.

Lemma removelast_cons {A} (x : A) (l : list A) :
  l <> [] -> removelast (x :: l) = x :: removelast l.
Proof. destruct l; [congruence | reflexivity]. Qed.

Lemma chop_cons (x : string) (l : list string) :
  l <> [] -> chop (x :: l) = x :: chop l.
Proof. destruct l; [congruence | reflexivity]. Qed.

(** The token between [from] and the position behind [pre]. *)
Lemma token_at (pre rest : string) (from : Z) :
  0 <= from <= strlen pre ->
  strndup (drop (Z.to_nat from) (pre ++ rest)) (strlen pre - from) =
  drop (Z.to_nat from) pre.
Proof.
  intros B. unfold strlen in *.
  replace (Z.of_nat (String.length pre) - from)
    with (Z.of_nat (String.length (drop (Z.to_nat from) pre)))
    by (rewrite length_drop; lia).
  rewrite strndup_take, drop_append by lia.
  apply take_length_append.
Qed.

Lemma drop_snoc (n : nat) (pre : string) (c : ascii) :
  (n <= String.length pre)%nat ->
  drop n (pre ++ String c "") = drop n pre ++ String c "".
Proof. apply drop_append. Qed.

Lemma append_snoc (pre : string) (c : ascii) (r : string) :
  pre ++ String c r = (pre ++ String c "") ++ r.
Proof. now rewrite append_assoc. Qed.

Lemma strlen_snoc (pre : string) (c : ascii) :
  strlen (pre ++ String c "") = strlen pre + 1.
Proof. rewrite strlen_append. reflexivity. Qed.

Lemma strlen_cons (c : ascii) (r : string) :
  strlen (String c r) = strlen r + 1.
Proof. unfold strlen. cbn [String.length]. lia. Qed.

Lemma params_loop_cons (p_str : string) (p_len : Z) (c : ascii)
    (rest' : string) (i : Z) (trailing : bool) (from : Z)
    (toks : list string) :
  params_loop p_str p_len (String c rest') i trailing from toks =
  if Ascii.eqb c ":"%char && negb trailing then
    params_loop p_str p_len rest' (i + 1) true (i + 1) toks
  else if Ascii.eqb c " "%char && negb trailing then
    params_loop p_str p_len rest' (i + 1) trailing (i + 1)
      (toks ++ [strndup (drop (Z.to_nat from) p_str) (i - from)])
  else if i =? p_len - 1 then
    params_loop p_str p_len rest' (i + 1) trailing from
      (toks ++ [strndup (drop (Z.to_nat from) p_str) (i + 1 - from)])
  else
    params_loop p_str p_len rest' (i + 1) trailing from toks.
Proof. reflexivity. Qed.

(** Behind the colon everything up to the end is one parameter. *)
Lemma params_loop_trailing (rest : string) :
  forall p_str p_len pre i from toks,
    p_str = pre ++ rest ->
    p_len = strlen p_str ->
    i = strlen pre ->
    0 <= from <= i ->
    params_loop p_str p_len rest i true from toks =
    ((toks ++ if (rest =? "")%string then []
              else [drop (Z.to_nat from) p_str])%list, true).
Proof.
  induction rest as [|c r IH]; intros p_str p_len pre i from toks E1 E2 E3 B.
  - cbn. now rewrite app_nil_r.
  - rewrite params_loop_cons. cbn [negb]. rewrite !andb_false_r.
    assert (p_len = i + 1 + strlen r) as E4.
    { subst. rewrite strlen_append, strlen_cons. lia. }
    pose proof (strlen_nonneg r) as Nr.
    destruct r as [|d r].
    + replace (i =? p_len - 1) with true
        by (symmetry; apply Z.eqb_eq; unfold strlen in E4; cbn in E4; lia).
      cbn [params_loop String.eqb]. f_equal. f_equal. f_equal.
      unfold strndup.
      replace (strlen (drop (Z.to_nat from) p_str) <=? i + 1 - from)
        with true; [reflexivity|].
      symmetry. apply Z.leb_le. clear IH. unfold strlen in *.
      rewrite length_drop. cbn [String.length] in E4. lia.
    + replace (i =? p_len - 1) with false
        by (symmetry; apply Z.eqb_neq; rewrite strlen_cons in E4;
            pose proof (strlen_nonneg r); lia).
      rewrite (IH p_str p_len (pre ++ String c "")); try assumption.
      * reflexivity.
      * now rewrite <- append_snoc.
      * rewrite strlen_snoc. lia.
      * lia.
Qed.

Lemma drop_all_snoc (pre : string) (c : ascii) :
  drop (Z.to_nat (strlen pre + 1)) (pre ++ String c "") = "".
Proof.
  apply drop_all. rewrite length_append. unfold strlen. cbn. lia.
Qed.

Lemma lacks_snoc (d : ascii) (cur : string) (c : ascii) :
  lacks d cur = true -> c <> d -> lacks d (cur ++ String c "") = true.
Proof.
  intros W N. rewrite lacks_append, W. cbn [lacks andb].
  destruct (Ascii.eqb_spec c d); [contradiction | reflexivity].
Qed.

(** In front of the first colon a token ends at each space; the token that
    is open when the colon is met is not copied. *)
Lemma params_loop_middle (m : string) :
  forall t p_str p_len pre i from toks,
    lacks ":" m = true ->
    p_str = pre ++ m ++ String ":" t ->
    p_len = strlen p_str ->
    i = strlen pre ->
    0 <= from <= i ->
    lacks " " (drop (Z.to_nat from) pre) = true ->
    params_loop p_str p_len (m ++ String ":" t) i false from toks =
    ((toks ++ removelast (fields " " (drop (Z.to_nat from) pre ++ m))
        ++ trailing_param t)%list, true).
Proof.
  induction m as [|c m IH];
    intros t p_str p_len pre i from toks L E1 E2 E3 B W.
  - cbn [append] in *. rewrite params_loop_cons.
    cbn [Ascii.eqb Bool.eqb andb negb].
    rewrite (params_loop_trailing t p_str p_len (pre ++ ":"));
      try assumption.
    + rewrite append_nil_r, (fields_lacks _ _ W).
      cbn [removelast app]. unfold trailing_param.
      rewrite E1, E3, append_snoc, <- (strlen_snoc pre ":").
      unfold strlen. rewrite Nat2Z.id.
      now rewrite drop_length_append.
    + now rewrite <- append_snoc.
    + rewrite strlen_snoc. lia.
    + lia.
  - cbn [lacks] in L. apply andb_true_iff in L. destruct L as [L1 L2].
    apply negb_true_iff in L1.
    cbn [append] in *. rewrite params_loop_cons, L1. cbn [andb negb].
    assert (Z.to_nat from <= String.length pre)%nat as Bn
      by (unfold strlen in E3; lia).
    destruct (Ascii.eqb_spec c " "%char) as [->|NS]; cbn [andb].
    + rewrite (IH t p_str p_len (pre ++ " ")); try assumption.
      * rewrite <- List.app_assoc. f_equal.
        rewrite E1 at 1. rewrite E3, token_at by lia.
        rewrite drop_all_snoc. cbn [append app].
        rewrite (fields_separator _ _ _ W).
        now rewrite removelast_cons by apply fields_nonempty.
      * now rewrite <- append_snoc.
      * rewrite strlen_snoc. lia.
      * lia.
      * now rewrite E3, drop_all_snoc.
    + replace (i =? p_len - 1) with false
        by (symmetry; apply Z.eqb_neq; rewrite E2, E1, E3;
            rewrite strlen_append, strlen_cons, strlen_append, strlen_cons;
            pose proof (strlen_nonneg m); pose proof (strlen_nonneg t); lia).
      rewrite (IH t p_str p_len (pre ++ String c "")); try assumption.
      * rewrite drop_snoc by assumption. now rewrite <- append_snoc.
      * now rewrite <- append_snoc.
      * rewrite strlen_snoc. lia.
      * lia.
      * rewrite drop_snoc by assumption. now apply lacks_snoc.
Qed.

(** Without a colon a token ends at each space and at the end of the
    string. *)
Lemma params_loop_plain (m : string) :
  forall p_str p_len pre i from toks,
    m <> "" ->
    lacks ":" m = true ->
    p_str = pre ++ m ->
    p_len = strlen p_str ->
    i = strlen pre ->
    0 <= from <= i ->
    lacks " " (drop (Z.to_nat from) pre) = true ->
    params_loop p_str p_len m i false from toks =
    ((toks ++ chop (fields " " (drop (Z.to_nat from) pre ++ m)))%list,
     false).
Proof.
  induction m as [|c m IH];
    intros p_str p_len pre i from toks N L E1 E2 E3 B W; [congruence|].
  cbn [lacks] in L. apply andb_true_iff in L. destruct L as [L1 L2].
  apply negb_true_iff in L1.
  rewrite params_loop_cons, L1. cbn [andb negb].
  assert (Z.to_nat from <= String.length pre)%nat as Bn
    by (unfold strlen in E3; lia).
  destruct (Ascii.eqb_spec c " "%char) as [->|NS]; cbn [andb].
  - rewrite (fields_separator _ _ _ W).
    replace (strndup (drop (Z.to_nat from) p_str) (i - from))
      with (drop (Z.to_nat from) pre)
      by (rewrite E1, E3; symmetry; apply token_at; lia).
    destruct m as [|d m].
    + cbn [params_loop fields chop String.eqb]. reflexivity.
    + rewrite (IH p_str p_len (pre ++ " ")); try assumption;
        try discriminate.
      * rewrite E3, drop_all_snoc. cbn [append].
        rewrite chop_cons by apply fields_nonempty.
        now rewrite <- List.app_assoc.
      * now rewrite <- append_snoc.
      * rewrite strlen_snoc. lia.
      * lia.
      * now rewrite E3, drop_all_snoc.
  - destruct m as [|d m].
    + replace (i =? p_len - 1) with true
        by (symmetry; apply Z.eqb_eq; rewrite E2, E1, E3, strlen_snoc; lia).
      cbn [params_loop].
      replace (i + 1 - from) with (strlen (pre ++ String c "") - from)
        by (rewrite strlen_snoc; lia).
      rewrite E1. rewrite <- (append_nil_r (pre ++ String c "")) at 1.
      rewrite token_at by (rewrite strlen_snoc; lia).
      rewrite !drop_snoc by assumption.
      rewrite fields_lacks by now apply lacks_snoc.
      cbn [chop]. destruct (drop (Z.to_nat from) pre); reflexivity.
    + replace (i =? p_len - 1) with false
        by (symmetry; apply Z.eqb_neq; rewrite E2, E1, E3;
            rewrite strlen_append, !strlen_cons;
            pose proof (strlen_nonneg m); lia).
      rewrite (IH p_str p_len (pre ++ String c "")); try assumption;
        try discriminate.
      * rewrite drop_snoc by assumption. now rewrite <- append_snoc.
      * now rewrite <- append_snoc.
      * rewrite strlen_snoc. lia.
      * lia.
      * rewrite drop_snoc by assumption. now apply lacks_snoc.
Qed.

Lemma trailing_index (n : nat) :
  Z.of_nat n < 2 ^ 31 ->
  to_int (to_size_t (Z.of_nat n - 1)) = Z.of_nat n - 1.
Proof.
  intros B. destruct n as [|n]; [reflexivity|].
  rewrite to_size_t_small by lia. apply to_int_small. lia.
Qed.

Lemma length_params_of (m t : string) :
  (List.length (params_of m t) <= S (String.length m))%nat.
Proof.
  unfold params_of, trailing_param. rewrite length_app.
  pose proof (length_fields " " m) as F.
  pose proof (fields_nonempty " " m) as N.
  destruct (fields " " m) as [|f fs] eqn:E; [congruence|].
  rewrite <- E in *.
  assert (List.length (removelast (fields " " m))
          = Nat.pred (List.length (fields " " m))) as R.
  { rewrite E. clear. revert f. induction fs as [|g fs IH]; intros f;
      [reflexivity|].
    rewrite removelast_cons by discriminate.
    cbn [List.length Nat.pred]. now rewrite IH. }
  rewrite R. rewrite E in *. cbn [List.length Nat.pred] in *.
  destruct (t =? "")%string; cbn [List.length]; lia.
Qed.

(** X5: on a parameter string without a colon, [libtwirc_parse_params]
    yields the fields between the spaces, in order, a last field that is
    empty left out, and [-1] as the trailing index. *)
Theorem parse_params_without_colon (s : string) :
  lacks ":" s = true ->
  libtwirc_parse_params (Some s) =
  (Some (chop (fields " " s)),
   Z.of_nat (List.length (chop (fields " " s))), -1).
Proof.
  intros L. unfold libtwirc_parse_params.
  destruct s as [|c s]; [reflexivity|].
  rewrite (params_loop_plain (String c s) _ _ "" 0 0 []); try easy.
Qed.

(** X6: on a parameter string whose first colon follows the colon-free part
    [m], [libtwirc_parse_params] yields the fields of [m] except the last
    (the one the colon ends: empty when [m] is empty or ends in a space,
    dropped when it is not), then everything behind the colon as one
    parameter if there is anything; the trailing index is the number of
    parameters minus one. *)
Theorem parse_params_at_first_colon (m t : string) :
  lacks ":" m = true ->
  strlen m < INT_MAX ->
  libtwirc_parse_params (Some (m ++ String ":" t)) =
  (Some (params_of m t),
   Z.of_nat (List.length (params_of m t)),
   Z.of_nat (List.length (params_of m t)) - 1).
Proof.
  intros L B. unfold libtwirc_parse_params.
  rewrite (params_loop_middle m t _ _ "" 0 0 []); try easy.
  cbn [Z.to_nat drop append app]. fold (params_of m t).
  rewrite trailing_index; [reflexivity|].
  pose proof (length_params_of m t). unfold strlen, INT_MAX in *. lia.
Qed.

(* ================================================================= *)
(** ** Tag values *)

Lemma unescape_two (c d : ascii) (rest' : string) :
  libtwirc_unescape_tag (String c (String d rest')) =
  if Ascii.eqb c "\"%char then
    if Ascii.eqb d ":"%char then String ";"%char (libtwirc_unescape_tag rest')
    else if Ascii.eqb d "s"%char then String " "%char (libtwirc_unescape_tag rest')
    else if Ascii.eqb d "\"%char then String "\"%char (libtwirc_unescape_tag rest')
    else if Ascii.eqb d "r"%char then String CR (libtwirc_unescape_tag rest')
    else if Ascii.eqb d "n"%char then String LF (libtwirc_unescape_tag rest')
    else String c (libtwirc_unescape_tag (String d rest'))
  else String c (libtwirc_unescape_tag (String d rest')).
Proof. reflexivity. Qed.

Lemma unescape_length_pair (s : string) :
  (String.length (libtwirc_unescape_tag s) <= Nat.pred (String.length s))%nat
  /\ forall c,
      (String.length (libtwirc_unescape_tag (String c s))
       <= String.length s)%nat.
Proof.
  induction s as [|d s [IH1 IH2]].
  - split; [|intros c]; apply Nat.le_refl.
  - split; [exact (IH2 d)|].
    intros c. rewrite unescape_two. specialize (IH2 d).
    cbn [String.length Nat.pred] in *.
    repeat match goal with
           | |- context [if ?b then _ else _] => destruct b
           end; cbn [String.length]; lia.
Qed.

(** X1: the value that [libtwirc_unescape_tag] builds is at least one
    character shorter than its input (empty for an empty input), so every
    store into the [val_len + 1] bytes it allocates, the closing terminator
    included, stays inside them. *)
Theorem unescape_tag_fits_allocation (v : string) :
  (String.length (libtwirc_unescape_tag v) <= Nat.pred (String.length v))%nat.
Proof. apply unescape_length_pair. Qed.

Lemma tag_escape_char_cases (b : ascii) :
  (escaped b = true /\
   (b = ";"%char \/ b = " "%char \/ b = "\"%char \/ b = CR \/ b = LF))
  \/ (escaped b = false /\ tag_escape_char b = String b ""
      /\ Ascii.eqb b "\"%char = false).
Proof.
  unfold escaped, tag_escape_char.
  destruct (Ascii.eqb_spec b ";"%char); [left; split; [reflexivity | tauto]|].
  destruct (Ascii.eqb_spec b " "%char); [left; split; [reflexivity | tauto]|].
  destruct (Ascii.eqb_spec b "\"%char); [left; split; [reflexivity | tauto]|].
  destruct (Ascii.eqb_spec b CR); [left; split; [reflexivity | tauto]|].
  destruct (Ascii.eqb_spec b LF); [left; split; [reflexivity | tauto]|].
  right. repeat split.
Qed.

(** One escaped character in front of more input is read back as that
    character. *)
Lemma unescape_step (b : ascii) (T : string) :
  T <> "" ->
  libtwirc_unescape_tag (tag_escape_char b ++ T) =
  String b (libtwirc_unescape_tag T).
Proof.
  intros N. destruct T as [|t T]; [congruence|].
  destruct (tag_escape_char_cases b) as [[_ H]|(_ & E & P)].
  - destruct H as [->|[->|[->|[->| ->]]]]; reflexivity.
  - rewrite E. cbn [append]. rewrite unescape_two, P. reflexivity.
Qed.

Lemma append_nonempty_r (a b : string) : b <> "" -> a ++ b <> "".
Proof. destruct a; [trivial | discriminate]. Qed.

Lemma tag_escape_char_nonempty (b : ascii) : tag_escape_char b <> "".
Proof.
  destruct (tag_escape_char_cases b) as [[_ H]|(_ & E & _)].
  - destruct H as [->|[->|[->|[->| ->]]]]; discriminate.
  - rewrite E. discriminate.
Qed.

Lemma tag_escape_app (a b : string) :
  tag_escape (a ++ b) = tag_escape a ++ tag_escape b.
Proof.
  induction a as [|x a IH]; [reflexivity|].
  cbn [append tag_escape]. now rewrite IH, append_assoc.
Qed.

(** An escaped value followed by one more character is read back in full:
    the character that follows is the one that is lost. *)
Lemma unescape_sentinel (v : string) (c : ascii) :
  libtwirc_unescape_tag (tag_escape v ++ String c "") = v.
Proof.
  induction v as [|b v IH]; [reflexivity|].
  cbn [tag_escape]. rewrite append_assoc, unescape_step, IH; [reflexivity|].
  apply append_nonempty_r. discriminate.
Qed.

Lemma unescape_closed (v : string) (a : ascii) :
  escaped a = true ->
  libtwirc_unescape_tag (tag_escape v ++ tag_escape_char a) =
  v ++ String a "".
Proof.
  intros E. induction v as [|b v IH].
  - destruct (tag_escape_char_cases a) as [[_ H]|(F & _)]; [|congruence].
    destruct H as [->|[->|[->|[->| ->]]]]; reflexivity.
  - cbn [tag_escape]. rewrite append_assoc, unescape_step, IH; [reflexivity|].
    apply append_nonempty_r, tag_escape_char_nonempty.
Qed.

(** X2: decoding a value that was escaped (semicolon, space, backslash, CR
    and LF written as a backslash and a letter) gives the value back when
    its last character is one of those five, and the value without its
    last character otherwise. *)
Theorem unescape_inverts_escape (v : string) (a : ascii) :
  libtwirc_unescape_tag (tag_escape (v ++ String a "")) =
  if escaped a then v ++ String a "" else v.
Proof.
  rewrite tag_escape_app. cbn [tag_escape]. rewrite append_nil_r.
  destruct (tag_escape_char_cases a) as [[E _]|(E & C & _)]; rewrite E.
  - now apply unescape_closed.
  - rewrite C. apply unescape_sentinel.
Qed.

(* ================================================================= *)
(** ** Lines of the grammar *)

Lemma drop_separator (a : string) (c : ascii) (b : string) :
  drop (S (String.length a)) (a ++ String c b) = b.
Proof. induction a as [|x a IH]; [reflexivity | exact IH]. Qed.

Lemma drop_cons (n : nat) (c : ascii) (r : string) :
  drop (S n) (String c r) = drop n r.
Proof. reflexivity. Qed.

Lemma drop_one (c : ascii) (r : string) : drop 1 (String c r) = r.
Proof. reflexivity. Qed.

Lemma parse_tags_line (t rest : string) :
  lacks " " t = true ->
  libtwirc_parse_tags ("@" ++ t ++ String " " rest) =
  Some (rest, Some (map parse_tag (strtok_all t ";")),
        Z.of_nat (List.length (strtok_all t ";"))).
Proof.
  intros L. rewrite <- (length_map parse_tag). unfold libtwirc_parse_tags.
  change ("@" ++ t ++ String " " rest)
    with (String "@" t ++ String " " rest) at 2 3 4.
  rewrite (strstr_char " " (String "@" t) rest) by exact L.
  cbn [append char_at String.get Ascii.eqb Bool.eqb andb negb String.length].
  rewrite drop_one, drop_cons.
  replace (Z.of_nat (S (String.length t)) - 1)
    with (Z.of_nat (String.length t)) by lia.
  now rewrite strndup_take, take_length_append, drop_separator.
Qed.

Lemma parse_prefix_line (p rest : string) :
  lacks " " p = true ->
  libtwirc_parse_prefix (":" ++ p ++ String " " rest) =
  Some (rest, Some p).
Proof.
  intros L. unfold libtwirc_parse_prefix.
  change (":" ++ p ++ String " " rest)
    with (String ":" p ++ String " " rest) at 2 3 4.
  rewrite (strstr_char " " (String ":" p) rest) by exact L.
  cbn [append char_at String.get Ascii.eqb Bool.eqb andb negb String.length].
  rewrite drop_one, drop_cons.
  replace (Z.of_nat (S (String.length p)) - 1)
    with (Z.of_nat (String.length p)) by lia.
  now rewrite strndup_take, take_length_append, drop_separator.
Qed.

Lemma parse_command_line (cmd ps : string) :
  lacks " " cmd = true ->
  libtwirc_parse_command (cmd ++ String " " ps) = (Some ps, cmd).
Proof.
  intros L.
  rewrite (parse_command_space _ (String.length cmd))
    by now apply strstr_char.
  now rewrite take_length_append, drop_separator.
Qed.

(** The first character of a command followed by a space. *)
Lemma char_at_command (cmd ps : string) (c : ascii) :
  lacks c cmd = true -> c <> " "%char ->
  Ascii.eqb (char_at (cmd ++ String " " ps) 0) c = false.
Proof.
  intros L N. destruct cmd as [|x cmd]; cbn [append char_at String.get].
  - destruct (Ascii.eqb_spec " "%char c); congruence.
  - cbn [lacks] in L. apply andb_true_iff in L. destruct L as [L _].
    now apply negb_true_iff in L.
Qed.

(** Decoding what stands behind tags and prefix. *)
Lemma decode_tail (msg2 : string) :
  forall msg tags num_tags prefix,
    libtwirc_parse_tags msg = Some
      (match prefix with
       | Some p => ":" ++ p ++ String " " msg2
       | None => msg2
       end, tags, num_tags) ->
    spaceless prefix = true ->
    (prefix = None -> Ascii.eqb (char_at msg2 0) ":" = false) ->
    decode msg =
    let '(msg3, command) := libtwirc_parse_command msg2 in
    let '(params, num_params, trailing) := libtwirc_parse_params msg3 in
    Some (mk_event prefix
            match prefix with
            | Some p => libtwirc_prefix_to_nick p
            | None => None
            end None command params num_params trailing tags num_tags).
Proof.
  intros msg tags num_tags prefix T W C. unfold decode. rewrite T.
  destruct prefix as [p|].
  - now rewrite parse_prefix_line.
  - unfold libtwirc_parse_prefix. now rewrite C.
Qed.

Lemma parse_tags_irc_line (tgs pfx : option string) (cmd ps : string) :
  spaceless tgs = true ->
  lacks "@" cmd = true ->
  libtwirc_parse_tags (irc_line tgs pfx cmd ps) =
  Some (match pfx with
        | Some p => ":" ++ p ++ String " " (cmd ++ String " " ps)
        | None => cmd ++ String " " ps
        end, tags_of tgs, num_tags_of tgs).
Proof.
  intros Wt Ca. unfold irc_line, tags_of, num_tags_of.
  destruct tgs as [t|], pfx as [p|]; cbn [append option_map];
    rewrite ?append_assoc; cbn [append].
  - exact (parse_tags_line t _ Wt).
  - exact (parse_tags_line t _ Wt).
  - reflexivity.
  - unfold libtwirc_parse_tags. now rewrite char_at_command.
Qed.

(** Decoding a line of the grammar up to its parameters. *)
Lemma decode_irc_line (tgs pfx : option string) (cmd ps : string) :
  spaceless tgs = true ->
  spaceless pfx = true ->
  lacks " " cmd = true ->
  lacks "@" cmd = true ->
  lacks ":" cmd = true ->
  forall params num_params trailing,
    libtwirc_parse_params (Some ps) = (params, num_params, trailing) ->
    decode (irc_line tgs pfx cmd ps) =
    Some (mk_event pfx (nick_of pfx) None cmd params num_params trailing
            (tags_of tgs) (num_tags_of tgs)).
Proof.
  intros Wt Wp Wc Ca Cc params num_params trailing P.
  rewrite (decode_tail (cmd ++ String " " ps) _ (tags_of tgs)
             (num_tags_of tgs) pfx).
  - now rewrite parse_command_line, P.
  - now apply parse_tags_irc_line.
  - exact Wp.
  - intros _. now apply char_at_command.
Qed.

(** X7: a line of the grammar
    [['@' tags SPACE] [':' prefix SPACE] command SPACE params], its tags,
    prefix and command free of spaces and the command free of ['@'] and
    [':'], is decoded into exactly these parts: the prefix and command as
    written, the tags as the tags section holds them between semicolons,
    the parameters as [libtwirc_parse_params] reads the rest, the nickname
    as [libtwirc_prefix_to_nick] reads the prefix, and no channel. *)
Theorem decode_line (tgs pfx : option string) (cmd ps : string) :
  spaceless tgs = true ->
  spaceless pfx = true ->
  lacks " " cmd = true ->
  lacks "@" cmd = true ->
  lacks ":" cmd = true ->
  decode (irc_line tgs pfx cmd ps) =
  let '(params, num_params, trailing) := libtwirc_parse_params (Some ps) in
  Some (mk_event pfx
          match pfx with
          | Some p => libtwirc_prefix_to_nick p
          | None => None
          end None cmd params num_params trailing
          (option_map (fun t => map parse_tag (strtok_all t ";")) tgs)
          match tgs with
          | Some t => Z.of_nat (List.length (strtok_all t ";"))
          | None => 0
          end).
Proof.
  intros Wt Wp Wc Ca Cc.
  destruct (libtwirc_parse_params (Some ps)) as [[params num_params] trailing]
    eqn:P.
  exact (decode_irc_line tgs pfx cmd ps Wt Wp Wc Ca Cc _ _ _ P).
Qed.

(** X8: [libtwirc_prefix_to_nick] yields what stands before the first
    ['!'] of the prefix, and the null pointer for a prefix without one. *)
Theorem prefix_to_nick_splits_at_bang (n rest : string) :
  lacks "!" n = true ->
  libtwirc_prefix_to_nick (n ++ String "!" rest) = Some n
  /\ libtwirc_prefix_to_nick n = None.
Proof.
  intros L. unfold libtwirc_prefix_to_nick.
  rewrite strstr_char, strstr_char_none by exact L.
  now rewrite strndup_take, take_length_append.
Qed.

Lemma char_at_behind (k : string) (c : ascii) (b : string) :
  char_at (k ++ String c b) (S (String.length k)) = char_at b 0.
Proof. induction k as [|x k IH]; [now destruct b | exact IH]. Qed.

(** X28: what the tag loop of [libtwirc_parse_tags] makes of one tag whose
    key [k] holds no ['=']: [k] alone is a tag with key [k] and an empty
    value; [k=v] with a non-empty [v] is a tag with key [k] and the unescaped
    [v] as value; but [k=] is a tag whose key is [k=], the ['='] still
    attached, with an empty value. *)
Theorem parse_tag_cases (k v : string) :
  lacks "=" k = true ->
  Ascii.eqb (char_at v 0) NUL = false ->
  parse_tag k = mk_tag k ""
  /\ parse_tag (k ++ String "=" v) = mk_tag k (libtwirc_unescape_tag v)
  /\ parse_tag (k ++ String "=" "") = mk_tag (k ++ String "=" "") "".
Proof.
  intros L N. unfold parse_tag.
  rewrite (strstr_char_none _ _ L), !(strstr_char "=" k _ L).
  rewrite !char_at_behind, N. cbn [char_at String.get].
  rewrite Ascii.eqb_refl.
  unfold libtwirc_create_tag.
  now rewrite take_length_append, !drop_separator.
Qed.

(* ================================================================= *)
(** ** The counts of an event *)

Lemma params_loop_length (rest : string) :
  forall p_str p_len i trailing from toks,
    (List.length (fst (params_loop p_str p_len rest i trailing from toks))
     <= List.length toks + String.length rest)%nat.
Proof.
  induction rest as [|c rest IH]; intros p_str p_len i trailing from toks.
  - cbn. lia.
  - rewrite params_loop_cons. cbn [String.length].
    repeat match goal with
           | |- context [if ?b then _ else _] => destruct b
           end;
      (eapply Nat.le_trans; [apply IH|]); rewrite ?length_app;
      cbn [List.length]; lia.
Qed.

Lemma parse_params_counts (msg : option string) :
  (forall s, msg = Some s -> strlen s < INT_MAX) ->
  let '(ps, n, t) := libtwirc_parse_params msg in
  n = Z.of_nat (List.length match ps with Some l => l | None => [] end)
  /\ (t = -1 \/ (0 <= t /\ t = n - 1)).
Proof.
  intros B. destruct msg as [s|]; cbn [libtwirc_parse_params];
    [|split; [reflexivity | now left]].
  specialize (B s eq_refl).
  pose proof (params_loop_length s s (strlen s) 0 false 0 []) as L.
  destruct (params_loop s (strlen s) s 0 false 0 []) as [toks trailing].
  cbn [fst List.length] in L.
  split; [reflexivity|].
  destruct trailing; [|now left].
  unfold strlen, INT_MAX in B.
  rewrite trailing_index by lia.
  destruct toks; [now left | right]. cbn [List.length]. lia.
Qed.

(** X25: in every event that the decoder produces, [num_params] is the
    number of entries of [params] and [num_tags] the number of entries of
    [tags] (zero when the array is null), the trailing index is [-1] or the
    index of the last parameter, and the channel is not yet set. *)
Theorem decode_counts (msg : string) (evt : twirc_event) :
  strlen msg < INT_MAX ->
  decode msg = Some evt ->
  num_params evt =
    Z.of_nat (List.length match params evt with Some l => l | None => [] end)
  /\ num_tags evt =
    Z.of_nat (List.length match tags evt with Some l => l | None => [] end)
  /\ (trailing evt = -1
      \/ (0 <= trailing evt /\ trailing evt = num_params evt - 1))
  /\ channel evt = None.
Proof.
  intros B. unfold decode.
  destruct (libtwirc_parse_tags msg) as [[[msg1 tgs] nt]|] eqn:T;
    [|discriminate].
  destruct (libtwirc_parse_prefix msg1) as [[msg2 pfx]|] eqn:P;
    [|discriminate].
  destruct (libtwirc_parse_command msg2) as [msg3 cmd] eqn:C.
  assert (strlen msg1 <= strlen msg
          /\ nt = Z.of_nat (List.length
                              match tgs with Some l => l | None => [] end))
    as [B1 N].
  { unfold libtwirc_parse_tags in T.
    destruct (negb _); [injection T as <- <- <-; split; [lia | reflexivity]|].
    destruct (strstr msg " ") as [k|]; [|discriminate].
    injection T as <- <- <-. split; [|reflexivity].
    change (strlen (drop (S k) msg) <= strlen msg).
    unfold strlen. rewrite length_drop. lia. }
  assert (strlen msg2 <= strlen msg1) as B2.
  { unfold libtwirc_parse_prefix in P.
    destruct (negb _); [injection P as <- _; lia|].
    destruct (strstr msg1 " ") as [k|]; [|discriminate].
    injection P as <- _.
    change (strlen (drop (S k) msg1) <= strlen msg1).
    unfold strlen. rewrite length_drop. lia. }
  assert (forall s, msg3 = Some s -> strlen s < INT_MAX) as B3.
  { intros s E. unfold libtwirc_parse_command in C.
    destruct (strstr msg2 " ") as [k|]; injection C as C _; [|congruence].
    rewrite E in C. injection C as C.
    change (drop (S k) msg2 = s) in C. rewrite <- C.
    unfold strlen in *. rewrite length_drop. lia. }
  pose proof (parse_params_counts msg3 B3) as Q.
  destruct (libtwirc_parse_params msg3) as [[ps n] t].
  destruct Q as [Q1 Q2].
  intros [= <-]. cbn [num_params params num_tags tags trailing channel].
  repeat split; assumption.
Qed.

(* ================================================================= *)
(** ** Lines from the server, from decoder to handler *)

Lemma parse_params_text (t : string) :
  t <> "" -> libtwirc_parse_params (Some (String ":" t)) = (Some [t], 1, 0).
Proof.
  intros N. unfold libtwirc_parse_params.
  rewrite (params_loop_middle "" t _ _ "" 0 0 []); try easy.
  unfold trailing_param. destruct t; [congruence | reflexivity].
Qed.

Lemma parse_params_word (p : string) :
  p <> "" -> lacks " " p = true -> lacks ":" p = true ->
  libtwirc_parse_params (Some p) = (Some [p], 1, -1).
Proof.
  intros N W C. unfold libtwirc_parse_params.
  rewrite (params_loop_plain p _ _ "" 0 0 []); try easy.
  cbn [Z.to_nat drop append]. rewrite (fields_lacks _ _ W).
  destruct p; [congruence | reflexivity].
Qed.

Lemma parse_params_word_text (p t : string) :
  lacks " " p = true -> lacks ":" p = true -> t <> "" ->
  libtwirc_parse_params (Some (p ++ String " " (String ":" t))) =
  (Some [p; t], 2, 1).
Proof.
  intros W C N. unfold libtwirc_parse_params.
  rewrite (append_snoc p " ").
  rewrite (params_loop_middle (p ++ " ") t _ _ "" 0 0 []); try easy.
  - cbn [Z.to_nat drop append]. rewrite (fields_separator _ _ _ W).
    unfold trailing_param. destruct t; [congruence | reflexivity].
  - now rewrite lacks_append, C.
Qed.

Lemma process_msg_run (msg : string) (evt : twirc_event) (w : world) :
  decode msg = Some evt ->
  libtwirc_process_msg msg w =
  bind (libtwirc_dispatch_evt evt) (fun _ => ret 0)
    (mk_world (state w) (inbox w) (trace w ++ [Processing msg])).
Proof.
  intros D. unfold libtwirc_process_msg. unfold bind at 1. cbn [log].
  unfold bind at 1. now rewrite D.
Qed.

Lemma dispatch_ping (evt : twirc_event) (p : string) (ps : list string)
    (w : world) :
  command evt = "PING" ->
  params evt = Some (p :: ps) ->
  exists r,
    libtwirc_dispatch_evt evt w =
    Ok (0, evt)
      (mk_world (state w) (inbox w)
         (trace w
          ++ [ParamRead 0;
              Sent (send_buffer
                      (snprintf "" TWIRC_PONG_SIZE
                         ("PONG "
                          ++ (if Ascii.eqb (char_at p 0) ":" then "" else ":")
                          ++ p))) r;
              Invoked cb_ping (status (state w)) (Some evt)])).
Proof.
  intros C P. eexists. unfold libtwirc_dispatch_evt. rewrite C.
  cbn [String.eqb Ascii.eqb Bool.eqb andb].
  unfold libtwirc_on_ping, param_at, twirc_cmd_pong, twirc_send, invoke, bind,
    log, get_state, ret.
  rewrite P. cbn [state inbox trace List.length Nat.ltb Nat.leb nth_error].
  rewrite <- !List.app_assoc. reflexivity.
Qed.

Lemma dispatch_join (evt : twirc_event) (p : string) (ps : list string)
    (w : world) :
  command evt = "JOIN" ->
  params evt = Some (p :: ps) ->
  libtwirc_dispatch_evt evt w =
  Ok (0, set_channel (Some p) evt)
    (mk_world (state w) (inbox w)
       (trace w
        ++ [ParamRead 0;
            Invoked cb_join (status (state w))
              (Some (set_channel (Some p) evt))])).
Proof.
  intros C P. unfold libtwirc_dispatch_evt. rewrite C.
  cbn [String.eqb Ascii.eqb Bool.eqb andb].
  unfold param_at, invoke, bind, log, get_state, ret.
  rewrite P. cbn [state inbox trace List.length Nat.ltb Nat.leb nth_error].
  rewrite <- !List.app_assoc. reflexivity.
Qed.

Lemma dispatch_privmsg (evt : twirc_event) (p t : string) (ps : list string)
    (w : world) :
  command evt = "PRIVMSG" ->
  2 <= num_params evt ->
  params evt = Some (p :: t :: ps) ->
  libtwirc_dispatch_evt evt w =
  Ok (0, set_channel (Some p) evt)
    (mk_world (state w) (inbox w)
       (trace w
        ++ [ParamRead 0; ParamRead 1]
        ++ (if is_ctcp t then []
            else [Invoked cb_privmsg (status (state w))
                    (Some (set_channel (Some p) evt))]))).
Proof.
  intros C N P. unfold libtwirc_dispatch_evt. rewrite C.
  apply Z.leb_le in N. rewrite N.
  cbn [String.eqb Ascii.eqb Bool.eqb andb].
  unfold param_at, invoke, bind, log, get_state, ret.
  cbn [params set_channel]. rewrite P.
  cbn [state inbox trace List.length Nat.ltb Nat.leb nth_error].
  destruct (is_ctcp t); cbn [state inbox trace];
    rewrite <- !List.app_assoc; reflexivity.
Qed.

(** X9: the line [PING :t] is answered at once: processing it hands
    [PONG :t] (cut to what fits [TWIRC_PONG_SIZE], CR LF and terminator
    added) to the socket, then calls the ping handler with the decoded
    event, returns [0], and leaves the connection state as it was. *)
Theorem ping_line_is_answered (t : string) (w : world) :
  t <> "" ->
  Ascii.eqb (char_at t 0) ":" = false ->
  exists r,
    libtwirc_process_msg ("PING :" ++ t) w =
    Ok 0
      (mk_world (state w) (inbox w)
         (trace w
          ++ [Processing ("PING :" ++ t);
              ParamRead 0;
              Sent (send_buffer
                      (snprintf "" TWIRC_PONG_SIZE ("PONG :" ++ t))) r;
              Invoked cb_ping (status (state w))
                (Some (mk_event None None None "PING" (Some [t]) 1 0
                         None 0))])).
Proof.
  intros N C.
  pose proof (decode_irc_line None None "PING" (String ":" t) eq_refl eq_refl
                eq_refl eq_refl eq_refl _ _ _ (parse_params_text t N)) as D.
  cbn [irc_line append nick_of tags_of num_tags_of option_map] in D.
  cbn [append]. rewrite (process_msg_run _ _ w D).
  set (w1 := mk_world (state w) (inbox w) (trace w ++ [Processing _])).
  destruct (dispatch_ping
              (mk_event None None None "PING" (Some [t]) 1 0 None 0) t [] w1
              eq_refl eq_refl) as [r R].
  exists r. unfold bind. rewrite R. rewrite C.
  unfold ret, w1. cbn [state inbox trace].
  rewrite <- !List.app_assoc. reflexivity.
Qed.

(** X10: the line [:nick!user JOIN chan], with or without tags in front,
    reaches the join handler once, as an event whose nickname is what
    stands before the ['!'] of the prefix, whose channel is [chan] and
    whose only parameter is [chan]; nothing is sent and the connection
    state stays as it was. *)
Theorem join_line_reaches_handler (tgs : option string) (n u chan : string)
    (w : world) :
  spaceless tgs = true ->
  lacks " " n = true -> lacks "!" n = true -> lacks " " u = true ->
  chan <> "" -> lacks " " chan = true -> lacks ":" chan = true ->
  let line := irc_line tgs (Some (n ++ String "!" u)) "JOIN" chan in
  libtwirc_process_msg line w =
  Ok 0
    (mk_world (state w) (inbox w)
       (trace w
        ++ [Processing line;
            ParamRead 0;
            Invoked cb_join (status (state w))
              (Some (mk_event (Some (n ++ String "!" u)) (Some n)
                       (Some chan) "JOIN" (Some [chan]) 1 (-1)
                       (tags_of tgs) (num_tags_of tgs)))])).
Proof.
  intros Wt Wn Bn Wu Nc Wc Cc line.
  assert (spaceless (Some (n ++ String "!" u)) = true) as Wp.
  { cbn [spaceless]. rewrite lacks_append, Wn. cbn [lacks andb].
    now rewrite Wu. }
  pose proof (decode_irc_line tgs _ "JOIN" chan Wt Wp eq_refl eq_refl eq_refl
                _ _ _ (parse_params_word chan Nc Wc Cc)) as D.
  fold line in D. rewrite (process_msg_run _ _ w D).
  unfold bind. rewrite (dispatch_join _ chan []) by reflexivity.
  unfold ret. cbn [state inbox trace set_channel prefix evt_nick command
    params num_params trailing tags num_tags nick_of].
  unfold libtwirc_prefix_to_nick.
  rewrite (strstr_char "!" n u Bn), strndup_take, take_length_append.
  rewrite <- !List.app_assoc. reflexivity.
Qed.

(** X11: the line [:nick!user PRIVMSG chan :text], with or without tags in
    front, is decoded into an event with nickname [nick], channel [chan]
    and the two parameters [chan] and [text], the second marked as
    trailing; the privmsg handler is called with it once, unless [text]
    begins and ends with the byte [0x01], in which case no handler is
    called at all.  Nothing is sent either way. *)
Theorem privmsg_line_reaches_handler (tgs : option string)
    (n u chan text : string) (w : world) :
  spaceless tgs = true ->
  lacks " " n = true -> lacks "!" n = true -> lacks " " u = true ->
  lacks " " chan = true -> lacks ":" chan = true ->
  text <> "" ->
  let line :=
    irc_line tgs (Some (n ++ String "!" u)) "PRIVMSG"
      (chan ++ String " " (String ":" text)) in
  libtwirc_process_msg line w =
  Ok 0
    (mk_world (state w) (inbox w)
       (trace w
        ++ [Processing line; ParamRead 0; ParamRead 1]
        ++ (if is_ctcp text then []
            else [Invoked cb_privmsg (status (state w))
                    (Some (mk_event (Some (n ++ String "!" u)) (Some n)
                             (Some chan) "PRIVMSG" (Some [chan; text]) 2 1
                             (tags_of tgs) (num_tags_of tgs)))]))).
Proof.
  intros Wt Wn Bn Wu Wc Cc Nt line.
  assert (spaceless (Some (n ++ String "!" u)) = true) as Wp.
  { cbn [spaceless]. rewrite lacks_append, Wn. cbn [lacks andb].
    now rewrite Wu. }
  pose proof (decode_irc_line tgs _ "PRIVMSG" _ Wt Wp eq_refl eq_refl eq_refl
                _ _ _ (parse_params_word_text chan text Wc Cc Nt)) as D.
  fold line in D. rewrite (process_msg_run _ _ w D).
  unfold bind.
  rewrite (dispatch_privmsg _ chan text []) by (cbn; first [lia | reflexivity]).
  unfold ret. cbn [state inbox trace set_channel prefix evt_nick command
    params num_params trailing tags num_tags nick_of].
  unfold libtwirc_prefix_to_nick.
  rewrite (strstr_char "!" n u Bn), strndup_take, take_length_append.
  rewrite <- !List.app_assoc. reflexivity.
Qed.

(* ================================================================= *)
(** ** The status byte *)






(* ================================================================= *)
(** ** Notifications in sequence *)

Lemma handle_event_idle (events : Z) (w : world) :
  Z.land (status (state w)) TWIRC_STATUS_CONNECTING = 0 ->
  Z.land events EPOLLIN = 0 ->
  libtwirc_handle_event events w =
  if hangs_up events
  then Ok (-1)
         (mk_world
            (set_running 0 (set_status TWIRC_STATUS_DISCONNECTED (state w)))
            (inbox w) (trace w))
  else Ok 0 w.
Proof.
  intros C I. unfold libtwirc_handle_event.
  rewrite (bind_ok _ _ _ _ _ (handle_readable_idle events w I)).
  rewrite (bind_ok _ _ _ _ _ (handle_writable_not_connecting events w C)).
  apply hang_up_tail.
Qed.

Lemma connecting_cleared (events : Z) (w : world) (r : Z) (w' : world) :
  Z.land (status (state w)) TWIRC_STATUS_CONNECTING <> 0 ->
  Z.land events EPOLLOUT <> 0 ->
  libtwirc_handle_event events w = Ok r w' ->
  Z.land (status (state w')) TWIRC_STATUS_CONNECTING = 0.
Proof.
  intros C O H. unfold libtwirc_handle_event in H. unfold bind at 1 in H.
  destruct (handle_readable events w) as [[] w0|] eqn:R; [|discriminate].
  apply steady_handle_readable in R. destruct R as (_ & S & _).
  rewrite <- S in C.
  destruct (handle_writable_run events w0 O C)
    as (r1 & r2 & r3 & rp & rn & W).
  rewrite (bind_ok _ _ _ _ _ W), hang_up_tail in H.
  destruct (hangs_up events); injection H as _ <-; reflexivity.
Qed.

(** X15: the handshake happens once.  After the notification that found
    the connection connecting and writable has been handled, a further
    notification with no input to read sends nothing and calls no handler,
    whether or not it reports the socket writable again; unless it carries
    a hang-up flag it changes nothing at all. *)
Theorem handshake_happens_once (events : Z) (w : world) (r : Z) (w' : world)
    (events2 : Z) :
  Z.land (status (state w)) TWIRC_STATUS_CONNECTING <> 0 ->
  Z.land events EPOLLOUT <> 0 ->
  libtwirc_handle_event events w = Ok r w' ->
  Z.land events2 EPOLLIN = 0 ->
  exists r2 w2,
    libtwirc_handle_event events2 w' = Ok r2 w2
    /\ trace w2 = trace w'
    /\ (hangs_up events2 = false -> r2 = 0 /\ w2 = w').
Proof.
  intros C O H I.
  pose proof (connecting_cleared _ _ _ _ C O H) as C'.
  rewrite (handle_event_idle events2 w' C' I).
  destruct (hangs_up events2); do 2 eexists;
    (split; [reflexivity|]); split; try reflexivity; try discriminate.
  now intros _.
Qed.

(** The receive loop hands the leading data spans of the script to
    [libtwirc_process_data], in order. *)
Lemma recv_loop_spec (fuel : nat) :
  forall w w',
    backlog_fits w ->
    recv_loop fuel w = Ok tt w' ->
    backlog_fits w'
    /\ inbox w' = after_data (inbox w)
    /\ exists d,
        trace w' = (trace w ++ d)%list
        /\ forall x,
            pending (buffer (state w)
                     ++ strip_nul (stream (leading_data (inbox w))) ++ x) =
            (processed d ++ pending (buffer (state w') ++ x))%list.
Proof.
  induction fuel as [|fuel IH]; intros w w' F H; [discriminate|].
  cbn [recv_loop] in H. unfold bind at 1 in H.
  unfold twirc_recv, bind, stcpnb_receive in H.
  assert (forall v : world,
             buffer (state v) = buffer (state w) -> trace v = trace w ->
             exists d,
               trace v = (trace w ++ d)%list
               /\ forall x,
                   pending (buffer (state w) ++ strip_nul "" ++ x) =
                   (processed d ++ pending (buffer (state v) ++ x))%list)
    as Stop.
  { intros v B T. exists []. rewrite app_nil_r. split; [exact T|].
    intros x. now rewrite B. }
  destruct (inbox w) as [|[d|e] rest] eqn:I.
  - change (-1 =? -1) with true in H. cbv iota beta in H.
    rewrite Z.eqb_refl in H. cbn [orb ret] in H.
    change (0 <? 0) with false in H. injection H as <-.
    rewrite I. cbn [after_data leading_data stream].
    split; [exact F|]. split; [reflexivity|]. now apply Stop.
  - change (to_size_t (TWIRC_BUFFER_SIZE - 1)) with 2047 in H.
    destruct (Z.leb_spec (strlen d) 2047) as [L|]; [|discriminate].
    pose proof (strlen_nonneg d) as P.
    destruct (Z.eqb_spec (strlen d) (-1)); [lia|].
    cbn [ret] in H. rewrite to_int_small in H by lia.
    cbn [after_data leading_data].
    destruct (Z.ltb_spec 0 (strlen d)) as [Pos|Zero].
    + set (w1 := mk_world (state w) rest (trace w)) in H.
      rewrite to_size_t_small in H by lia.
      destruct (libtwirc_process_data d (strlen d) w1) as [r1 w2|] eqn:E;
        [|discriminate].
      apply process_data_spec in E;
        [|exact F | unfold INT_MAX; lia].
      destruct E as (F2 & I2 & d1 & T1 & P1).
      destruct (IH _ _ F2 H) as (F3 & I3 & d2 & T2 & P2).
      split; [exact F3|]. split; [now rewrite I3, I2|].
      exists (d1 ++ d2)%list. split.
      * rewrite T2, T1. cbn [w1 trace]. now rewrite <- List.app_assoc.
      * intros x. cbn [stream]. rewrite I2 in P2. cbn [w1 inbox] in P2.
        rewrite strip_nul_append, append_assoc.
        unfold strlen in P1. rewrite Nat2Z.id, take_all in P1
          by apply Nat.le_refl.
        cbn [w1 state] in P1.
        rewrite P1, P2, processed_app. now rewrite <- List.app_assoc.
    + injection H as <-. cbn [stream inbox].
      split; [exact F|]. split; [reflexivity|]. now apply Stop.
  - change (-1 =? -1) with true in H. cbv iota beta in H.
    cbn [after_data leading_data stream].
    destruct ((e =? EAGAIN) || (e =? EWOULDBLOCK)); cbn [ret] in H;
      [change (0 <? 0) with false in H | change (0 <? -1) with false in H];
      injection H as <-; cbn [inbox];
      (split; [exact F|]); (split; [reflexivity|]); now apply Stop.
Qed.

(** X16: a readable notification on a connection that is not reported
    writable makes [libtwirc_handle_event] read until a receive call
    delivers nothing, and the lines it processes meanwhile, followed by the
    non-empty lines still complete in the backlog, are the non-empty
    complete lines of the backlog extended by the received spans in the
    order they came; the outcome that ended the reading is used up with
    them. *)
Theorem readable_processes_received_stream (events : Z) (w : world) (r : Z)
    (w' : world) :
  Z.land events EPOLLIN <> 0 ->
  Z.land events EPOLLOUT = 0 ->
  backlog_fits w ->
  libtwirc_handle_event events w = Ok r w' ->
  inbox w' = after_data (inbox w)
  /\ exists d,
      trace w' = (trace w ++ d)%list
      /\ (processed d ++ pending (buffer (state w')))%list =
         pending (buffer (state w)
                  ++ strip_nul (stream (leading_data (inbox w)))).
Proof.
  intros I O F H. unfold libtwirc_handle_event in H. unfold bind at 1 in H.
  destruct (handle_readable events w) as [[] w0|] eqn:R; [|discriminate].
  rewrite (bind_ok _ _ _ _ _ (handle_writable_idle events w0 O)),
    hang_up_tail in H.
  unfold handle_readable in R. apply Z.eqb_neq in I. rewrite I in R.
  apply recv_loop_spec in R; [|exact F].
  destruct R as (_ & I0 & d & T & P).
  specialize (P ""). rewrite !append_nil_r in P.
  destruct (hangs_up events); injection H as _ <-;
    (split; [exact I0|]); exists d; (split; [exact T|]);
    now rewrite P.
Qed.

(** X17: data that leaves the backlog without a CR LF is appended to it,
    [NUL] bytes taken out, and nothing else happens: no line is processed,
    nothing is sent, no handler is called. *)
Theorem incomplete_data_is_kept (buf : string) (len : Z) (w : world) (r : Z)
    (w' : world) :
  backlog_fits w ->
  0 <= len <= INT_MAX ->
  strstr (buffer (state w) ++ strip_nul (take (Z.to_nat len) buf)) CRLF
  = None ->
  libtwirc_process_data buf len w = Ok r w' ->
  r = 0
  /\ buffer (state w') =
     buffer (state w) ++ strip_nul (take (Z.to_nat len) buf)
  /\ trace w' = trace w
  /\ inbox w' = inbox w.
Proof.
  intros F L N H. unfold libtwirc_process_data in H. unfold bind at 1 in H.
  destruct (chunk_loop _ _ _ _ _ w) as [[] w1|] eqn:C; [|discriminate].
  apply chunk_loop_spec in C; [|lia|lia].
  destruct C as (B1 & I1 & T1 & _).
  rewrite Z.sub_0_r in B1. cbn [Z.to_nat drop] in B1.
  unfold bind at 1 in H. unfold get_state at 1 in H.
  cbn [token_loop] in H. unfold bind at 1 in H. unfold bind at 1 in H.
  unfold get_state at 1 in H.
  rewrite <- B1 in N. rewrite (shift_token_none _ _ N) in H.
  change (TWIRC_MESSAGE_SIZE <=? 0) with false in H.
  change (0 <? 0) with false in H. cbv iota in H.
  unfold bind, modify_state, ret in H. injection H as <- <-.
  cbn [state buffer set_buffer inbox trace]. now rewrite B1 in *.
Qed.

(* ================================================================= *)
(** ** What handling a notification leaves alone *)

Lemma calls_app (a b : list effect) :
  calls (a ++ b)%list = (calls a ++ calls b)%list.
Proof.
  induction a as [|e a IH]; [reflexivity|].
  destruct e; cbn [app calls]; now rewrite IH.
Qed.

Lemma tame_refl (w : world) : tame w w.
Proof. repeat split. exists []. now rewrite app_nil_r. Qed.

Lemma tame_trans (a b c : world) : tame a b -> tame b c -> tame a c.
Proof.
  intros ((R1 & I1 & S1 & E1) & d1 & T1 & C1)
         ((R2 & I2 & S2 & E2) & d2 & T2 & C2).
  repeat split; try congruence.
  exists (d1 ++ d2)%list. split.
  - rewrite T2, T1. now rewrite <- List.app_assoc.
  - now rewrite calls_app, forallb_app, C1, C2.
Qed.

Lemma tame_log (e : effect) :
  forallb wired (calls [e]) = true -> respects tame (log e).
Proof. intros P w a w' [= _ <-]. repeat split. now exists [e]. Qed.

Lemma tame_modify (f : twirc_state -> twirc_state) :
  (forall s,
      running (f s) = running s /\ ip_type (f s) = ip_type s
      /\ socket_fd (f s) = socket_fd s /\ epfd (f s) = epfd s) ->
  respects tame (modify_state f).
Proof.
  intros F w a w' [= _ <-]. split; [apply F|].
  exists []. now rewrite app_nil_r.
Qed.

Lemma tame_send (msg : string) : respects tame (twirc_send msg).
Proof.
  intros w a w' [= _ <-]. repeat split.
  eexists. split; reflexivity.
Qed.

Lemma tame_recv (len : Z) : respects tame (twirc_recv len).
Proof.
  unfold twirc_recv. apply respects_bind; [apply tame_trans | |].
  - intros w a w' H. unfold stcpnb_receive in H.
    destruct (inbox w) as [|[d|e] rest].
    + injection H as _ <-. apply tame_refl.
    + destruct (strlen d <=? _); [|discriminate].
      injection H as _ <-. repeat split. exists []. now rewrite app_nil_r.
    + injection H as _ <-. repeat split. exists []. now rewrite app_nil_r.
  - intros [[res_len errno] buf].
    destruct (res_len =? -1); [|apply respects_ret, tame_refl].
    destruct ((errno =? EAGAIN) || (errno =? EWOULDBLOCK));
      apply respects_ret, tame_refl.
Qed.

Create HintDb tame.

#[local] Hint Resolve tame_send tame_recv : tame.

(** One step through a computation built from the operations of the
    monad. *)
Ltac tame_step :=
  match goal with
  | |- respects tame (ret _) => apply respects_ret, tame_refl
  | |- respects tame (crash _) => apply respects_crash
  | |- respects tame get_state => apply respects_get_state, tame_refl
  | |- respects tame (defined _) => apply respects_defined, tame_refl
  | |- respects tame (modify_state _) =>
      apply tame_modify; intros ?; repeat split
  | |- respects tame (log _) => apply tame_log; reflexivity
  | |- respects tame (bind _ _) =>
      apply respects_bind; [apply tame_trans | | intros ?]
  | |- respects tame (if ?b then _ else _) => destruct b
  | |- respects tame (match ?x with _ => _ end) => destruct x
  | |- respects tame _ => solve [auto with tame]
  end.

Lemma tame_invoke (cb : callback) (evt : option twirc_event) :
  wired cb = true -> respects tame (invoke cb evt).
Proof.
  intros W. unfold invoke.
  apply respects_bind; [apply tame_trans | tame_step | intros s].
  apply tame_log. cbn [calls forallb]. now rewrite W.
Qed.

Lemma tame_param_at (evt : twirc_event) (i : nat) :
  respects tame (param_at evt i).
Proof. unfold param_at. repeat tame_step. Qed.

Lemma tame_strcat_buffer (chunk : string) :
  respects tame (strcat_buffer chunk).
Proof. unfold strcat_buffer. repeat tame_step. Qed.

#[local] Hint Resolve tame_param_at tame_strcat_buffer : tame.

Lemma tame_dispatch (evt : twirc_event) :
  respects tame (libtwirc_dispatch_evt evt).
Proof.
  unfold libtwirc_dispatch_evt, libtwirc_on_welcome, libtwirc_on_ping,
    libtwirc_on_clearchat, libtwirc_on_whisper, twirc_cmd_pong.
  repeat first [tame_step | apply tame_invoke; reflexivity].
Qed.

#[local] Hint Resolve tame_dispatch : tame.

Lemma tame_process_msg (msg : string) :
  respects tame (libtwirc_process_msg msg).
Proof. unfold libtwirc_process_msg. repeat tame_step. Qed.

#[local] Hint Resolve tame_process_msg : tame.

Lemma tame_chunk_loop (fuel : nat) (buf : string) (len : Z) :
  forall chunk off, respects tame (chunk_loop fuel buf len chunk off).
Proof.
  induction fuel as [|fuel IH]; intros chunk off; cbn [chunk_loop];
    repeat first [apply IH | tame_step].
Qed.

Lemma tame_token_loop (fuel : nat) :
  forall msg, respects tame (token_loop fuel msg).
Proof.
  induction fuel as [|fuel IH]; intros msg; cbn [token_loop];
    repeat first [apply IH | tame_step].
Qed.

#[local] Hint Resolve tame_chunk_loop tame_token_loop : tame.

Lemma tame_process_data (buf : string) (len : Z) :
  respects tame (libtwirc_process_data buf len).
Proof. unfold libtwirc_process_data. repeat tame_step. Qed.

#[local] Hint Resolve tame_process_data : tame.

Lemma tame_recv_loop (fuel : nat) : respects tame (recv_loop fuel).
Proof.
  induction fuel as [|fuel IH]; cbn [recv_loop];
    repeat first [apply IH | tame_step].
Qed.

Lemma tame_handle_readable (events : Z) :
  respects tame (handle_readable events).
Proof.
  unfold handle_readable.
  destruct (Z.land events EPOLLIN =? 0); [tame_step|].
  intros w a w' H. eapply tame_recv_loop. eassumption.
Qed.

Lemma tame_handle_writable (events : Z) :
  respects tame (handle_writable events).
Proof.
  unfold handle_writable, libtwirc_on_connect, twirc_capreq, twirc_auth,
    twirc_cmd_req_tags, twirc_cmd_req_membership, twirc_cmd_req_commands,
    twirc_cmd_pass, twirc_cmd_nick.
  repeat first [tame_step | apply tame_invoke; reflexivity].
Qed.

(** What [libtwirc_handle_event] does before its three hang-up tests. *)
Lemma tame_before_hang_up (events : Z) :
  respects tame (bind (handle_readable events)
                   (fun _ => handle_writable events)).
Proof.
  apply respects_bind; [apply tame_trans | apply tame_handle_readable |].
  intros _. apply tame_handle_writable.
Qed.

Lemma handle_event_split (events : Z) (w : world) (r : Z) (w' : world) :
  libtwirc_handle_event events w = Ok r w' ->
  exists w1,
    bind (handle_readable events) (fun _ => handle_writable events) w =
    Ok tt w1
    /\ (if hangs_up events
        then Ok (-1)
               (mk_world
                  (set_running 0
                     (set_status TWIRC_STATUS_DISCONNECTED (state w1)))
                  (inbox w1) (trace w1))
        else Ok 0 w1) = Ok r w'.
Proof.
  unfold libtwirc_handle_event. intros H. unfold bind at 1 in H.
  unfold bind at 1.
  destruct (handle_readable events w) as [[] w0|]; [|discriminate].
  unfold bind at 1 in H.
  destruct (handle_writable events w0) as [[] w1|]; [|discriminate].
  exists w1. split; [reflexivity|]. now rewrite <- hang_up_tail.
Qed.

(** X13: whatever a notification brings, [libtwirc_handle_event] calls
    handlers through the connect, welcome, ping, join, privmsg, whisper and
    clearchat slots only: the handlers in the part, channel, notice and
    unknown slots are never called. *)
Theorem unwired_handlers_never_called (events : Z) (w : world) (r : Z)
    (w' : world) :
  libtwirc_handle_event events w = Ok r w' ->
  exists d,
    trace w' = (trace w ++ d)%list
    /\ forall cb, In cb (calls d) ->
         cb <> cb_part /\ cb <> cb_channel /\ cb <> cb_notice
         /\ cb <> cb_unknown.
Proof.
  intros H. apply handle_event_split in H. destruct H as (w1 & B & H).
  apply tame_before_hang_up in B. destruct B as (_ & d & T & C).
  exists d. split.
  - destruct (hangs_up events); injection H as _ <-; exact T.
  - intros cb I. rewrite forallb_forall in C. specialize (C cb I).
    destruct cb; repeat split; discriminate.
Qed.

(** X14: [libtwirc_handle_event] returns [-1] exactly when the notification
    carries one of the three hang-up flags, and then the status is
    disconnected and the run flag cleared, so that neither
    [twirc_is_connected] nor [twirc_is_logged_in] holds; otherwise it
    returns [0] and leaves the run flag, the address family and both file
    descriptors as they were. *)
Theorem handle_event_outcome (events : Z) (w : world) (r : Z) (w' : world) :
  libtwirc_handle_event events w = Ok r w' ->
  if hangs_up events
  then r = -1
       /\ status (state w') = TWIRC_STATUS_DISCONNECTED
       /\ running (state w') = 0
       /\ twirc_is_connected (state w') = 0
       /\ twirc_is_logged_in (state w') = 0
  else r = 0 /\ device w w'.
Proof.
  intros H. apply handle_event_split in H. destruct H as (w1 & B & H).
  apply tame_before_hang_up in B. destruct B as (D & _).
  destruct (hangs_up events); injection H as <- <-.
  - repeat split.
  - split; [reflexivity | exact D].
Qed.

(* ================================================================= *)
(** ** The run loop *)

Lemma tick_stops (timeout : Z) (waited : Z * Z) (w : world) (r : Z)
    (w' : world) :
  stops waited = true ->
  twirc_tick timeout waited w = Ok r w' ->
  running (state w') = 0.
Proof.
  destruct waited as [n ev]. unfold stops, twirc_tick. cbn [fst snd].
  intros S H.
  destruct (n =? -1); [now injection H as _ <-|].
  destruct (n =? 0); [discriminate|].
  cbn [orb negb andb] in S.
  apply handle_event_split in H. destruct H as (w1 & _ & H).
  rewrite S in H. now injection H as _ <-.
Qed.

Lemma tick_goes_on (timeout : Z) (waited : Z * Z) (w : world) (r : Z)
    (w' : world) :
  stops waited = false ->
  twirc_tick timeout waited w = Ok r w' ->
  running (state w') = running (state w).
Proof.
  destruct waited as [n ev]. unfold stops, twirc_tick. cbn [fst snd].
  intros S H.
  destruct (n =? -1); [discriminate|].
  destruct (n =? 0); [now injection H as _ <-|].
  cbn [orb negb andb] in S.
  apply handle_event_split in H. destruct H as (w1 & B & H).
  apply tame_before_hang_up in B. destruct B as ((R & _) & _).
  rewrite S in H. now injection H as _ <-.
Qed.

Lemma loop_ticks_stopped (timeout : Z) (waits : list (Z * Z)) (w : world) :
  running (state w) = 0 -> loop_ticks timeout waits w = Ok (Some 0) w.
Proof.
  intros R. destruct waits; cbn [loop_ticks]; unfold bind, get_state;
    now rewrite R.
Qed.

Lemma loop_ticks_cons (timeout : Z) (waited : Z * Z) (rest : list (Z * Z))
    (w : world) :
  running (state w) <> 0 ->
  loop_ticks timeout (waited :: rest) w =
  bind (twirc_tick timeout waited) (fun _ => loop_ticks timeout rest) w.
Proof.
  intros R. cbn [loop_ticks]. unfold bind at 1. unfold get_state.
  apply Z.eqb_neq in R. now rewrite R.
Qed.

Lemma loop_ticks_ends (timeout : Z) (waited : Z * Z) (rest : list (Z * Z)) :
  stops waited = true ->
  forall before w,
    loop_ticks timeout (before ++ waited :: rest)%list w =
    loop_ticks timeout (before ++ [waited])%list w
    /\ forall w', loop_ticks timeout (before ++ [waited])%list w
                  <> Ok None w'.
Proof.
  intros S. induction before as [|b before IH]; intros w.
  - cbn [app].
    destruct (Z.eq_dec (running (state w)) 0) as [R|R].
    + rewrite !loop_ticks_stopped by exact R. split; [reflexivity|].
      discriminate.
    + rewrite !loop_ticks_cons by exact R. unfold bind.
      destruct (twirc_tick timeout waited w) as [r w1|] eqn:T;
        [|split; [reflexivity | discriminate]].
      apply (tick_stops _ _ _ _ _ S) in T.
      rewrite !loop_ticks_stopped by exact T.
      split; [reflexivity | discriminate].
  - cbn [app].
    destruct (Z.eq_dec (running (state w)) 0) as [R|R].
    + rewrite !loop_ticks_stopped by exact R. split; [reflexivity|].
      discriminate.
    + rewrite !loop_ticks_cons by exact R. unfold bind.
      destruct (twirc_tick timeout b w) as [r w1|];
        [apply IH | split; [reflexivity | discriminate]].
Qed.

(** X18: [twirc_loop] ends at the first call of [epoll_wait] that fails or
    delivers a hang-up: what later calls would have returned makes no
    difference, and the loop is not left asking for more events. *)
Theorem loop_ends_at_first_stop (timeout : Z) (before : list (Z * Z))
    (waited : Z * Z) (rest : list (Z * Z)) (w : world) :
  stops waited = true ->
  twirc_loop timeout (before ++ waited :: rest)%list w =
  twirc_loop timeout (before ++ [waited])%list w
  /\ forall w', twirc_loop timeout (before ++ waited :: rest)%list w
                <> Ok None w'.
Proof.
  intros S. unfold twirc_loop, bind, modify_state.
  destruct (loop_ticks_ends timeout waited rest S before
              (mk_world (set_running 1 (state w)) (inbox w) (trace w)))
    as [E N].
  split; [exact E|]. rewrite E. exact N.
Qed.

Lemma loop_ticks_result (timeout : Z) (waits : list (Z * Z)) :
  forall w o w',
    loop_ticks timeout waits w = Ok o w' ->
    match o with
    | Some z => z = 0 /\ running (state w') = 0
    | None =>
        running (state w') = running (state w)
        /\ Forall (fun x => stops x = false) waits
    end.
Proof.
  induction waits as [|waited rest IH]; intros w o w' H.
  - cbn [loop_ticks] in H. unfold bind, get_state in H.
    destruct (Z.eqb_spec (running (state w)) 0) as [R|R];
      injection H as <- <-; [split | split]; trivial.
  - destruct (Z.eq_dec (running (state w)) 0) as [R|R].
    + rewrite loop_ticks_stopped in H by exact R.
      injection H as <- <-. now split.
    + rewrite loop_ticks_cons in H by exact R. unfold bind in H.
      destruct (twirc_tick timeout waited w) as [r w1|] eqn:T;
        [|discriminate].
      specialize (IH _ _ _ H). destruct o as [z|]; [exact IH|].
      destruct IH as [R' A].
      destruct (stops waited) eqn:S.
      * apply (tick_stops _ _ _ _ _ S) in T.
        rewrite loop_ticks_stopped in H by exact T. discriminate.
      * apply (tick_goes_on _ _ _ _ _ S) in T.
        split; [congruence | now constructor].
Qed.

(** While the run flag is set and no outcome stops the loop, the loop is
    the sequence of its ticks, and it is left waiting. *)
Lemma loop_ticks_waiting (timeout : Z) (waits : list (Z * Z)) :
  Forall (fun x => stops x = false) waits ->
  forall w,
    running (state w) <> 0 ->
    loop_ticks timeout waits w =
    bind (ticks timeout waits) (fun _ => ret None) w.
Proof.
  induction 1 as [|waited rest S A IH]; intros w R.
  - cbn [loop_ticks ticks]. unfold bind, get_state, ret.
    apply Z.eqb_neq in R. now rewrite R.
  - rewrite loop_ticks_cons by exact R. cbn [ticks]. unfold bind.
    destruct (twirc_tick timeout waited w) as [r w1|] eqn:T; [|reflexivity].
    apply (tick_goes_on _ _ _ _ _ S) in T.
    rewrite IH by congruence. reflexivity.
Qed.

(** A loop that starts with the run flag set and returns has met an
    outcome that stops it. *)
Lemma loop_ticks_returned (timeout : Z) (waits : list (Z * Z)) :
  forall w z w',
    running (state w) <> 0 ->
    loop_ticks timeout waits w = Ok (Some z) w' ->
    Exists (fun x => stops x = true) waits.
Proof.
  induction waits as [|waited rest IH]; intros w z w' R H.
  - cbn [loop_ticks] in H. unfold bind, get_state in H.
    apply Z.eqb_neq in R. rewrite R in H. discriminate.
  - rewrite loop_ticks_cons in H by exact R. unfold bind in H.
    destruct (twirc_tick timeout waited w) as [r w1|] eqn:T;
      [|discriminate].
    destruct (stops waited) eqn:S; [now left | right].
    apply (tick_goes_on _ _ _ _ _ S) in T.
    apply (IH w1 z w'); [congruence | exact H].
Qed.

(** X19: with handlers that leave the connection state alone, as the
    default [libtwirc_callback_null] does, [twirc_loop] goes on for exactly
    as long as no call of [epoll_wait] has failed or delivered a hang-up.
    Until then it is the run flag set to [1] followed by one [twirc_tick]
    for each outcome, in order, and it is still asking for events, the run
    flag at [1], when the outcomes are used up.  It returns only after an
    outcome that stops it; it then returns [0] with the run flag at [0]. *)
Theorem loop_waits_until_stopped (timeout : Z) (waits : list (Z * Z))
    (w : world) :
  (Forall (fun x => stops x = false) waits ->
   twirc_loop timeout waits w =
   bind (modify_state (set_running 1))
     (fun _ => bind (ticks timeout waits) (fun _ => ret None)) w)
  /\ forall o w',
      twirc_loop timeout waits w = Ok o w' ->
      match o with
      | Some z =>
          z = 0 /\ running (state w') = 0
          /\ Exists (fun x => stops x = true) waits
      | None =>
          running (state w') = 1
          /\ Forall (fun x => stops x = false) waits
      end.
Proof.
  set (w1 := mk_world (set_running 1 (state w)) (inbox w) (trace w)).
  assert (twirc_loop timeout waits w = loop_ticks timeout waits w1) as E
    by reflexivity.
  assert (bind (modify_state (set_running 1))
            (fun _ => bind (ticks timeout waits) (fun _ => ret (@None Z))) w =
          bind (ticks timeout waits) (fun _ => ret None) w1) as E'
    by reflexivity.
  rewrite E, E'. clear E E'.
  assert (running (state w1) <> 0) as R by discriminate.
  split.
  - intros A. now apply loop_ticks_waiting.
  - intros o w' H. pose proof (loop_ticks_result _ _ _ _ _ H) as Q.
    destruct o as [z|]; [|exact Q].
    destruct Q as [Z0 R0]. repeat split; try assumption.
    now apply (loop_ticks_returned timeout waits w1 z w').
Qed.

(* ================================================================= *)
(** ** Sending, connecting and disconnecting *)

Lemma send_buffer_take (msg : string) :
  send_buffer msg =
  take (Z.to_nat (TWIRC_BUFFER_SIZE - 3)) msg ++ CRLF ++ String NUL "".
Proof.
  unfold send_buffer, strnlen. cbv zeta.
  destruct (Z.le_ge_cases (strlen msg) (TWIRC_BUFFER_SIZE - 3)) as [L|G].
  - rewrite Z.min_l by exact L. unfold strlen in *.
    now rewrite !take_all by lia.
  - now rewrite Z.min_r by exact G.
Qed.

Lemma send_buffer_short (msg : string) :
  strlen msg <= TWIRC_BUFFER_SIZE - 3 ->
  send_buffer msg = msg ++ CRLF ++ String NUL "".
Proof.
  intros L. rewrite send_buffer_take. unfold strlen in L.
  now rewrite take_all by lia.
Qed.

(** X20: [twirc_send] hands the socket the first [TWIRC_BUFFER_SIZE - 3]
    characters of the message (all of it when it is no longer), followed
    by CR, LF and a terminating [NUL], never more than [TWIRC_BUFFER_SIZE]
    bytes; it returns what [stcpnb_send] returned and leaves the connection
    state alone. *)
Theorem twirc_send_frames_line (msg : string) (w : world) :
  exists body,
    let bytes := body ++ CRLF ++ String NUL "" in
    twirc_send msg w =
    Ok (stcpnb_send (trace w) bytes)
      (mk_world (state w) (inbox w)
         (trace w ++ [Sent bytes (stcpnb_send (trace w) bytes)]))
    /\ body = take (Z.to_nat (TWIRC_BUFFER_SIZE - 3)) msg
    /\ strlen bytes <= TWIRC_BUFFER_SIZE
    /\ (strlen msg <= TWIRC_BUFFER_SIZE - 3 -> body = msg).
Proof.
  exists (take (Z.to_nat (TWIRC_BUFFER_SIZE - 3)) msg). cbv zeta.
  split; [|split; [reflexivity | split]].
  - unfold twirc_send. now rewrite send_buffer_take.
  - rewrite strlen_append. unfold strlen. rewrite length_take.
    change (Z.of_nat (String.length (CRLF ++ String NUL ""))) with 3.
    unfold TWIRC_BUFFER_SIZE, TWIRC_MESSAGE_SIZE. lia.
  - intros L. unfold strlen in L. apply take_all. lia.
Qed.

(** X21: what [twirc_cmd_privmsg] puts on the wire for a channel without
    space or colon and a non-empty text that fit the send buffer is the
    line [PRIVMSG chan :text] with CR LF and terminator, and that line is
    one the decoder of the library reads back as the command [PRIVMSG]
    with the two parameters [chan] and [text], the second one trailing. *)
Theorem privmsg_round_trip (chan text : string) (w : world) :
  lacks " " chan = true ->
  lacks ":" chan = true ->
  text <> "" ->
  strlen chan + strlen text + 10 <= TWIRC_BUFFER_SIZE - 3 ->
  let line := "PRIVMSG " ++ chan ++ " :" ++ text in
  (exists r,
      twirc_cmd_privmsg chan text w =
      Ok r (mk_world (state w) (inbox w)
              (trace w ++ [Sent (line ++ CRLF ++ String NUL "") r])))
  /\ decode line =
     Some (mk_event None None None "PRIVMSG" (Some [chan; text]) 2 1 None 0).
Proof.
  intros W C N L line.
  assert (strlen line = strlen chan + strlen text + 10) as E.
  { unfold line. rewrite !strlen_append.
    change (strlen "PRIVMSG ") with 8. change (strlen " :") with 2. lia. }
  split.
  - eexists. unfold twirc_cmd_privmsg, twirc_send. fold line.
    unfold snprintf. unfold TWIRC_BUFFER_SIZE, TWIRC_MESSAGE_SIZE in *.
    change (2048 <=? 0) with false. cbv iota.
    rewrite (take_all _ line) by (unfold strlen in *; lia).
    rewrite send_buffer_short; [reflexivity|].
    unfold TWIRC_BUFFER_SIZE, TWIRC_MESSAGE_SIZE. lia.
  - exact (decode_irc_line None None "PRIVMSG" _ eq_refl eq_refl eq_refl
             eq_refl eq_refl _ _ _ (parse_params_word_text chan text W C N)).
Qed.

(** X22: [twirc_connect] always returns; the status becomes connecting
    exactly when it returns [0], whatever the status was before, and is
    left as it was otherwise; with [0] the login data are the ones given;
    the backlog, the run flag and the trace are never touched. *)
Theorem twirc_connect_outcome (host port pass nick : string) (w : world) :
  exists r w',
    twirc_connect host port pass nick w = Ok r w'
    /\ status (state w') =
       (if r =? 0 then TWIRC_STATUS_CONNECTING else status (state w))
    /\ (r = 0 -> login (state w') = mk_login host port nick pass)
    /\ buffer (state w') = buffer (state w)
    /\ running (state w') = running (state w)
    /\ inbox w' = inbox w
    /\ trace w' = trace w.
Proof.
  unfold twirc_connect, bind, get_state, modify_state.
  cbn [state inbox trace].
  destruct (stcpnb_create (ip_type (state w)) <? 0).
  { do 2 eexists. split; [reflexivity|]. repeat split; discriminate. }
  cbn [state inbox trace].
  destruct (epoll_create 1 <? 0).
  { do 2 eexists. split; [reflexivity|]. repeat split; discriminate. }
  destruct (negb (epoll_ctl _ _ _ _ =? 0)).
  { do 2 eexists. split; [reflexivity|]. repeat split; discriminate. }
  cbn [state inbox trace].
  destruct (stcpnb_connect _ _ host port =? 0) eqn:E.
  - do 2 eexists. split; [reflexivity|]. rewrite E. repeat split.
  - do 2 eexists. split; [reflexivity|]. rewrite E. repeat split.
Qed.

(** X23: [twirc_disconnect] always ends with the status disconnected, so
    that neither [twirc_is_connected] nor [twirc_is_logged_in] holds
    afterwards, and returns what closing the socket returned, whatever
    became of the [QUIT] line that it hands to the socket first. *)
Theorem twirc_disconnect_outcome (w : world) :
  exists rq w',
    twirc_disconnect w = Ok (stcpnb_close (socket_fd (state w))) w'
    /\ trace w' =
       (trace w ++ [Sent ("QUIT" ++ CRLF ++ String NUL "") rq])%list
    /\ status (state w') = TWIRC_STATUS_DISCONNECTED
    /\ twirc_is_connected (state w') = 0
    /\ twirc_is_logged_in (state w') = 0
    /\ buffer (state w') = buffer (state w)
    /\ login (state w') = login (state w).
Proof.
  unfold twirc_disconnect, twirc_cmd_quit, twirc_send, bind, get_state,
    modify_state, ret.
  cbn [state inbox trace].
  do 2 eexists. split; [reflexivity|]. repeat split.
Qed.

(** X24: [twirc_kill] says [QUIT] to the server exactly when the connected
    flag is set: a connection that is still connecting, or one that was
    hung up, is torn down without a word on the wire. *)
Theorem twirc_kill_quits_when_connected (w : world) :
  exists w' d,
    twirc_kill w = Ok 0 w'
    /\ trace w' = (trace w ++ d)%list
    /\ sent d =
       (if twirc_is_connected (state w) =? 1
        then ["QUIT" ++ CRLF ++ String NUL ""]
        else []).
Proof.
  unfold twirc_kill, twirc_is_connected, bind, get_state.
  destruct (negb (Z.land (status (state w)) TWIRC_STATUS_CONNECTED =? 0)).
  - unfold twirc_disconnect, twirc_cmd_quit, twirc_send, bind, get_state,
      modify_state, ret.
    cbn [state inbox trace].
    do 2 eexists. split; [reflexivity|]. split; reflexivity.
  - exists w, []. split; [reflexivity|]. split; [|reflexivity].
    now rewrite app_nil_r.
Qed.

End Engine.

(* ================================================================= *)
(** ** The engine on sample inputs *)

(** C3 as stated fails: when the socket refuses every send, the password
    line is the last thing sent; no nickname line follows, and the status is
    connected-and-authenticating all the same. *)
Lemma handshake_without_nick :
  let w := sample_world TWIRC_STATUS_CONNECTING [] in
  exists w',
    libtwirc_handle_event send_none 11 11 64 EPOLLOUT w = Ok 0 w'
    /\ status (state w') = 6
    /\ sent (trace w') =
       [cap_tags_line; cap_membership_line; cap_commands_line;
        pass_line sample_login]
    /\ ~ In (nick_line sample_login) (sent (trace w')).
Proof.
  eexists. split; [reflexivity|]. split; [reflexivity|].
  split; [reflexivity|].
  cbn. intros [H|[H|[H|[H|[]]]]]; discriminate H.
Qed.

(** The amended C3 at a fresh connecting state, a socket that takes every
    byte and a notification that is writable only. *)
Lemma handshake_on_first_writable_witness :
  exists r w',
    libtwirc_handle_event send_all 11 11 64 EPOLLOUT
      (sample_world TWIRC_STATUS_CONNECTING []) = Ok r w'
    /\ exists t_in r1 r2 r3 rp rn,
        trace w' =
        (t_in
         ++ [Sent cap_tags_line r1; Sent cap_membership_line r2;
             Sent cap_commands_line r3; Sent (pass_line sample_login) rp]
         ++ (if rp =? -1 then [] else [Sent (nick_line sample_login) rn])
         ++ [Invoked cb_connect 6 None])%list
        /\ t_in = []
        /\ status (state w') = 6.
Proof.
  destruct (handshake_on_first_writable send_all 11 11 64 EPOLLOUT
              (sample_world TWIRC_STATUS_CONNECTING []))
    as [E H]; [discriminate | discriminate |].
  destruct (E eq_refl) as (r & w' & R).
  exists r, w'. split; [exact R|].
  destruct (H r w' R) as (t_in & r1 & r2 & r3 & rp & rn & T & I & S).
  exists t_in, r1, r2, r3, rp, rn.
  split; [exact T | split; [exact (I eq_refl) | exact S]].
Defined.

(** C10 at a [PRIVMSG] event with one parameter. *)
Lemma dispatch_privmsg_guard_witness :
  libtwirc_dispatch_evt send_all 64 (event_of "PRIVMSG" ["#chan"])
    (sample_world 14 []) =
  Ok (-1, event_of "PRIVMSG" ["#chan"]) (sample_world 14 []).
Proof.
  apply dispatch_privmsg_guard; reflexivity.
Defined.

(** C9 at a would-block failure, a connection reset and a six-byte read
    (with [EAGAIN] and [EWOULDBLOCK] both 11, as on Linux). *)
Lemma twirc_recv_result_witness :
  twirc_recv 11 11 TWIRC_BUFFER_SIZE (sample_world 14 [RecvError 11]) =
    Ok (0, "") (sample_world 14 [])
  /\ twirc_recv 11 11 TWIRC_BUFFER_SIZE (sample_world 14 [RecvError 104]) =
    Ok (-1, "") (sample_world 14 [])
  /\ twirc_recv 11 11 TWIRC_BUFFER_SIZE
       (sample_world 14 [RecvData ("PING" ++ CRLF)]) =
    Ok (strlen ("PING" ++ CRLF), "PING" ++ CRLF) (sample_world 14 []).
Proof.
  destruct (twirc_recv_result 11 11) as (A & B & C).
  split; [|split].
  - apply (A _ (sample_world 14 [RecvError 11]) 11 []);
      [reflexivity | left; reflexivity].
  - apply (B _ (sample_world 14 [RecvError 104]) 104 []);
      [reflexivity | discriminate | discriminate].
  - apply (C _ (sample_world 14 [RecvData ("PING" ++ CRLF)]) _ []);
      [reflexivity | discriminate | discriminate].
Defined.

(** C4 at a sample world with an empty backlog. *)
Lemma split_read_is_reassembled_witness :
  exists w2 d,
    feed send_all 64 ["PI"; "NG :tmi.example" ++ CRLF] (sample_world 14 []) =
    Ok tt w2
    /\ trace w2 = d
    /\ processed d = ["PING :tmi.example"]
    /\ buffer (state w2) = "".
Proof.
  destruct (split_read_is_reassembled send_all 64 (sample_world 14 []) eq_refl)
    as [_ (w2 & d & H & T & P & B)].
  exists w2, d. repeat split; assumption.
Defined.

(* ================================================================= *)
(** ** Further sample runs *)

(** Evaluate a closed run and name its result. *)
Ltac ran :=
  match goal with
  | |- exists r w', ?run = Ok r w' /\ _ =>
      let v := eval vm_compute in run in
      match v with
      | Ok ?r0 ?w0 => exists r0, w0; split; [vm_compute; reflexivity|]
      end
  end.


(** X4 at a string with two spaces. *)
Lemma shift_token_agrees_with_next_token_witness :
  let '(n, tok, rest) := libtwirc_shift_token "" "JOIN #chan now" " " in
  let '(next, tok') := libtwirc_next_token "" "JOIN #chan now" " " in
  tok = tok'
  /\ n = (match next with Some _ => strlen tok' | None => 0 end)
  /\ rest = (match next with Some r => r | None => "JOIN #chan now" end).
Proof.
  apply (shift_token_agrees_with_next_token "" "JOIN #chan now" " ").
  reflexivity.
Defined.

(** X5 at three middle parameters. *)
Lemma parse_params_without_colon_witness :
  libtwirc_parse_params (Some "#chan +o nick") =
  (Some (chop (fields " " "#chan +o nick")),
   Z.of_nat (List.length (chop (fields " " "#chan +o nick"))), -1).
Proof. apply parse_params_without_colon. reflexivity. Defined.

(** X6 at a channel and a trailing text of two words. *)
Lemma parse_params_at_first_colon_witness :
  libtwirc_parse_params (Some ("#chan " ++ String ":" "hello world")) =
  (Some (params_of "#chan " "hello world"),
   Z.of_nat (List.length (params_of "#chan " "hello world")),
   Z.of_nat (List.length (params_of "#chan " "hello world")) - 1).
Proof. apply parse_params_at_first_colon; reflexivity. Defined.

(** X7 at a line with two tags, a prefix and two parameters. *)
Lemma decode_line_witness :
  decode
    (irc_line (Some "color=#FF0000;mod=1") (Some "bob!bob@bob.tmi.twitch.tv")
       "PRIVMSG" "#chan :hi all") =
  Some
    (mk_event (Some "bob!bob@bob.tmi.twitch.tv") (Some "bob") None "PRIVMSG"
       (Some ["#chan"; "hi all"]) 2 1
       (Some [mk_tag "color" "#FF000"; mk_tag "mod" ""]) 2).
Proof.
  apply (decode_line (Some "color=#FF0000;mod=1")
           (Some "bob!bob@bob.tmi.twitch.tv") "PRIVMSG" "#chan :hi all");
    reflexivity.
Defined.

(** X8 at a Twitch user prefix. *)
Lemma prefix_to_nick_splits_at_bang_witness :
  libtwirc_prefix_to_nick ("bob" ++ String "!" "bob@bob.tmi.twitch.tv")
  = Some "bob"
  /\ libtwirc_prefix_to_nick "bob" = None.
Proof. apply prefix_to_nick_splits_at_bang. reflexivity. Defined.

(** X28 at the tags [mod], [mod=1x] and [mod=]. *)
Lemma parse_tag_cases_witness :
  parse_tag "mod" = mk_tag "mod" ""
  /\ parse_tag ("mod" ++ String "=" "1x") =
     mk_tag "mod" (libtwirc_unescape_tag "1x")
  /\ parse_tag ("mod" ++ String "=" "") = mk_tag ("mod" ++ String "=" "") "".
Proof. apply parse_tag_cases; reflexivity. Defined.

(** X9 at the keep-alive line of the Twitch servers. *)
Lemma ping_line_is_answered_witness :
  exists r,
    libtwirc_process_msg send_all 64 ("PING :" ++ "tmi.twitch.tv")
      (sample_world 14 []) =
    Ok 0
      (mk_world (sample_state 14) []
         ([] ++ [Processing ("PING :" ++ "tmi.twitch.tv");
                 ParamRead 0;
                 Sent (send_buffer
                         (snprintf "" 64 ("PONG :" ++ "tmi.twitch.tv"))) r;
                 Invoked cb_ping 14
                   (Some (mk_event None None None "PING"
                            (Some ["tmi.twitch.tv"]) 1 0 None 0))])).
Proof.
  apply (ping_line_is_answered send_all 64 "tmi.twitch.tv"
           (sample_world 14 []));
    [discriminate | reflexivity].
Defined.

(** X10 at a join without tags. *)
Lemma join_line_reaches_handler_witness :
  let line := irc_line None (Some ("bob" ++ String "!" "bob@host")) "JOIN"
                "#chan" in
  libtwirc_process_msg send_all 64 line (sample_world 14 []) =
  Ok 0
    (mk_world (sample_state 14) []
       ([] ++ [Processing line;
               ParamRead 0;
               Invoked cb_join 14
                 (Some (mk_event (Some ("bob" ++ String "!" "bob@host"))
                          (Some "bob") (Some "#chan") "JOIN" (Some ["#chan"])
                          1 (-1) (tags_of None) (num_tags_of None)))])).
Proof.
  apply (join_line_reaches_handler send_all 64 None "bob" "bob@host" "#chan"
           (sample_world 14 []));
    first [reflexivity | discriminate].
Defined.

(** X11 at a chat message with one tag. *)
Lemma privmsg_line_reaches_handler_witness :
  let line :=
    irc_line (Some "mod=1") (Some ("bob" ++ String "!" "bob@host")) "PRIVMSG"
      ("#chan" ++ String " " (String ":" "hi all")) in
  libtwirc_process_msg send_all 64 line (sample_world 14 []) =
  Ok 0
    (mk_world (sample_state 14) []
       ([] ++ [Processing line; ParamRead 0; ParamRead 1]
        ++ (if is_ctcp "hi all" then []
            else [Invoked cb_privmsg 14
                    (Some (mk_event (Some ("bob" ++ String "!" "bob@host"))
                             (Some "bob") (Some "#chan") "PRIVMSG"
                             (Some ["#chan"; "hi all"]) 2 1
                             (tags_of (Some "mod=1"))
                             (num_tags_of (Some "mod=1"))))]))).
Proof.
  apply (privmsg_line_reaches_handler send_all 64 (Some "mod=1") "bob"
           "bob@host" "#chan" "hi all" (sample_world 14 []));
    first [reflexivity | discriminate].
Defined.


(** X13 at a notification that delivers a part line and a notice line. *)
Lemma unwired_handlers_never_called_witness :
  let w :=
    sample_world 14
      [RecvData (":bob!bob@host PART #chan" ++ CRLF
                 ++ ":tmi.twitch.tv NOTICE #chan :slow mode" ++ CRLF)] in
  exists r w',
    libtwirc_handle_event send_all 11 11 64 EPOLLIN w = Ok r w'
    /\ exists d,
        trace w' = (trace w ++ d)%list
        /\ forall cb, In cb (calls d) ->
             cb <> cb_part /\ cb <> cb_channel /\ cb <> cb_notice
             /\ cb <> cb_unknown.
Proof.
  cbv zeta. ran.
  apply (unwired_handlers_never_called send_all 11 11 64 EPOLLIN
           (sample_world 14
              [RecvData (":bob!bob@host PART #chan" ++ CRLF
                         ++ ":tmi.twitch.tv NOTICE #chan :slow mode"
                         ++ CRLF)]) 0).
  vm_compute. reflexivity.
Defined.

(** X14 at a hang-up of the peer on a logged-in connection. *)
Lemma handle_event_outcome_witness :
  exists r w',
    libtwirc_handle_event send_all 11 11 64 EPOLLRDHUP (sample_world 14 []) =
    Ok r w'
    /\ if hangs_up EPOLLRDHUP
       then r = -1
            /\ status (state w') = TWIRC_STATUS_DISCONNECTED
            /\ running (state w') = 0
            /\ twirc_is_connected (state w') = 0
            /\ twirc_is_logged_in (state w') = 0
       else r = 0 /\ device (sample_world 14 []) w'.
Proof.
  ran.
  apply (handle_event_outcome send_all 11 11 64 EPOLLRDHUP
           (sample_world 14 [])).
  vm_compute. reflexivity.
Defined.

(** X15 at a fresh connecting state: the second writable notification is
    a no-op. *)
Lemma handshake_happens_once_witness :
  exists r w',
    libtwirc_handle_event send_all 11 11 64 EPOLLOUT
      (sample_world TWIRC_STATUS_CONNECTING []) = Ok r w'
    /\ exists r2 w2,
        libtwirc_handle_event send_all 11 11 64 EPOLLOUT w' = Ok r2 w2
        /\ trace w2 = trace w'
        /\ (hangs_up EPOLLOUT = false -> r2 = 0 /\ w2 = w').
Proof.
  ran.
  apply (handshake_happens_once send_all 11 11 64 EPOLLOUT
           (sample_world TWIRC_STATUS_CONNECTING []) 0);
    first [discriminate | reflexivity | (vm_compute; reflexivity)].
Defined.

(** X16 at two data spans that cut a line, then a would-block. *)
Lemma readable_processes_received_stream_witness :
  let w :=
    sample_world 14
      [RecvData ("FOO" ++ CRLF ++ "BA"); RecvData ("R" ++ CRLF);
       RecvError 11; RecvData "later"] in
  exists r w',
    libtwirc_handle_event send_all 11 11 64 EPOLLIN w = Ok r w'
    /\ inbox w' = after_data (inbox w)
    /\ exists d,
        trace w' = (trace w ++ d)%list
        /\ (processed d ++ pending (buffer (state w')))%list =
           pending (buffer (state w)
                    ++ strip_nul (stream (leading_data (inbox w)))).
Proof.
  cbv zeta. ran.
  apply (readable_processes_received_stream send_all 11 11 64 EPOLLIN
           (sample_world 14
              [RecvData ("FOO" ++ CRLF ++ "BA"); RecvData ("R" ++ CRLF);
               RecvError 11; RecvData "later"]) 0);
    first [discriminate | reflexivity | (vm_compute; reflexivity)].
Defined.

(** X17 at the first half of a line. *)
Lemma incomplete_data_is_kept_witness :
  exists r w',
    libtwirc_process_data send_all 64 "PI" 2 (sample_world 14 []) = Ok r w'
    /\ r = 0
    /\ buffer (state w') =
       buffer (state (sample_world 14 []))
       ++ strip_nul (take (Z.to_nat 2) "PI")
    /\ trace w' = trace (sample_world 14 [])
    /\ inbox w' = inbox (sample_world 14 []).
Proof.
  ran.
  apply (incomplete_data_is_kept send_all 64 "PI" 2 (sample_world 14 []));
    first [reflexivity | (split; discriminate) | (vm_compute; reflexivity)].
Defined.

(** X18 at a failed wait between two quiet ones. *)
Lemma loop_ends_at_first_stop_witness :
  twirc_loop send_all 11 11 64 1000 ([(0, 0)] ++ (-1, 0) :: [(0, 0)])%list
    (sample_world 14 []) =
  twirc_loop send_all 11 11 64 1000 ([(0, 0)] ++ [(-1, 0)])%list
    (sample_world 14 [])
  /\ forall w',
      twirc_loop send_all 11 11 64 1000
        ([(0, 0)] ++ (-1, 0) :: [(0, 0)])%list (sample_world 14 [])
      <> Ok None w'.
Proof.
  apply (loop_ends_at_first_stop send_all 11 11 64 1000 [(0, 0)] (-1, 0)
           [(0, 0)] (sample_world 14 [])).
  reflexivity.
Defined.

(** X19 at a quiet wait and a keep-alive line to read, after which the loop
    is still waiting, and at a quiet wait, a hang-up and a notification that
    is never asked for, where it returns. *)
Lemma loop_waits_until_stopped_witness :
  let w := sample_world 14 [RecvData ("PING :tmi.twitch.tv" ++ CRLF)] in
  (exists w',
      twirc_loop send_all 11 11 64 1000 [(0, 0); (1, EPOLLIN)] w = Ok None w'
      /\ running (state w') = 1
      /\ Forall (fun x => stops x = false) [(0, 0); (1, EPOLLIN)])
  /\ (exists w',
       twirc_loop send_all 11 11 64 1000
         [(0, 0); (1, EPOLLHUP); (1, EPOLLIN)] w = Ok (Some 0) w'
       /\ 0 = 0
       /\ running (state w') = 0
       /\ Exists (fun x => stops x = true)
            [(0, 0); (1, EPOLLHUP); (1, EPOLLIN)]).
Proof.
  cbv zeta. split.
  - match goal with
    | |- exists w', ?run = Ok None w' /\ _ =>
        let v := eval vm_compute in run in
        match v with
        | Ok _ ?w0 =>
            exists w0; split; [vm_compute; reflexivity|];
            apply (proj2 (loop_waits_until_stopped send_all 11 11 64 1000
                            [(0, 0); (1, EPOLLIN)]
                            (sample_world 14
                               [RecvData ("PING :tmi.twitch.tv" ++ CRLF)]))
                     None w0)
        end
    end.
    vm_compute. reflexivity.
  - match goal with
    | |- exists w', ?run = Ok (Some 0) w' /\ _ =>
        let v := eval vm_compute in run in
        match v with
        | Ok _ ?w0 =>
            exists w0; split; [vm_compute; reflexivity|];
            apply (proj2 (loop_waits_until_stopped send_all 11 11 64 1000
                            [(0, 0); (1, EPOLLHUP); (1, EPOLLIN)]
                            (sample_world 14
                               [RecvData ("PING :tmi.twitch.tv" ++ CRLF)]))
                     (Some 0) w0)
        end
    end.
    vm_compute. reflexivity.
Defined.

(** X21 at a short chat message. *)
Lemma privmsg_round_trip_witness :
  let line := "PRIVMSG " ++ "#chan" ++ " :" ++ "hi all" in
  (exists r,
      twirc_cmd_privmsg send_all "#chan" "hi all" (sample_world 14 []) =
      Ok r (mk_world (sample_state 14) []
              ([] ++ [Sent (line ++ CRLF ++ String NUL "") r])))
  /\ decode line =
     Some (mk_event None None None "PRIVMSG" (Some ["#chan"; "hi all"]) 2 1
             None 0).
Proof.
  apply (privmsg_round_trip send_all "#chan" "hi all" (sample_world 14 []));
    first [reflexivity | discriminate].
Defined.

(** X25 at a tagged chat message. *)
Lemma decode_counts_witness :
  exists evt,
    decode "@mod=1;color= :bob!bob@host PRIVMSG #chan :hi all" = Some evt
    /\ num_params evt =
       Z.of_nat
         (List.length match params evt with Some l => l | None => [] end)
    /\ num_tags evt =
       Z.of_nat (List.length match tags evt with Some l => l | None => [] end)
    /\ (trailing evt = -1
        \/ (0 <= trailing evt /\ trailing evt = num_params evt - 1))
    /\ channel evt = None.
Proof.
  eexists. split; [vm_compute; reflexivity|].
  apply (decode_counts "@mod=1;color= :bob!bob@host PRIVMSG #chan :hi all");
    reflexivity.
Defined.

(** X26 at two complete lines and nothing behind them. *)
Lemma pass_yields_all_nonempty_witness :
  exists r w',
    libtwirc_process_data send_all 64 ("FOO" ++ CRLF ++ "BAR" ++ CRLF) 10
      (sample_world 14 []) = Ok r w'
    /\ strstr (buffer (state w')) CRLF = None
    /\ exists d,
        trace w' = (trace (sample_world 14 []) ++ d)%list
        /\ processed d =
           complete_lines
             (buffer (state (sample_world 14 []))
              ++ strip_nul
                   (take (Z.to_nat 10) ("FOO" ++ CRLF ++ "BAR" ++ CRLF))).
Proof.
  ran.
  apply (pass_yields_all_nonempty send_all 64
           ("FOO" ++ CRLF ++ "BAR" ++ CRLF) 10 (sample_world 14 []) 0);
    first [reflexivity | (split; discriminate) | (vm_compute; reflexivity)].
Defined.

(** X27 at a readable notification with one span to receive. *)
Lemma bounded_handle_event_witness :
  libtwirc_handle_event send_all 11 11 64 EPOLLIN
    (sample_world 14 [RecvData ("PING :tmi.twitch.tv" ++ CRLF)])
  <> Crash OutOfFuel.
Proof.
  apply (bounded_handle_event send_all 11 11 64 EPOLLIN
           (sample_world 14 [RecvData ("PING :tmi.twitch.tv" ++ CRLF)])).
  reflexivity.
Defined.
